(** * The experiment template of ConsensusLLM: scheduling, ordering and
      failure isolation

    A shallow embedding of [modules/experiment/template.py].  The class
    [Template] runs [n_exp] simulations in a thread pool; every simulation
    ([run_once]) runs [rounds] rounds one after the other; every round runs
    one task per agent in a second thread pool, gathers what the tasks
    return, sorts it by agent index and hands it to [round_postprocess];
    when the rounds are over the memories of the agents are folded into the
    record of the experiment under a lock.

    The threads are embedded as state machines whose control points are the
    lines of the source, interleaved by an arbitrary scheduler.  What the
    subclasses and the agents supply (the abstract methods of [Template],
    [answer] and [get_memories]) is a parameter of the development.

    [save_record] is embedded as a computation on a file system, of which
    the operations it calls are a parameter as well. *)

From stdpp Require Import base list strings sorting.
From Stdlib Require Import ZArith Lia.

Local Open Scope string_scope.
Local Open Scope nat_scope.
Local Open Scope list_scope.

(** ** Exceptions *)

(** A raised Python exception.  [is_Exception] tells whether it is an
    instance of [Exception], which is what [except Exception] catches;
    [KeyboardInterrupt], [SystemExit] and the like are not. *)
Record exn := Exn { is_Exception : bool; message : string }.

(** [ThreadPoolExecutor(max_workers)] raises this when [max_workers <= 0]. *)
Definition ValueError_max_workers : exn :=
  Exn true "max_workers must be greater than 0".

(** ** [sorted(results, key=...)] *)

(** Python's [sorted] is stable and compares the keys only.  The result of a
    stable sort is determined by its input; insertion from the right, placing
    an element before the first one whose key is not smaller, computes it. *)
Fixpoint insert_by {A} (key : A → Z) (x : A) (l : list A) : list A :=
  match l with
  | [] => [x]
  | y :: l' => if (key x <=? key y)%Z then x :: y :: l'
               else y :: insert_by key x l'
  end.

Definition sorted {A} (key : A → Z) (l : list A) : list A :=
  foldr (insert_by key) [] l.

(** ** [as_completed(futures)] *)

(** [as_completed] yields the futures one at a time, each time one of those
    that have not been yielded yet: whichever finished.  Which one is not in
    the hands of the program; [picks] is that choice, the k-th number
    selecting (modulo the number of futures left) the k-th future to be
    yielded.  When [picks] runs out the first one left is taken. *)
Fixpoint yield_from {A} (n : nat) (picks : list nat) (pending : list A) : list A :=
  match n with
  | 0 => []
  | S n' =>
      let i := Nat.modulo (hd 0 picks) (length pending) in
      match pending !! i with
      | Some f => f :: yield_from n' (tl picks) (delete i pending)
      | None => []
      end
  end.

Definition as_completed {A} (picks : list nat) (futures : list A) : list A :=
  yield_from (length futures) picks futures.

(** ** What the subclasses and the agents supply *)

(** The two methods the template calls on an agent.  An agent is an object
    with a state of its own: [answer] may change it, and either raises or
    returns a pair [(idx, result)].  The arguments after the question are
    [agent_ind], [round] and [simulation_ind]. *)
Class AgentOps (Agent Question Result Memory : Type) := {
  answer : Agent → Question → nat → nat → nat → Agent * (exn + (Z * Result));
  get_memories : Agent → exn + Memory
}.

(** The abstract methods of [Template].  Every one of them may raise; those
    that receive a mutable object may have changed it when they do.
    [empty_record] is the [{}] that [__init__] stores in [self.__record];
    [exp_postprocess] takes no argument but [self], of which the record is a
    part. *)
Class TemplateOps (Agent Question Result Memory Rec : Type) := {
  empty_record : Rec;
  generate_question : Agent → nat → Agent * (exn + Question);
  generate_agents : nat → exn + list Agent;
  update_record : Rec → list Memory → nat → Rec * option exn;
  round_postprocess :
    nat → nat → list (Z * Result) → list Agent → list Agent * option exn;
  exp_postprocess : Rec → Rec * option exn
}.

(** What [save_record] calls outside the class: [os.path.exists],
    [os.makedirs], [open(path, "wb")] and [pickle.dump] of the Python
    library, and [plot_result] and [gen_html] of [modules/visual].  They act
    on the file system, of which nothing is assumed: every one of them but
    [os.path.exists] may raise, and may have changed the file system when it
    does. *)
Class FileOps (Rec FS : Type) := {
  path_exists : FS → string → bool;
  makedirs : FS → string → FS * option exn;
  open_wb : FS → string → FS * option exn;
  pickle_dump : FS → Rec → string → FS * option exn;
  plot_result : FS → string → string → FS * option exn;
  gen_html : FS → string → string → FS * option exn
}.

(** [args]: the three numbers [__init__] reads.  [agents] is stored in
    [self.__n_agent] and never read again: the number of agents of a
    simulation is the length of what [generate_agents] returns. *)
Record Args := { agents : nat; rounds : nat; n_exp : nat }.

Section Engine.

Context {Agent Question Result Memory Rec : Type}.
Context `{!AgentOps Agent Question Result Memory}.
Context `{!TemplateOps Agent Question Result Memory Rec}.
Variable args : Args.

(** What a future of an agent task holds once it is done. *)
Local Abbreviation Future := (exn + (Z * Result))%type.

(** ** The trace *)

(** The calls and prints of a run, in the order they happen.  Events of a
    simulation carry its index. *)
Inductive Event :=
| EvGenerateAgents (sim : nat) (raised : option exn)            (* line 58 *)
| EvRound (sim round n_thread : nat)                            (* line 62 *)
| EvTaskError (sim round : nat) (e : exn)                       (* line 72 *)
| EvProgress (sim round : nat)                                  (* line 78 *)
| EvRoundPostprocess (sim round : nat) (results : list (Z * Result))
                     (raised : option exn)                      (* line 79 *)
| EvError (sim : nat) (e : exn)                                 (* line 82 *)
| EvGetMemories (sim : nat) (raised : option exn)               (* line 84 *)
| EvAcquire (sim : nat)                                         (* line 85 *)
| EvUpdateCall (sim : nat)                                      (* line 86 *)
| EvUpdateReturn (sim : nat) (contexts : list Memory)
                 (raised : option exn)                          (* line 86 *)
| EvRelease (sim : nat)                                         (* line 85 *)
| EvFutureError (sim : nat) (e : exn)                           (* line 50 *)
| EvClose                                                       (* line 51 *)
| EvFault (e : exn)                                             (* line 53 *)
| EvExpPostprocess (record : Rec) (raised : option exn).     (* line 55 *)

(** The text a print event puts on the console. *)
Definition printed (ev : Event) : option string :=
  match ev with
  | EvTaskError _ _ e | EvFutureError _ e =>
      Some (String.append "A thread raised an exception: " (message e))
  | EvError _ e => Some (String.append "error:" (message e))
  | EvFault e => Some (String.append "An exception occurred: " (message e))
  | _ => None
  end.

(** ** One round: lines 61 to 77 of [run_once] *)

(** [n_thread = len(agents) if round < 4 else 1] *)
Definition n_thread (agents : list Agent) (round : nat) : nat :=
  if round <? 4 then length agents else 1.

(** The submission loop, lines 66-68.  A task acts on the agent it was
    submitted for and on nothing else, so what it returns and what it leaves
    in its agent do not depend on when the pool runs it; the future is
    recorded with its outcome.  When [generate_question] raises, the tasks
    submitted before still run (leaving the [with] block waits for them) and
    the remaining agents are left as they were. *)
Fixpoint submit_all (sim round agent_ind : nat) (ags : list Agent)
  : list Agent * list Future * option exn :=
  match ags with
  | [] => ([], [], None)
  | agent :: rest =>
      let '(agent1, q) := generate_question agent round in
      match q with
      | inl e => (agent1 :: rest, [], Some e)
      | inr question =>
          let '(agent2, out) := answer agent1 question agent_ind round sim in
          let '(rest', futures, err) := submit_all sim round (S agent_ind) rest in
          (agent2 :: rest', out :: futures, err)
      end
  end.

(** The futures that hold a result, and those that hold an exception. *)
Definition successes (fs : list Future) : list (Z * Result) :=
  omap (λ f, match f with inr x => Some x | inl _ => None end) fs.

Definition failures (fs : list Future) : list exn :=
  omap (λ f, match f with inl e => Some e | inr _ => None end) fs.

(** The collection loop, lines 70-75: a failed future is printed, the result
    of any other is put on the queue. *)
Fixpoint collect (sim round : nat) (completed : list Future)
    (queue : list (Z * Result)) : list Event * list (Z * Result) :=
  match completed with
  | [] => ([], queue)
  | inl e :: rest =>
      let '(evs, q) := collect sim round rest queue in
      (EvTaskError sim round e :: evs, q)
  | inr (idx, result) :: rest => collect sim round rest (queue ++ [(idx, result)])
  end.

(** [ThreadPoolExecutor(n)], as the round uses it: the tasks, named by the
    index of their agent, wait in the order they were submitted; a worker, of
    which there are at most [n], takes the first task waiting; a running task
    completes at any time. *)
Record Pool := {
  waiting : list nat;
  running : list nat;
  completed : list nat
}.

Inductive pool_step (n : nat) : Pool → Pool → Prop :=
| pool_start i q r c :
    length r < n →
    pool_step n (Build_Pool (i :: q) r c) (Build_Pool q (r ++ [i]) c)
| pool_complete i q r1 r2 c :
    pool_step n (Build_Pool q (r1 ++ i :: r2) c)
      (Build_Pool q (r1 ++ r2) (c ++ [i])).

(** The states of a pool of [n] workers that was given [k] tasks. *)
Inductive pool_reachable (n k : nat) : Pool → Prop :=
| pool_submitted : pool_reachable n k (Build_Pool (seq 0 k) [] [])
| pool_next p p' :
    pool_reachable n k p → pool_step n p p' → pool_reachable n k p'.

(** The body of the loop up to line 77: the agents as the tasks left them,
    what was printed, and either the exception that ended the round or the
    sorted results. *)
Definition run_round (sim round : nat) (picks : list nat) (ags : list Agent)
  : list Agent * list Event * (exn + list (Z * Result)) :=
  let n := n_thread ags round in
  if n =? 0 then (ags, [EvRound sim round n], inl ValueError_max_workers)
  else
    let '(ags', futures, err) := submit_all sim round 0 ags in
    match err with
    | Some e => (ags', [EvRound sim round n], inl e)
    | None =>
        let '(evs, queue) := collect sim round (as_completed picks futures) [] in
        (ags', EvRound sim round n :: evs, inr (sorted fst queue))
    end.

(** ** One simulation: [run_once] *)

(** The control points of [run_once], with what the thread holds there. *)
Inductive pc :=
| PStart                                                  (* before line 58 *)
| PRound (round : nat)                          (* line 60, head of the loop *)
| PProgress (round : nat) (results : list (Z * Result))   (* before line 78 *)
| PPostprocess (round : nat) (results : list (Z * Result)) (* before line 79 *)
| PExcept (e : exn)                                       (* before line 82 *)
| PFinally (pending : option exn)                         (* before line 84 *)
| PAcquire (pending : option exn) (contexts : list Memory) (* before line 85 *)
| PUpdateCall (pending : option exn) (contexts : list Memory)
                                             (* lock held, before line 86 *)
| PUpdateReturn (pending : option exn) (contexts : list Memory) (seen : Rec)
                                                (* inside [update_record] *)
| PRelease (outcome : option exn)            (* leaving the [with] block *)
| PDone (outcome : option exn).              (* the future of the task *)

Record Thread := {
  simulation_ind : nat;
  thread_agents : list Agent;
  at_pc : pc
}.

(** What the simulations share: the [tqdm] counter, [self.__record] and
    [self.__lock].  [progress.update(1)] is taken as one step: an increment
    that is not torn. *)
Record Shared := { progress : nat; record : Rec; lock : bool }.

(** An exception raised inside the [try] of line 59: [except Exception]
    takes it when it is an [Exception]; otherwise it is pending while the
    [finally] block runs. *)
Definition raise_in_try (e : exn) : pc :=
  if is_Exception e then PExcept e else PFinally (Some e).

(** [[agent.get_memories() for agent in agents]] *)
Fixpoint agent_contexts (ags : list Agent) : exn + list Memory :=
  match ags with
  | [] => inr []
  | agent :: rest =>
      match get_memories agent with
      | inl e => inl e
      | inr m =>
          match agent_contexts rest with
          | inl e => inl e
          | inr ms => inr (m :: ms)
          end
      end
  end.

(** The agents of a simulation, when [generate_agents] returns them. *)
Definition generate_agents_ok (sim : nat) : option (list Agent) :=
  match generate_agents sim with inr ags => Some ags | inl _ => None end.

(** One step of the thread of a simulation: the thread after it, what is
    shared after it, and the events.  [None]: the thread cannot move (it is
    done, or it waits for the lock).  A round up to line 77 touches nothing
    the simulations share but the console, and is one step.
    [update_record] takes time: it reads the record when it is called and
    the record it leaves is in place when it returns. *)
Definition thread_step (picks : list nat) (sh : Shared) (t : Thread)
  : option (Thread * Shared * list Event) :=
  let sim := simulation_ind t in
  let ags := thread_agents t in
  match at_pc t with
  | PStart =>
      match generate_agents sim with
      | inl e => Some (Build_Thread sim [] (PDone (Some e)), sh,
                       [EvGenerateAgents sim (Some e)])
      | inr ags0 => Some (Build_Thread sim ags0 (PRound 0), sh,
                          [EvGenerateAgents sim None])
      end
  | PRound round =>
      if round <? rounds args then
        let '(ags', evs, out) := run_round sim round picks ags in
        Some (Build_Thread sim ags'
                (match out with
                 | inl e => raise_in_try e
                 | inr results => PProgress round results
                 end), sh, evs)
      else Some (Build_Thread sim ags (PFinally None), sh, [])
  | PProgress round results =>
      Some (Build_Thread sim ags (PPostprocess round results),
            Build_Shared (S (progress sh)) (record sh) (lock sh),
            [EvProgress sim round])
  | PPostprocess round results =>
      let '(ags', raised) := round_postprocess sim round results ags in
      Some (Build_Thread sim ags'
              (match raised with
               | Some e => raise_in_try e
               | None => PRound (S round)
               end), sh, [EvRoundPostprocess sim round results raised])
  | PExcept e =>
      Some (Build_Thread sim ags (PFinally None), sh, [EvError sim e])
  | PFinally pending =>
      match agent_contexts ags with
      | inl e => Some (Build_Thread sim ags (PDone (Some e)), sh,
                       [EvGetMemories sim (Some e)])
      | inr contexts => Some (Build_Thread sim ags (PAcquire pending contexts),
                              sh, [EvGetMemories sim None])
      end
  | PAcquire pending contexts =>
      if lock sh then None
      else Some (Build_Thread sim ags (PUpdateCall pending contexts),
                 Build_Shared (progress sh) (record sh) true,
                 [EvAcquire sim])
  | PUpdateCall pending contexts =>
      Some (Build_Thread sim ags (PUpdateReturn pending contexts (record sh)),
            sh, [EvUpdateCall sim])
  | PUpdateReturn pending contexts seen =>
      let '(record', raised) := update_record seen contexts sim in
      Some (Build_Thread sim ags
              (PRelease (match raised with Some e => Some e | None => pending end)),
            Build_Shared (progress sh) record' (lock sh),
            [EvUpdateReturn sim contexts raised])
  | PRelease outcome =>
      Some (Build_Thread sim ags (PDone outcome),
            Build_Shared (progress sh) (record sh) false,
            [EvRelease sim])
  | PDone _ => None
  end.

(** ** The experiment: [run] *)

(** The control points of [run].  [MCollect pending] is the loop of line 48
    with the futures [as_completed] has not yielded yet. *)
Inductive mpc :=
| MStart                                   (* before line 44 *)
| MCollect (pending : list nat)            (* lines 48-51 *)
| MExcept (e : exn)                        (* before line 53; the executor
                                              raises an [Exception] *)
| MFinally                                 (* before line 55 *)
| MDone (outcome : option exn).            (* [run] has returned or raised *)

Record State := {
  main : mpc;
  threads : list Thread;
  shared : Shared;
  log : list Event
}.

(** [ThreadPoolExecutor(max_workers=n_exp)] gives every simulation a worker
    of its own; the tasks run from the moment they are submitted. *)
Definition submit_simulations : list Thread :=
  (λ sim, Build_Thread sim [] PStart) <$> seq 0 (n_exp args).

(** One step of [run].  In the loop of line 48, [k] selects among the
    futures not yielded yet; [as_completed] yields one only when its task is
    done. *)
Definition main_step (k : nat) (st : State) : option State :=
  match main st with
  | MStart =>
      if n_exp args =? 0
      then Some (Build_State (MExcept ValueError_max_workers)
                   (threads st) (shared st) (log st))
      else Some (Build_State (MCollect (seq 0 (n_exp args)))
                   submit_simulations
                   (Build_Shared 0 (record (shared st)) (lock (shared st)))
                   (log st))
  | MCollect [] =>
      Some (Build_State MFinally (threads st) (shared st) (log st ++ [EvClose]))
  | MCollect pending =>
      match pending !! k with
      | None => None
      | Some i =>
          match at_pc <$> threads st !! i with
          | Some (PDone outcome) =>
              Some (Build_State (MCollect (delete k pending)) (threads st)
                      (shared st)
                      (log st ++ match outcome with
                                 | Some e => [EvFutureError i e]
                                 | None => []
                                 end))
          | _ => None
          end
      end
  | MExcept e =>
      Some (Build_State MFinally (threads st) (shared st)
              (log st ++ [EvFault e]))
  | MFinally =>
      let '(record', raised) := exp_postprocess (record (shared st)) in
      Some (Build_State (MDone raised) (threads st)
              (Build_Shared (progress (shared st)) record' (lock (shared st)))
              (log st ++ [EvExpPostprocess (record (shared st)) raised]))
  | MDone _ => None
  end.

(** What the scheduler decides at a step: which thread moves, and what is
    not in the hands of the program there. *)
Inductive Choice :=
| CMain (k : nat)
| CSim (i : nat) (picks : list nat).

Definition step (c : Choice) (st : State) : option State :=
  match c with
  | CMain k => main_step k st
  | CSim i picks =>
      match threads st !! i with
      | None => None
      | Some t =>
          match thread_step picks (shared st) t with
          | None => None
          | Some (t', sh', evs) =>
              Some (Build_State (main st) (<[i:=t']> (threads st)) sh'
                      (log st ++ evs))
          end
      end
  end.

(** [__init__]: an empty record, a free lock; nothing runs yet. *)
Definition init : State :=
  Build_State MStart [] (Build_Shared 0 empty_record false) [].

Fixpoint exec (cs : list Choice) (st : State) : option State :=
  match cs with
  | [] => Some st
  | c :: cs' =>
      match step c st with
      | None => None
      | Some st' => exec cs' st'
      end
  end.

Inductive reachable : State → Prop :=
| reachable_init : reachable init
| reachable_step st c st' :
    reachable st → step c st = Some st' → reachable st'.

(** [run] is over. *)
Definition finished (st : State) : Prop :=
  match main st with MDone _ => True | _ => False end.

(** A scheduler to run the model with: at the k-th step the first of the
    candidates, taken in turn from the k-th on, that can move. *)
Fixpoint round_robin (fuel k : nat) (cands : list Choice) (st : State)
  : list Choice :=
  match fuel with
  | 0 => []
  | S fuel' =>
      match list_find (λ c, is_Some (step c st)) (rotate k cands) with
      | Some (_, c) =>
          c :: round_robin fuel' (S k) cands (default st (step c st))
      | None => []
      end
  end.

(** ** Saving the record: [save_record] *)

Context {FS : Type} `{!FileOps Rec FS}.

(** What [save_record] does to the file system and to the console, in the
    order it does it. *)
Inductive IOEvent :=
| IoExists (path : string) (found : bool)                        (* line 90 *)
| IoMakedirs (path : string) (raised : option exn)               (* line 91 *)
| IoOpen (path : string) (raised : option exn)            (* lines 94, 102 *)
| IoDump (path : string) (record : Rec) (raised : option exn)
                                                          (* lines 94, 102 *)
| IoPlot (data_file output_dir : string) (raised : option exn)   (* line 96 *)
| IoHtml (data_file output_dir : string) (raised : option exn)   (* line 97 *)
| IoPrint (text : string).                               (* lines 99, 100 *)

(** A computation on the file system: the file system it leaves, what it
    did, and the exception it raised or the value it returned. *)
Definition IO (A : Type) : Type := FS → FS * list IOEvent * (exn + A).

Global Instance io_ret : MRet IO := λ A a fs, (fs, [], inr a).

(** One statement after the other: the second does not run when the first
    raises. *)
Global Instance io_bind : MBind IO := λ A B k m fs,
  let '(fs1, evs1, out) := m fs in
  match out with
  | inl e => (fs1, evs1, inl e)
  | inr a => let '(fs2, evs2, out2) := k a fs1 in (fs2, evs1 ++ evs2, out2)
  end.

(** [try: body except Exception as e: handler]: the handler runs when the
    body raises an [Exception]; anything else the body raises goes on. *)
Definition try_except {A} (body : IO A) (handler : exn → IO A) : IO A := λ fs,
  let '(fs1, evs1, out) := body fs in
  match out with
  | inl e =>
      if is_Exception e
      then let '(fs2, evs2, out2) := handler e fs1 in (fs2, evs1 ++ evs2, out2)
      else (fs1, evs1, inl e)
  | inr a => (fs1, evs1, inr a)
  end.

(** A call of one of the operations that may raise. *)
Definition call (op : FS → FS * option exn) (ev : option exn → IOEvent)
  : IO unit := λ fs,
  let '(fs1, raised) := op fs in
  (fs1, [ev raised], match raised with Some e => inl e | None => inr () end).

Definition os_path_exists (path : string) : IO bool := λ fs,
  (fs, [IoExists path (path_exists fs path)], inr (path_exists fs path)).

Definition os_makedirs (path : string) : IO unit :=
  call (λ fs, makedirs fs path) (IoMakedirs path).

Definition print (text : string) : IO unit := λ fs, (fs, [IoPrint text], inr ()).

(** [pickle.dump(record, open(path, "wb"))]: the file is opened, which
    creates or empties it, before [pickle.dump] is called. *)
Definition dump_to (r : Rec) (path : string) : IO unit :=
  call (λ fs, open_wb fs path) (IoOpen path);;
  call (λ fs, pickle_dump fs r path) (IoDump path r).

(** The name of the file inside [output_dir], line 92. *)
Definition data_file (output_dir : string) : string :=
  String.append output_dir "/data.p".

Definition backup_file : string := "backup_output_file.p".

(** The body of the [try] of [save_record], lines 90 to 97. *)
Definition save_to (r : Rec) (output_dir : string) : IO unit :=
  os_path_exists output_dir ≫= λ found : bool,
  (if found then mret () else os_makedirs output_dir);;
  dump_to r (data_file output_dir);;
  call (λ fs, plot_result fs (data_file output_dir) output_dir)
    (IoPlot (data_file output_dir) output_dir);;
  call (λ fs, gen_html fs (data_file output_dir) output_dir)
    (IoHtml (data_file output_dir) output_dir).

(** [save_record(output_dir)], with [r] the record of the template. *)
Definition save_record (r : Rec) (output_dir : string) : IO unit :=
  try_except (save_to r output_dir)
    (λ e,
       print (String.append "An exception occurred while saving the file: "
                (message e));;
       print "Saving to the current directory instead.";;
       dump_to r backup_file).

(** * The vocabulary of the statements *)

(** ** Sorted by key *)

(** Two elements in the order of their keys. *)
Definition key_le {A} (key : A → Z) (x y : A) : Prop := (key x ≤ key y)%Z.

(** The strict order of the keys. *)
Definition key_lt {A} (key : A → Z) (x y : A) : Prop := (key x < key y)%Z.

(** ** The contracts of the agents *)

(** Modelled from the spec: the class of the agents is not among the
    sources; its [answer(question, agentIndex, roundIndex, simulationIndex)]
    returns [(agentIndex, result)], the index it was given. *)
Definition answer_returns_index : Prop :=
  ∀ a q i r s a' idx res,
    answer a q i r s = (a', inr (idx, res)) → idx = Z.of_nat i.

(** Modelled from the spec: the class of the agents is not among the
    sources; its snapshot of the memory is read-only and no failure is
    expected of it: [get_memories] raises for no agent. *)
Definition memories_total : Prop := ∀ a, ∃ m, get_memories a = inr m.

(** ** The trace of a simulation *)

(** The simulation an event belongs to; the events of [run] belong to none. *)
Definition ev_sim (ev : Event) : option nat :=
  match ev with
  | EvGenerateAgents s _ | EvRound s _ _ | EvTaskError s _ _ | EvProgress s _
  | EvRoundPostprocess s _ _ _ | EvError s _ | EvGetMemories s _
  | EvAcquire s | EvUpdateCall s | EvUpdateReturn s _ _ | EvRelease s => Some s
  | EvFutureError _ _ | EvClose | EvFault _ | EvExpPostprocess _ _ => None
  end.

(** The trace of one simulation. *)
Definition trace_of (i : nat) (l : list Event) : list Event :=
  filter (λ ev, ev_sim ev = Some i) l.

(** ** Threads *)

(** The task of the thread is over. *)
Definition is_done (t : Thread) : Prop :=
  match at_pc t with PDone _ => True | _ => False end.

Global Instance is_done_dec t : Decision (is_done t).
Proof. unfold is_done. destruct (at_pc t); apply _. Defined.

(** The thread is between taking the lock and giving it back. *)
Definition holds_lock (t : Thread) : Prop :=
  match at_pc t with
  | PUpdateCall _ _ | PUpdateReturn _ _ _ | PRelease _ => True
  | _ => False
  end.

Global Instance holds_lock_dec t : Decision (holds_lock t).
Proof. unfold holds_lock. destruct (at_pc t); apply _. Defined.

(** A quantity summed over the threads. *)
Fixpoint total (f : Thread → nat) (l : list Thread) : nat :=
  match l with
  | [] => 0
  | t :: l' => f t + total f l'
  end.

(** A round logs the construction of its executor and, after it, the tasks
    that failed. *)
Definition of_round (sim round : nat) (ev : Event) : Prop :=
  match ev with
  | EvRound s r _ | EvTaskError s r _ => s = sim ∧ r = round
  | _ => False
  end.

(** ** What every reachable state satisfies *)

(** Where [run] is tells what there is to know about the threads: none
    before the submission; afterwards one per simulation, and a future that
    [as_completed] has yielded belongs to a task that is done. *)
Definition main_inv (st : State) : Prop :=
  match main st with
  | MStart => st = init
  | MCollect pending =>
      0 < n_exp args
      ∧ length (threads st) = n_exp args
      ∧ Forall (λ i, i < n_exp args) pending
      ∧ ∀ i t, threads st !! i = Some t → i ∈ pending ∨ is_done t
  | MExcept e =>
      n_exp args = 0 ∧ threads st = [] ∧ e = ValueError_max_workers
      ∧ shared st = Build_Shared 0 empty_record false ∧ log st = []
  | MFinally | MDone _ =>
      length (threads st) = n_exp args ∧ Forall is_done (threads st)
  end.

(** And the thread at position [i] is the one of simulation [i]. *)
Definition wf (st : State) : Prop :=
  main_inv st ∧ ∀ i t, threads st !! i = Some t → simulation_ind t = i.

(** ** The steps of a thread as a relation *)

(** The steps of a thread, one by one. *)
Inductive thread_steps : Shared → Thread → Thread → Shared → list Event → Prop :=
| ts_agents_raise sh sim ags e :
    generate_agents sim = inl e →
    thread_steps sh (Build_Thread sim ags PStart)
      (Build_Thread sim [] (PDone (Some e))) sh [EvGenerateAgents sim (Some e)]
| ts_agents sh sim ags ags0 :
    generate_agents sim = inr ags0 →
    thread_steps sh (Build_Thread sim ags PStart)
      (Build_Thread sim ags0 (PRound 0)) sh [EvGenerateAgents sim None]
| ts_round sh sim ags round picks ags' evs results :
    round < rounds args →
    run_round sim round picks ags = (ags', evs, inr results) →
    thread_steps sh (Build_Thread sim ags (PRound round))
      (Build_Thread sim ags' (PProgress round results)) sh evs
| ts_round_raise sh sim ags round picks ags' evs e :
    round < rounds args →
    run_round sim round picks ags = (ags', evs, inl e) →
    thread_steps sh (Build_Thread sim ags (PRound round))
      (Build_Thread sim ags' (raise_in_try e)) sh evs
| ts_rounds_over sh sim ags round :
    rounds args ≤ round →
    thread_steps sh (Build_Thread sim ags (PRound round))
      (Build_Thread sim ags (PFinally None)) sh []
| ts_progress sh sim ags round results :
    thread_steps sh (Build_Thread sim ags (PProgress round results))
      (Build_Thread sim ags (PPostprocess round results))
      (Build_Shared (S (progress sh)) (record sh) (lock sh))
      [EvProgress sim round]
| ts_postprocess sh sim ags round results ags' :
    round_postprocess sim round results ags = (ags', None) →
    thread_steps sh (Build_Thread sim ags (PPostprocess round results))
      (Build_Thread sim ags' (PRound (S round))) sh
      [EvRoundPostprocess sim round results None]
| ts_postprocess_raise sh sim ags round results ags' e :
    round_postprocess sim round results ags = (ags', Some e) →
    thread_steps sh (Build_Thread sim ags (PPostprocess round results))
      (Build_Thread sim ags' (raise_in_try e)) sh
      [EvRoundPostprocess sim round results (Some e)]
| ts_except sh sim ags e :
    thread_steps sh (Build_Thread sim ags (PExcept e))
      (Build_Thread sim ags (PFinally None)) sh [EvError sim e]
| ts_memories_raise sh sim ags pending e :
    agent_contexts ags = inl e →
    thread_steps sh (Build_Thread sim ags (PFinally pending))
      (Build_Thread sim ags (PDone (Some e))) sh [EvGetMemories sim (Some e)]
| ts_memories sh sim ags pending contexts :
    agent_contexts ags = inr contexts →
    thread_steps sh (Build_Thread sim ags (PFinally pending))
      (Build_Thread sim ags (PAcquire pending contexts)) sh
      [EvGetMemories sim None]
| ts_acquire sh sim ags pending contexts :
    lock sh = false →
    thread_steps sh (Build_Thread sim ags (PAcquire pending contexts))
      (Build_Thread sim ags (PUpdateCall pending contexts))
      (Build_Shared (progress sh) (record sh) true) [EvAcquire sim]
| ts_update_call sh sim ags pending contexts :
    thread_steps sh (Build_Thread sim ags (PUpdateCall pending contexts))
      (Build_Thread sim ags (PUpdateReturn pending contexts (record sh))) sh
      [EvUpdateCall sim]
| ts_update_return sh sim ags pending contexts seen :
    thread_steps sh (Build_Thread sim ags (PUpdateReturn pending contexts seen))
      (Build_Thread sim ags
         (PRelease (match (update_record seen contexts sim).2 with
                    | Some e => Some e
                    | None => pending
                    end)))
      (Build_Shared (progress sh) (update_record seen contexts sim).1 (lock sh))
      [EvUpdateReturn sim contexts (update_record seen contexts sim).2]
| ts_release sh sim ags outcome :
    thread_steps sh (Build_Thread sim ags (PRelease outcome))
      (Build_Thread sim ags (PDone outcome))
      (Build_Shared (progress sh) (record sh) false) [EvRelease sim].

(** ** The lock, the record and the counter *)

(** One for a thread that holds the lock. *)
Definition lock_count (t : Thread) : nat :=
  if decide (holds_lock t) then 1 else 0.

(** The record that the calls of [update_record] and [exp_postprocess] of a
    trace leave, made one after the other from the empty record. *)
Definition replay_event (r : Rec) (ev : Event) : Rec :=
  match ev with
  | EvUpdateReturn sim contexts _ => (update_record r contexts sim).1
  | EvExpPostprocess _ _ => (exp_postprocess r).1
  | _ => r
  end.

(** The record a whole trace leaves. *)
Definition replay (l : list Event) : Rec := foldl replay_event empty_record l.

(** How many events of a trace satisfy [p]. *)
Fixpoint count (p : Event → bool) (l : list Event) : nat :=
  match l with
  | [] => 0
  | ev :: l' => (if p ev then 1 else 0) + count p l'
  end.

(** The kinds of events that are counted or looked for. *)
Definition is_progress (ev : Event) : bool :=
  match ev with EvProgress _ _ => true | _ => false end.

(** The events that change the record. *)
Definition writes_record (ev : Event) : bool :=
  match ev with
  | EvUpdateReturn _ _ _ | EvExpPostprocess _ _ => true
  | _ => false
  end.

(** The lock is taken exactly when one thread holds it; while a thread is
    inside [update_record] the record is the one the call received; the
    record is the replay of the trace; the counter counts the increments. *)
Definition shared_inv (st : State) : Prop :=
  total lock_count (threads st) = (if lock (shared st) then 1 else 0)
  ∧ (∀ i t p c seen,
       threads st !! i = Some t → at_pc t = PUpdateReturn p c seen →
       record (shared st) = seen)
  ∧ record (shared st) = replay (log st)
  ∧ progress (shared st) = count is_progress (log st).

(** ** Weights *)

(** A bound on the steps a thread has left. *)
Definition pc_weight (p : pc) : nat :=
  match p with
  | PStart => 3 * rounds args + 7
  | PRound round => 3 * (rounds args - round) + 6
  | PProgress round _ => 3 * (rounds args - S round) + 8
  | PPostprocess round _ => 3 * (rounds args - S round) + 7
  | PExcept _ => 6
  | PFinally _ => 5
  | PAcquire _ _ => 4
  | PUpdateCall _ _ => 3
  | PUpdateReturn _ _ _ => 2
  | PRelease _ => 1
  | PDone _ => 0
  end.

(** The weight of a thread is the one of its control point. *)
Definition thread_weight (t : Thread) : nat := pc_weight (at_pc t).

(** A bound on the steps [run] has left, the threads not counted; before
    the submission it covers the threads to come. *)
Definition main_weight (m : mpc) : nat :=
  match m with
  | MStart => n_exp args * (3 * rounds args + 7) + n_exp args + 3
  | MCollect pending => length pending + 2
  | MExcept _ => 2
  | MFinally => 1
  | MDone _ => 0
  end.

(** A bound on the steps the whole run has left. *)
Definition weight (st : State) : nat :=
  main_weight (main st) + total thread_weight (threads st).

(** The run comes to its end from [st]: some schedule finishes it, no
    schedule takes more steps than the weight of [st], and a schedule after
    which no thread can move has finished it. *)
Definition runs_to_end (st : State) : Prop :=
  (∃ cs st', exec cs st = Some st' ∧ finished st')
  ∧ ∀ cs st', exec cs st = Some st' →
      length cs ≤ weight st ∧ ((∀ c, step c st' = None) → finished st').

(** ** Sums over the simulations *)

(** The sum of [f 0], ..., [f (n-1)]. *)
Fixpoint sum_upto (n : nat) (f : nat → nat) : nat :=
  match n with
  | 0 => 0
  | S n' => sum_upto n' f + f n'
  end.

(** ** The failures [run] reports *)

(** The exceptions line 50 printed for the future of simulation [i]. *)
Definition reports (i : nat) (l : list Event) : list exn :=
  omap (λ ev, match ev with
              | EvFutureError j e => if decide (j = i) then Some e else None
              | _ => None
              end) l.

(** The exception the future of a finished task holds, if it holds one. *)
Definition raised_by (t : Thread) : list exn :=
  match at_pc t with
  | PDone (Some e) => [e]
  | _ => []
  end.

(** A future is reported when [as_completed] yields it, once, and with the
    exception it holds. *)
Definition report_inv (st : State) : Prop :=
  match main st with
  | MStart | MExcept _ => True
  | MCollect pending =>
      NoDup pending
      ∧ ∀ i t, threads st !! i = Some t →
          reports i (log st) = if decide (i ∈ pending) then [] else raised_by t
  | MFinally | MDone _ =>
      ∀ i t, threads st !! i = Some t → reports i (log st) = raised_by t
  end.

(** ** The results of a round *)

(** What the results of a round are: strictly ascending in the agent index,
    and the outcome of the round whatever the order of completion. *)
Definition round_result (sim round : nat) (results : list (Z * Result)) : Prop :=
  StronglySorted Z.lt (fst <$> results)
  ∧ ∃ ags, ∀ picks, ∃ ags' evs,
      run_round sim round picks ags = (ags', evs, inr results).

(** The results in the trace and the results a thread holds are results of
    rounds. *)
Definition round_result_inv (h : list Event) (t : Thread) : Prop :=
  (∀ sim round results raised,
     EvRoundPostprocess sim round results raised ∈ h →
     round_result sim round results)
  ∧ match at_pc t with
    | PProgress round results | PPostprocess round results =>
        round_result (simulation_ind t) round results
    | _ => True
    end.

(** Every executor of a round in the trace was built with [n_thread] of the
    agents of the moment. *)
Definition width_inv (h : list Event) (t : Thread) : Prop :=
  ∀ s r n, EvRound s r n ∈ h → ∃ ags : list Agent, n = n_thread ags r.

(** One future holds an exception and no other does. *)
Definition only_failure (fs : list Future) (j : nat) (e : exn) : Prop :=
  fs !! j = Some (inl e) ∧ ∀ k e', fs !! k = Some (inl e') → k = j.

(** ** The trace of a simulation, by control point *)

(** When [generate_agents] raises for simulation [i] its thread is at its
    start, or done with that exception and nothing but the failed call in
    its trace. *)
Definition agents_raise_inv (i : nat) (h : list Event) (t : Thread) : Prop :=
  ∀ e, generate_agents i = inl e →
  (at_pc t = PStart ∧ h = [])
  ∨ (at_pc t = PDone (Some e) ∧ h = [EvGenerateAgents i (Some e)]).

(** The events of the [finally] block. *)
Definition is_cleanup (ev : Event) : bool :=
  match ev with
  | EvGetMemories _ _ | EvAcquire _ | EvUpdateCall _ | EvUpdateReturn _ _ _
  | EvRelease _ => true
  | _ => false
  end.

(** The print of line 82. *)
Definition is_error (ev : Event) : bool :=
  match ev with EvError _ _ => true | _ => false end.

(** A trace of the rounds only: nothing of the [finally] block and no
    exception caught. *)
Definition in_rounds (h : list Event) : Prop :=
  Forall (λ ev, is_cleanup ev = false ∧ is_error ev = false) h.

(** The trace when the loop has been left: either the rounds only, or the
    rounds and, last, the print of the exception that ended them. *)
Definition rounds_left (i : nat) (h : list Event) : Prop :=
  in_rounds h ∨ ∃ h0 e, h = h0 ++ [EvError i e] ∧ in_rounds h0.

(** The [finally] block from its first line on: the memories are read, the
    lock is taken, [update_record] is called, returns, the lock is given
    back. *)
Definition cleanup (i : nat) (contexts : list Memory) (raised : option exn)
  : list Event :=
  [EvGetMemories i None; EvAcquire i; EvUpdateCall i;
   EvUpdateReturn i contexts raised; EvRelease i].

(** The trace of a simulation whose agents were generated, by control
    point. *)
Definition cleanup_inv (i : nat) (h : list Event) (t : Thread) : Prop :=
  is_Some (generate_agents_ok i) →
  match at_pc t with
  | PStart => h = []
  | PRound _ | PProgress _ _ | PPostprocess _ _ | PExcept _ => in_rounds h
  | PFinally _ => rounds_left i h
  | PAcquire _ contexts =>
      agent_contexts (thread_agents t) = inr contexts
      ∧ ∃ h0, rounds_left i h0 ∧ h = h0 ++ take 1 (cleanup i contexts None)
  | PUpdateCall _ contexts =>
      agent_contexts (thread_agents t) = inr contexts
      ∧ ∃ h0, rounds_left i h0 ∧ h = h0 ++ take 2 (cleanup i contexts None)
  | PUpdateReturn _ contexts _ =>
      agent_contexts (thread_agents t) = inr contexts
      ∧ ∃ h0, rounds_left i h0 ∧ h = h0 ++ take 3 (cleanup i contexts None)
  | PRelease _ =>
      ∃ contexts raised h0,
        agent_contexts (thread_agents t) = inr contexts
        ∧ rounds_left i h0 ∧ h = h0 ++ take 4 (cleanup i contexts raised)
  | PDone _ =>
      ∃ h0, rounds_left i h0
        ∧ ((∃ e, agent_contexts (thread_agents t) = inl e
                 ∧ h = h0 ++ [EvGetMemories i (Some e)])
           ∨ (∃ contexts raised,
                agent_contexts (thread_agents t) = inr contexts
                ∧ h = h0 ++ cleanup i contexts raised))
  end.

(** What a round does, in order: its executor is built and its tasks run,
    the progress counter is incremented, [round_postprocess] is called. *)
Inductive phase := Started | Counted | Postprocessed.

(** The round and the phase an event marks, if it marks one. *)
Definition round_tag (ev : Event) : option (nat * phase) :=
  match ev with
  | EvRound _ round _ => Some (round, Started)
  | EvProgress _ round => Some (round, Counted)
  | EvRoundPostprocess _ round _ _ => Some (round, Postprocessed)
  | _ => None
  end.

(** The rounds and phases of a trace, in order. *)
Definition round_tags (h : list Event) : list (nat * phase) :=
  omap round_tag h.

(** The rounds [0] to [n-1], each carried through before the next. *)
Fixpoint full_rounds (n : nat) : list (nat * phase) :=
  match n with
  | 0 => []
  | S n' => full_rounds n' ++ [(n', Started); (n', Counted); (n', Postprocessed)]
  end.

(** The rounds and phases of the trace of a simulation, by control
    point. *)
Definition sequential_inv (h : list Event) (t : Thread) : Prop :=
  match at_pc t with
  | PStart => round_tags h = []
  | PRound round =>
      round ≤ rounds args ∧ round_tags h = full_rounds round
  | PProgress round _ =>
      round < rounds args ∧ round_tags h = full_rounds round ++ [(round, Started)]
  | PPostprocess round _ =>
      round < rounds args
      ∧ round_tags h = full_rounds round ++ [(round, Started); (round, Counted)]
  | _ => round_tags h `prefix_of` full_rounds (rounds args)
  end.

(** A call of [round_postprocess] that raised. *)
Definition raised_postprocess (ev : Event) : bool :=
  match ev with
  | EvRoundPostprocess _ _ _ (Some _) => true
  | _ => false
  end.

(** No call of [round_postprocess] has raised. *)
Definition no_raise (h : list Event) : Prop :=
  Forall (λ ev, raised_postprocess ev = false) h.

(** [round_postprocess] raised in round [round], right after the increment
    of the counter, the [round]+1-th of the simulation, and no round was
    touched since. *)
Definition abandoned_at (i round : nat) (results : list (Z * Result)) (e : exn)
    (h0 h2 : list Event) (h : list Event) : Prop :=
  h = h0 ++ [EvProgress i round; EvRoundPostprocess i round results (Some e)] ++ h2
  ∧ no_raise h0 ∧ count is_progress h0 = round ∧ round_tags h2 = [].

(** The increments of the counter in the trace of a simulation, by control
    point. *)
Definition counted_inv (i : nat) (h : list Event) (t : Thread) : Prop :=
  match at_pc t with
  | PStart => h = []
  | PRound round | PProgress round _ =>
      no_raise h ∧ count is_progress h = round
  | PPostprocess round _ =>
      ∃ h0, h = h0 ++ [EvProgress i round]
            ∧ no_raise h0 ∧ count is_progress h0 = round
  | _ => no_raise h
         ∨ ∃ round results e h0 h2, abandoned_at i round results e h0 h2 h
  end.

(** ** The end of [run] *)

(** The call of [exp_postprocess] of line 55. *)
Definition is_exp_postprocess (ev : Event) : bool :=
  match ev with EvExpPostprocess _ _ => true | _ => false end.

(** [exp_postprocess] is not called before the last step of [run], and is
    called then, with the record as the calls of [update_record] left it.
    When the executor could not be built nothing else has happened. *)
Definition final_inv (st : State) : Prop :=
  match main st with
  | MStart | MCollect _ | MExcept _ => count is_exp_postprocess (log st) = 0
  | MFinally =>
      count is_exp_postprocess (log st) = 0
      ∧ (n_exp args = 0 → log st = [EvFault ValueError_max_workers])
  | MDone outcome =>
      ∃ l, log st = l ++ [EvExpPostprocess (replay l) outcome]
           ∧ count is_exp_postprocess l = 0
           ∧ (n_exp args = 0 → l = [EvFault ValueError_max_workers])
  end.

(** The return of the call of [update_record] of line 86. *)
Definition is_update (ev : Event) : bool :=
  match ev with EvUpdateReturn _ _ _ => true | _ => false end.

(** A simulation folds its memories in at most once; once, when its agents
    are generated and their memories can be read. *)
Definition update_count_inv (i : nat) (h : list Event) (t : Thread) : Prop :=
  match at_pc t with
  | PRelease _ => count is_update h = 1
  | PDone _ =>
      count is_update h ≤ 1
      ∧ (is_Some (generate_agents_ok i) → memories_total →
         count is_update h = 1)
  | _ => count is_update h = 0
  end.

(** ** A run in which nothing fails *)

(** Nothing fails, with [A] agents per simulation: every collaborator
    returns, [generate_agents] returns [A] agents and [round_postprocess]
    keeps their number, and the executor of every round can be built (with
    no agent [ThreadPoolExecutor(0)] raises in round 0). *)
Record no_failures (A : nat) : Prop := {
  nf_agents : ∀ i, i < n_exp args →
    ∃ ags, generate_agents i = inr ags ∧ length ags = A;
  nf_question : ∀ a r, ∃ a' q, generate_question a r = (a', inr q);
  nf_answer : ∀ a q i r s, ∃ a' x, answer a q i r s = (a', inr x);
  nf_postprocess : ∀ s r results ags,
    ∃ ags', round_postprocess s r results ags = (ags', None)
            ∧ length ags' = length ags;
  nf_memories : memories_total;
  nf_update : ∀ r contexts s, (update_record r contexts s).2 = None;
  nf_executor : ∀ (ags : list Agent) round,
    length ags = A → round < rounds args → n_thread ags round ≠ 0
}.

(** Every call of [round_postprocess] in the trace received [A] results. *)
Definition results_full (A : nat) (h : list Event) : Prop :=
  ∀ s r results o, EvRoundPostprocess s r results o ∈ h → length results = A.

(** The trace and the thread of a simulation in a run where nothing
    fails, by control point. *)
Definition complete_inv (A : nat) (i : nat) (h : list Event) (t : Thread)
  : Prop :=
  i < n_exp args →
  results_full A h
  ∧ match at_pc t with
    | PStart => h = []
    | PRound round =>
        round ≤ rounds args ∧ length (thread_agents t) = A
        ∧ count is_progress h = round
    | PProgress round results =>
        round < rounds args ∧ length (thread_agents t) = A
        ∧ length results = A ∧ count is_progress h = round
    | PPostprocess round results =>
        round < rounds args ∧ length (thread_agents t) = A
        ∧ length results = A ∧ count is_progress h = S round
    | PExcept _ => False
    | PFinally pending | PAcquire pending _ | PUpdateCall pending _
    | PUpdateReturn pending _ _ =>
        pending = None ∧ count is_progress h = rounds args
    | PRelease outcome | PDone outcome =>
        outcome = None ∧ count is_progress h = rounds args
    end.

(** ** The counter and its total *)


(** ** The discipline of the lock along a trace *)

(** The lock is taken only when it is free; [update_record] is called and
    returns, and the lock is given back, only for the simulation that holds
    it.  [holder] is the simulation that holds the lock, if one does;
    [None] as a result: the event breaks the discipline. *)
Definition lock_step (holder : option nat) (ev : Event) : option (option nat) :=
  match ev with
  | EvAcquire i =>
      match holder with None => Some (Some i) | Some _ => None end
  | EvUpdateCall i | EvUpdateReturn i _ _ =>
      if decide (holder = Some i) then Some holder else None
  | EvRelease i =>
      if decide (holder = Some i) then Some None else None
  | _ => Some holder
  end.

(** The holder of the lock after a trace that keeps the discipline. *)
Fixpoint lock_run (holder : option nat) (l : list Event)
  : option (option nat) :=
  match l with
  | [] => Some holder
  | ev :: l' =>
      match lock_step holder ev with
      | Some holder' => lock_run holder' l'
      | None => None
      end
  end.

(** ** Where the exception of a future comes from *)

(** The calls of [run_once] that are not inside its [try]: an exception one
    of them raised is in the trace of simulation [i]. *)
Definition raised_outside_try (i : nat) (e : exn) (h : list Event) : Prop :=
  EvGenerateAgents i (Some e) ∈ h
  ∨ EvGetMemories i (Some e) ∈ h
  ∨ ∃ contexts, EvUpdateReturn i contexts (Some e) ∈ h.

(** An exception that is pending while the [finally] block runs is no
    [Exception]; the one a task ends with was raised outside the [try], or
    is no [Exception]. *)
Definition origin_inv (i : nat) (h : list Event) (t : Thread) : Prop :=
  match at_pc t with
  | PFinally pending | PAcquire pending _ | PUpdateCall pending _
  | PUpdateReturn pending _ _ =>
      ∀ e, pending = Some e → is_Exception e = false
  | PRelease outcome | PDone outcome =>
      ∀ e, outcome = Some e → raised_outside_try i e h ∨ is_Exception e = false
  | _ => True
  end.

(** ** The first call of a simulation *)

Definition is_generate_agents (ev : Event) : bool :=
  match ev with EvGenerateAgents _ _ => true | _ => false end.

(** The trace of a simulation that has started begins with its call of
    [generate_agents], and holds no other. *)
Definition generated (i : nat) (h : list Event) : Prop :=
  ∃ h', h = EvGenerateAgents i
              (match generate_agents i with inl e => Some e | inr _ => None end)
            :: h'
        ∧ count is_generate_agents h' = 0.

Definition generated_inv (i : nat) (h : list Event) (t : Thread) : Prop :=
  match at_pc t with
  | PStart => h = []
  | _ => generated i h
  end.

(** ** A simulation with no agent, a run with no round *)

(** What a simulation whose list of agents is empty leaves in its trace
    before the [finally] block: the executor of round 0 is built with no
    worker, which raises, and the exception is printed. *)
Definition no_agents_rounds (i : nat) : list Event :=
  [EvGenerateAgents i None; EvRound i 0 0; EvError i ValueError_max_workers].

(** The trace of a simulation for which [generate_agents] returns the empty
    list, when there is a round to run, by control point. *)
Definition no_agents_inv (i : nat) (h : list Event) (t : Thread) : Prop :=
  generate_agents i = inr [] → 0 < rounds args →
  match at_pc t with
  | PStart => h = []
  | PRound round =>
      round = 0 ∧ thread_agents t = [] ∧ h = take 1 (no_agents_rounds i)
  | PProgress _ _ | PPostprocess _ _ => False
  | PExcept e =>
      e = ValueError_max_workers ∧ thread_agents t = []
      ∧ h = take 2 (no_agents_rounds i)
  | PFinally _ => thread_agents t = [] ∧ h = no_agents_rounds i
  | PAcquire _ contexts =>
      contexts = [] ∧ h = no_agents_rounds i ++ take 1 (cleanup i [] None)
  | PUpdateCall _ contexts =>
      contexts = [] ∧ h = no_agents_rounds i ++ take 2 (cleanup i [] None)
  | PUpdateReturn _ contexts _ =>
      contexts = [] ∧ h = no_agents_rounds i ++ take 3 (cleanup i [] None)
  | PRelease _ =>
      ∃ raised, h = no_agents_rounds i ++ take 4 (cleanup i [] raised)
  | PDone _ => ∃ raised, h = no_agents_rounds i ++ cleanup i [] raised
  end.

(** What a simulation leaves in its trace when there is no round to run and
    its agents are [ags]: the call of [generate_agents], then the [finally]
    block, broken off when [get_memories] raises. *)
Definition no_rounds_trace (i : nat) (ags : list Agent) (h : list Event)
  : Prop :=
  (∃ e, agent_contexts ags = inl e
        ∧ h = [EvGenerateAgents i None; EvGetMemories i (Some e)])
  ∨ (∃ contexts raised,
       agent_contexts ags = inr contexts
       ∧ h = EvGenerateAgents i None :: cleanup i contexts raised).

(** The trace of a simulation in a run of no round, by control point. *)
Definition no_rounds_inv (i : nat) (h : list Event) (t : Thread) : Prop :=
  rounds args = 0 → ∀ ags, generate_agents i = inr ags →
  match at_pc t with
  | PStart => h = []
  | PRound _ | PFinally _ =>
      thread_agents t = ags ∧ h = [EvGenerateAgents i None]
  | PProgress _ _ | PPostprocess _ _ | PExcept _ => False
  | PAcquire _ contexts =>
      agent_contexts ags = inr contexts
      ∧ h = EvGenerateAgents i None :: take 1 (cleanup i contexts None)
  | PUpdateCall _ contexts =>
      agent_contexts ags = inr contexts
      ∧ h = EvGenerateAgents i None :: take 2 (cleanup i contexts None)
  | PUpdateReturn _ contexts _ =>
      agent_contexts ags = inr contexts
      ∧ h = EvGenerateAgents i None :: take 3 (cleanup i contexts None)
  | PRelease _ =>
      ∃ contexts raised,
        agent_contexts ags = inr contexts
        ∧ h = EvGenerateAgents i None :: take 4 (cleanup i contexts raised)
  | PDone _ => no_rounds_trace i ags h
  end.

(** ** The progress bar is closed *)

Definition is_close (ev : Event) : bool :=
  match ev with EvClose => true | _ => false end.

(** The bar is not closed while [run] is collecting the futures; it is
    closed once, at the end of the trace, when the loop of line 48 is over,
    and never when the executor could not be built. *)
Definition close_inv (st : State) : Prop :=
  match main st with
  | MStart | MCollect _ | MExcept _ => count is_close (log st) = 0
  | MFinally =>
      if n_exp args =? 0 then count is_close (log st) = 0
      else ∃ l, log st = l ++ [EvClose] ∧ count is_close l = 0
  | MDone outcome =>
      if n_exp args =? 0 then count is_close (log st) = 0
      else ∃ l r, log st = l ++ [EvClose; EvExpPostprocess r outcome]
                  ∧ count is_close l = 0
  end.

(** ** What [save_record] leaves behind *)

(** The exception an operation raised, if it raised one. *)
Definition io_raised (ev : IOEvent) : option exn :=
  match ev with
  | IoMakedirs _ raised | IoOpen _ raised | IoDump _ _ raised
  | IoPlot _ _ raised | IoHtml _ _ raised => raised
  | IoExists _ _ | IoPrint _ => None
  end.

(** The two lines the handler prints, lines 99 and 100. *)
Definition fallback_notice (e : exn) : list IOEvent :=
  [IoPrint (String.append "An exception occurred while saving the file: "
              (message e));
   IoPrint "Saving to the current directory instead."].

(** The record is pickled into the file at [path], and nothing raises. *)
Definition saved_to (r : Rec) (path : string) : list IOEvent :=
  [IoOpen path None; IoDump path r None].

(** The operations of a [try] block in which nothing raises. *)
Definition saved_and_rendered (r : Rec) (output_dir : string) (found : bool)
  : list IOEvent :=
  IoExists output_dir found
  :: (if found then [] else [IoMakedirs output_dir None])
  ++ saved_to r (data_file output_dir)
  ++ [IoPlot (data_file output_dir) output_dir None;
      IoHtml (data_file output_dir) output_dir None].

(** The output directory is there: it was found, or it has been created. *)
Definition dir_ready (output_dir : string) (found : bool) : list IOEvent :=
  IoExists output_dir found
  :: (if found then [] else [IoMakedirs output_dir None]).

(** The ways the [try] block of [save_record] goes: an operation runs when
    those before it have returned, and the block ends with the first that
    raises. *)
Inductive save_to_run (r : Rec) (output_dir : string) (found : bool)
  : list IOEvent → exn + unit → Prop :=
| str_makedirs e :
    found = false →
    save_to_run r output_dir found
      [IoExists output_dir false; IoMakedirs output_dir (Some e)] (inl e)
| str_open e :
    save_to_run r output_dir found
      (dir_ready output_dir found
       ++ [IoOpen (data_file output_dir) (Some e)]) (inl e)
| str_dump e :
    save_to_run r output_dir found
      (dir_ready output_dir found
       ++ [IoOpen (data_file output_dir) None;
           IoDump (data_file output_dir) r (Some e)]) (inl e)
| str_plot e :
    save_to_run r output_dir found
      (dir_ready output_dir found ++ saved_to r (data_file output_dir)
       ++ [IoPlot (data_file output_dir) output_dir (Some e)]) (inl e)
| str_html e :
    save_to_run r output_dir found
      (dir_ready output_dir found ++ saved_to r (data_file output_dir)
       ++ [IoPlot (data_file output_dir) output_dir None;
           IoHtml (data_file output_dir) output_dir (Some e)]) (inl e)
| str_ok :
    save_to_run r output_dir found
      (saved_and_rendered r output_dir found) (inr ()).

(** The ways [pickle.dump(record, open(path, "wb"))] goes. *)
Inductive dump_to_run (r : Rec) (path : string)
  : list IOEvent → exn + unit → Prop :=
| dtr_open e : dump_to_run r path [IoOpen path (Some e)] (inl e)
| dtr_dump e :
    dump_to_run r path [IoOpen path None; IoDump path r (Some e)] (inl e)
| dtr_ok : dump_to_run r path (saved_to r path) (inr ()).

(** The ways [save_record] goes: the [try] block returns; or it raises what
    is no [Exception], which goes through; or it raises an [Exception], and
    the handler prints its notice and writes the backup. *)
Inductive save_record_run (r : Rec) (output_dir : string) (found : bool)
  : list IOEvent → exn + unit → Prop :=
| srr_ok evs :
    save_to_run r output_dir found evs (inr ()) →
    save_record_run r output_dir found evs (inr ())
| srr_through evs e :
    save_to_run r output_dir found evs (inl e) → is_Exception e = false →
    save_record_run r output_dir found evs (inl e)
| srr_backup evs e evs2 out :
    save_to_run r output_dir found evs (inl e) → is_Exception e = true →
    dump_to_run r backup_file evs2 out →
    save_record_run r output_dir found (evs ++ fallback_notice e ++ evs2) out.

(** ** A simulation in which nothing fails, among others *)



(** * Facts *)

(** ** Sorting *)

Lemma insert_by_Permutation {A} (key : A → Z) x l :
  insert_by key x l ≡ₚ x :: l.
Proof.
  induction l as [|y l IH]; simpl; [done|].
  destruct (key x <=? key y)%Z; [done|].
  rewrite IH. apply Permutation_swap.
Qed.

Lemma sorted_Permutation {A} (key : A → Z) l : sorted key l ≡ₚ l.
Proof.
  induction l as [|x l IH]; simpl; [done|].
  rewrite insert_by_Permutation. by f_equiv.
Qed.

Lemma sorted_length {A} (key : A → Z) (l : list A) :
  length (sorted key l) = length l.
Proof. by rewrite sorted_Permutation. Qed.

Lemma insert_by_sorted {A} (key : A → Z) x l :
  StronglySorted (key_le key) l → StronglySorted (key_le key) (insert_by key x l).
Proof.
  induction 1 as [|y l Hl IH Hy]; simpl.
  - repeat constructor.
  - destruct (Z.leb_spec (key x) (key y)).
    + constructor; [by constructor|].
      constructor; [done|].
      eapply Forall_impl; [exact Hy|]. unfold key_le. intros; lia.
    + constructor; [done|].
      rewrite insert_by_Permutation. constructor; [|done].
      unfold key_le. lia.
Qed.

Lemma sorted_StronglySorted {A} (key : A → Z) (l : list A) :
  StronglySorted (key_le key) (sorted key l).
Proof.
  induction l; simpl; [constructor|]. by apply insert_by_sorted.
Qed.

(** With pairwise different keys the order is strict. *)
Lemma StronglySorted_le_lt {A} (key : A → Z) (l : list A) :
  NoDup (key <$> l) → StronglySorted (key_le key) l →
  StronglySorted (key_lt key) l.
Proof.
  induction 2 as [|x l Hl IH Hx]; [constructor|].
  apply NoDup_cons in H as [Hnin Hnd].
  constructor; [by apply IH|].
  apply Forall_forall. intros y Hy.
  rewrite Forall_forall in Hx. specialize (Hx y Hy).
  unfold key_le, key_lt in *.
  assert (key x ≠ key y); [|lia].
  intros Heq. apply Hnin. rewrite Heq. by apply list_elem_of_fmap_2.
Qed.

(** A list has one strictly sorted arrangement. *)
Lemma StronglySorted_lt_unique {A} (key : A → Z) (l1 l2 : list A) :
  StronglySorted (key_lt key) l1 → StronglySorted (key_lt key) l2 →
  l1 ≡ₚ l2 → l1 = l2.
Proof.
  intros H1. revert l2.
  induction H1 as [|x l1 Hl1 IH Hx]; intros l2 H2 Hp.
  - by apply Permutation_nil_l in Hp.
  - destruct H2 as [|y l2 Hl2 Hy].
    + by apply Permutation_nil_r in Hp.
    + assert (x = y) as ->.
      { assert (x ∈ y :: l2) as Hin1 by (rewrite <- Hp; left).
        assert (y ∈ x :: l1) as Hin2 by (rewrite Hp; left).
        apply elem_of_cons in Hin1 as [|Hin1]; [done|].
        apply elem_of_cons in Hin2 as [|Hin2]; [done|].
        rewrite Forall_forall in Hx, Hy.
        specialize (Hx _ Hin2). specialize (Hy _ Hin1).
        unfold key_lt in *. lia. }
      f_equal. apply IH; [done|]. by apply Permutation_cons_inv in Hp.
Qed.

Lemma sorted_order_irrelevant {A} (key : A → Z) (l1 l2 : list A) :
  NoDup (key <$> l1) → l1 ≡ₚ l2 → sorted key l1 = sorted key l2.
Proof.
  intros Hnd Hp.
  apply (StronglySorted_lt_unique key).
  - apply StronglySorted_le_lt; [|apply sorted_StronglySorted].
    by rewrite sorted_Permutation.
  - apply StronglySorted_le_lt; [|apply sorted_StronglySorted].
    by rewrite sorted_Permutation, <- Hp.
  - by rewrite !sorted_Permutation.
Qed.

(** ** Completion order *)

Lemma yield_from_Permutation {A} n picks (l : list A) :
  length l = n → yield_from n picks l ≡ₚ l.
Proof.
  revert picks l. induction n as [|n IH]; intros picks l Hlen; simpl.
  - by destruct l.
  - assert (Nat.modulo (hd 0 picks) (length l) < length l) as Hlt
      by (apply Nat.mod_upper_bound; lia).
    destruct (lookup_lt_is_Some_2 _ _ Hlt) as [f Hf]. rewrite Hf.
    rewrite IH.
    + symmetry. by apply delete_Permutation.
    + rewrite length_delete by eauto. lia.
Qed.

Lemma as_completed_Permutation {A} picks (l : list A) :
  as_completed picks l ≡ₚ l.
Proof. by apply yield_from_Permutation. Qed.

(** And every order of completion is the choice of some [picks]. *)
Lemma as_completed_any_order {A} (l l' : list A) :
  l' ≡ₚ l → ∃ picks, as_completed picks l = l'.
Proof.
  revert l. induction l' as [|x l' IH]; intros l Hp.
  - apply Permutation_nil_l in Hp. subst l. by exists (@nil nat).
  - assert (x ∈ l) as Hin by (rewrite <- Hp; left).
    apply list_elem_of_lookup in Hin as [i Hi].
    pose proof (lookup_lt_Some _ _ _ Hi) as Hlt.
    pose proof (delete_Permutation _ _ _ Hi) as Hdel.
    destruct (IH (delete i l)) as [picks Hpicks].
    { apply (Permutation_cons_inv (a:=x)). by etrans. }
    exists (i :: picks). unfold as_completed in *.
    destruct (length l) as [|n] eqn:Hlen; [lia|]. simpl.
    rewrite Hlen, Nat.mod_small, Hi by lia. f_equal.
    rewrite <- Hpicks. f_equal. rewrite length_delete by eauto. lia.
Qed.

Lemma successes_Permutation (l1 l2 : list Future) :
  l1 ≡ₚ l2 → successes l1 ≡ₚ successes l2.
Proof. intros Hp. unfold successes. by rewrite Hp. Qed.

Lemma failures_Permutation (l1 l2 : list Future) :
  l1 ≡ₚ l2 → failures l1 ≡ₚ failures l2.
Proof. intros Hp. unfold failures. by rewrite Hp. Qed.

(** ** The collection loop *)

Lemma collect_spec sim round (completed : list Future) queue :
  collect sim round completed queue
  = (EvTaskError sim round <$> failures completed, queue ++ successes completed).
Proof.
  revert queue. induction completed as [|[e|[idx res]] rest IH]; intros queue; simpl.
  - by rewrite app_nil_r.
  - by rewrite IH.
  - rewrite IH. by rewrite <- app_assoc.
Qed.

Lemma successes_failures_length (fs : list Future) :
  length (successes fs) + length (failures fs) = length fs.
Proof.
  induction fs as [|[e|x] fs IH]; simpl; [done|..]; lia.
Qed.

(** ** The submission loop *)

Lemma submit_all_agents_length sim round i ags ags' fs err :
  submit_all sim round i ags = (ags', fs, err) → length ags' = length ags.
Proof.
  revert i ags' fs err. induction ags as [|a rest IH]; intros i ags' fs err; simpl.
  - by intros [= <- <- <-].
  - destruct (generate_question a round) as [a1 [e|q]].
    + by intros [= <- <- <-].
    + destruct (answer a1 q i round sim) as [a2 out].
      destruct (submit_all sim round (S i) rest) as [[rest' fs'] err'] eqn:Hrest.
      intros [= <- <- <-]. simpl. f_equal. by eapply IH.
Qed.

Lemma submit_all_futures_length sim round i ags ags' fs :
  submit_all sim round i ags = (ags', fs, None) → length fs = length ags.
Proof.
  revert i ags' fs. induction ags as [|a rest IH]; intros i ags' fs; simpl.
  - by intros [= <- <-].
  - destruct (generate_question a round) as [a1 [e|q]]; [done|].
    destruct (answer a1 q i round sim) as [a2 out].
    destruct (submit_all sim round (S i) rest) as [[rest' fs'] err'] eqn:Hrest.
    intros [= <- <- ->]. simpl. f_equal. by eapply IH.
Qed.

(** When no question fails every agent gets its task. *)
Lemma submit_all_no_error sim round i ags :
  (∀ a r, ∃ a' q, generate_question a r = (a', inr q)) →
  ∃ ags' fs, submit_all sim round i ags = (ags', fs, None).
Proof.
  intros Hq. revert i. induction ags as [|a rest IH]; intros i; simpl.
  - eauto.
  - destruct (Hq a round) as (a1 & q & ->).
    destruct (answer a1 q i round sim) as [a2 out].
    destruct (IH (S i)) as (rest' & fs & ->). eauto.
Qed.

(** Under it the results, in submission order, carry ascending indices from
    [i] on. *)
Lemma submit_all_indices sim round i ags ags' fs err :
  answer_returns_index →
  submit_all sim round i ags = (ags', fs, err) →
  ∀ k idx res, fs !! k = Some (inr (idx, res)) → idx = Z.of_nat (i + k).
Proof.
  intros Hc. revert i ags' fs err.
  induction ags as [|a rest IH]; intros i ags' fs err; simpl.
  - intros [= <- <- <-] k idx res Hk. done.
  - destruct (generate_question a round) as [a1 [e|q]].
    + intros [= <- <- <-] k idx res Hk. done.
    + destruct (answer a1 q i round sim) as [a2 out] eqn:Hans.
      destruct (submit_all sim round (S i) rest) as [[rest' fs'] err'] eqn:Hrest.
      intros [= <- <- <-] k idx res Hk.
      destruct k as [|k]; simpl in Hk.
      * injection Hk as ->. rewrite Nat.add_0_r. by eapply Hc.
      * rewrite (IH _ _ _ _ Hrest _ _ _ Hk). f_equal. lia.
Qed.

Lemma successes_indices_sorted (fs : list Future) i :
  (∀ k idx res, fs !! k = Some (inr (idx, res)) → idx = Z.of_nat (i + k)) →
  StronglySorted Z.lt (fst <$> successes fs)
  ∧ Forall (λ idx, Z.of_nat i ≤ idx)%Z (fst <$> successes fs).
Proof.
  revert i. induction fs as [|f fs IH]; intros i Hfs; simpl.
  - split; constructor.
  - destruct (IH (S i)) as [Hs Hb].
    { intros k idx res Hk. rewrite (Hfs (S k) idx res Hk). f_equal. lia. }
    destruct f as [e|[idx res]]; simpl.
    + split; [done|]. eapply Forall_impl; [exact Hb|]. simpl. lia.
    + pose proof (Hfs 0 idx res eq_refl) as ->. rewrite Nat.add_0_r.
      split.
      * constructor; [done|]. eapply Forall_impl; [exact Hb|]. simpl. lia.
      * constructor; [lia|]. eapply Forall_impl; [exact Hb|]. simpl. lia.
Qed.

Lemma StronglySorted_key_lt {A} (key : A → Z) (l : list A) :
  StronglySorted Z.lt (key <$> l) ↔ StronglySorted (key_lt key) l.
Proof.
  induction l as [|x l IH]; simpl.
  - split; constructor.
  - split; intros Hs; apply StronglySorted_inv in Hs as [Hl Hx];
      (constructor; [by apply IH|]).
    + rewrite Forall_fmap in Hx. exact Hx.
    + rewrite Forall_fmap. exact Hx.
Qed.

(** Sorting leaves a list with strictly ascending keys as it is, and brings
    every rearrangement of it back to it. *)
Lemma sorted_of_Permutation {A} (key : A → Z) (l l' : list A) :
  StronglySorted Z.lt (key <$> l) → l' ≡ₚ l → sorted key l' = l.
Proof.
  intros Hs Hp. pose proof (proj1 (StronglySorted_key_lt key l) Hs) as Hs'.
  apply (StronglySorted_lt_unique key); [|done|by rewrite sorted_Permutation].
  apply StronglySorted_le_lt; [|apply sorted_StronglySorted].
  rewrite sorted_Permutation, Hp.
  clear -Hs. induction Hs as [|x l' Hl IH Hx]; constructor; [|done].
  intros Hin. rewrite Forall_forall in Hx. specialize (Hx _ Hin). lia.
Qed.

(** ** The round *)

(** What a round comes to when the tasks return their own indices: the
    results of the tasks that did not fail, in the order of the agents,
    whatever the order of completion. *)
Lemma run_round_spec sim round picks ags :
  answer_returns_index →
  run_round sim round picks ags =
    if n_thread ags round =? 0
    then (ags, [EvRound sim round (n_thread ags round)], inl ValueError_max_workers)
    else match submit_all sim round 0 ags with
         | (ags', fs, Some e) =>
             (ags', [EvRound sim round (n_thread ags round)], inl e)
         | (ags', fs, None) =>
             (ags', EvRound sim round (n_thread ags round)
                    :: (EvTaskError sim round <$> failures (as_completed picks fs)),
              inr (successes fs))
         end.
Proof.
  intros Hc. unfold run_round.
  destruct (n_thread ags round =? 0); [done|].
  destruct (submit_all sim round 0 ags) as [[ags' fs] [e|]] eqn:Hsub; [done|].
  rewrite collect_spec. simpl. do 2 f_equal.
  apply sorted_of_Permutation.
  - eapply successes_indices_sorted, submit_all_indices; eauto.
  - apply successes_Permutation, as_completed_Permutation.
Qed.

(** * The run as a whole *)

Lemma total_insert f (l : list Thread) i t t' :
  l !! i = Some t → total f (<[i:=t']> l) + f t = total f l + f t'.
Proof.
  revert i. induction l as [|x l IH]; intros [|i] Hi; simplify_eq/=.
  - lia.
  - specialize (IH _ Hi). lia.
Qed.

Lemma total_lookup_le f (l : list Thread) i t :
  l !! i = Some t → f t ≤ total f l.
Proof.
  revert i. induction l as [|x l IH]; intros [|i] Hi; simplify_eq/=.
  - lia.
  - specialize (IH _ Hi). lia.
Qed.

Lemma total_lookup2_le f (l : list Thread) i j a b :
  i ≠ j → l !! i = Some a → l !! j = Some b → f a + f b ≤ total f l.
Proof.
  revert i j.
  induction l as [|x l IH]; intros [|i] [|j] Hne Hi Hj; simplify_eq/=.
  - pose proof (total_lookup_le f l j b Hj). lia.
  - pose proof (total_lookup_le f l i a Hi). lia.
  - assert (i ≠ j) as Hne' by congruence.
    specialize (IH _ _ Hne' Hi Hj). lia.
Qed.

Lemma total_pos_lookup f (l : list Thread) :
  0 < total f l → ∃ i t, l !! i = Some t ∧ 0 < f t.
Proof.
  induction l as [|x l IH]; simpl; [lia|].
  intros Hpos. destruct (decide (0 < f x)).
  - exists 0, x. split; [done|lia].
  - destruct IH as (i & t & Hi & Ht); [lia|]. exists (S i), t. split; [done|lia].
Qed.

Lemma total_const f (l : list Thread) n :
  Forall (λ t, f t = n) l → total f l = length l * n.
Proof.
  induction 1 as [|x l Hx Hl IH]; simpl; [done|]. lia.
Qed.

(** ** Steps *)

Lemma step_inv c (st st' : State) :
  step c st = Some st' →
  (∃ k, main_step k st = Some st')
  ∨ (∃ i picks t t' sh' evs,
       threads st !! i = Some t
       ∧ thread_step picks (shared st) t = Some (t', sh', evs)
       ∧ st' = Build_State (main st) (<[i:=t']> (threads st)) sh'
                 (log st ++ evs)).
Proof.
  destruct c as [k|i picks]; simpl; [eauto|].
  destruct (threads st !! i) as [t|] eqn:Ht; [|done].
  destruct (thread_step picks (shared st) t) as [[[t' sh'] evs]|] eqn:Hs;
    [|done].
  intros [= <-]. right. by exists i, picks, t, t', sh', evs.
Qed.

Lemma run_round_events_of_round sim round picks (ags : list Agent) :
  Forall (of_round sim round) (run_round sim round picks ags).1.2.
Proof.
  unfold run_round. destruct (n_thread ags round =? 0); simpl.
  { by repeat constructor. }
  destruct (submit_all sim round 0 ags) as [[ags' fs] [e|]]; simpl.
  { by repeat constructor. }
  rewrite collect_spec. simpl. constructor; [done|].
  apply Forall_fmap, Forall_true. done.
Qed.

Lemma run_round_events sim round picks (ags : list Agent) :
  Forall (λ ev, ev_sim ev = Some sim) (run_round sim round picks ags).1.2.
Proof.
  eapply Forall_impl; [apply run_round_events_of_round|].
  intros [] ; simpl; try done; by intros [-> _].
Qed.

Lemma thread_step_sim picks sh (t t' : Thread) sh' evs :
  thread_step picks sh t = Some (t', sh', evs) →
  simulation_ind t' = simulation_ind t
  ∧ Forall (λ ev, ev_sim ev = Some (simulation_ind t)) evs.
Proof.
  unfold thread_step. destruct (at_pc t) eqn:Hpc;
    repeat case_match; intros; simplify_eq/=;
    try (split; [done|by repeat constructor]).
  all: split; [done|].
  all: match goal with
       | H : run_round ?s ?r ?p ?a = _ |- _ =>
           pose proof (run_round_events s r p a) as Hev; by rewrite H in Hev
       end.
Qed.

Lemma thread_step_not_done picks sh (t t' : Thread) sh' evs :
  thread_step picks sh t = Some (t', sh', evs) → ¬ is_done t.
Proof.
  unfold thread_step, is_done. destruct (at_pc t); try (by intros _ []). done.
Qed.

(** ** What every reachable state satisfies *)

Lemma submit_simulations_lookup i t :
  submit_simulations !! i = Some t →
  i < n_exp args ∧ t = Build_Thread i [] PStart.
Proof.
  unfold submit_simulations. rewrite list_lookup_fmap.
  destruct (seq 0 (n_exp args) !! i) as [j|] eqn:Hj; [|done].
  apply lookup_seq in Hj as [-> ?]. simpl. by intros [= <-].
Qed.

Lemma submit_simulations_length :
  length (submit_simulations) = n_exp args.
Proof. unfold submit_simulations. by rewrite length_fmap, length_seq. Qed.

Lemma reachable_wf st : reachable st → wf st.
Proof.
  induction 1 as [|st c st' Hreach [Hmain Hsim] Hstep].
  { split; [done|]. by intros i t. }
  apply step_inv in Hstep as [[k Hstep]|(i & picks & t & t' & sh' & evs & Ht & Hstep & ->)].
  - unfold main_step in Hstep. unfold wf, main_inv in *.
    destruct (main st) as [|pending|e| |o] eqn:Hm.
    + subst st. simpl in *.
      destruct (n_exp args =? 0) eqn:HN; simplify_eq/=.
      * apply Nat.eqb_eq in HN. done.
      * apply Nat.eqb_neq in HN. split.
        -- split; [lia|]. split; [apply submit_simulations_length|]. split.
           ++ apply Forall_forall. intros j Hj. apply elem_of_seq in Hj. lia.
           ++ intros j t Hj. apply submit_simulations_lookup in Hj as [Hj ->].
              left. apply elem_of_seq. lia.
        -- intros j t Hj. by apply submit_simulations_lookup in Hj as [_ ->].
    + destruct Hmain as (HN & Hlen & Hpend & Hdone).
      destruct pending as [|p pending]; simplify_eq/=.
      * split; [|done]. split; [done|].
        apply Forall_lookup. intros i t Hi.
        destruct (Hdone i t Hi) as [Hin|]; [|done]. by apply elem_of_nil in Hin.
      * destruct ((p :: pending) !! k) as [i|] eqn:Hk; [|done].
        destruct (threads st !! i) as [t|] eqn:Hi; [|done]. simpl in Hstep.
        destruct (at_pc t) eqn:Hpc; simplify_eq/=.
        split; [|done]. split; [done|]. split; [done|]. split.
        -- by apply Forall_delete.
        -- intros j tj Hj. destruct (decide (j = i)) as [->|Hne].
           ++ right. unfold is_done. simplify_eq. by rewrite Hpc.
           ++ destruct (Hdone j tj Hj) as [Hin|]; [|by right]. left.
              apply list_elem_of_lookup in Hin as [k' Hk'].
              destruct (decide (k' = k)) as [->|Hkk]; [congruence|].
              apply list_elem_of_lookup.
              destruct (decide (k' < k)).
              ** exists k'. by rewrite list_lookup_delete_lt by lia.
              ** exists (pred k'). rewrite list_lookup_delete_ge by lia.
                 replace (S (pred k')) with k' by lia. done.
    + destruct Hmain as (HN & Hthr & -> & Hsh & Hlog). simplify_eq/=.
      split; [|done]. rewrite Hthr. split; [by rewrite HN|constructor].
    + destruct (exp_postprocess (record (shared st))) as [record' raised].
      simplify_eq/=. done.
    + done.
  - pose proof (thread_step_sim _ _ _ _ _ _ Hstep) as [Hsim' _].
    pose proof (thread_step_not_done _ _ _ _ _ _ Hstep) as Hnd.
    split.
    + unfold main_inv in *. simpl. destruct (main st) as [|pending|e| |o] eqn:Hm.
      * subst st. done.
      * destruct Hmain as (HN & Hlen & Hpend & Hdone).
        split; [done|]. split; [by rewrite length_insert|]. split; [done|].
        intros j tj Hj. destruct (decide (j = i)) as [->|Hne].
        -- destruct (Hdone i t Ht); [by left|done].
        -- rewrite list_lookup_insert_ne in Hj by done. eauto.
      * destruct Hmain as (_ & Hthr & _). by rewrite Hthr in Ht.
      * destruct Hmain as [_ Hall]. rewrite Forall_lookup in Hall.
        by specialize (Hall i t Ht).
      * destruct Hmain as [_ Hall]. rewrite Forall_lookup in Hall.
        by specialize (Hall i t Ht).
    + simpl. intros j tj Hj. destruct (decide (j = i)) as [->|Hne].
      * rewrite list_lookup_insert_eq in Hj by (by eapply lookup_lt_Some).
        simplify_eq. rewrite Hsim'. eauto.
      * rewrite list_lookup_insert_ne in Hj by done. eauto.
Qed.

Lemma thread_step_steps picks sh t t' sh' evs :
  thread_step picks sh t = Some (t', sh', evs) → thread_steps sh t t' sh' evs.
Proof.
  destruct t as [sim ags p]. unfold thread_step. simpl.
  destruct p.
  - destruct (generate_agents sim) eqn:Hg; intros [= <- <- <-]; by constructor.
  - destruct (round <? rounds args) eqn:Hr.
    + apply Nat.ltb_lt in Hr.
      destruct (run_round sim round picks ags) as [[ags' evs'] [e|results]] eqn:Hrr;
        intros [= <- <- <-]; by econstructor.
    + apply Nat.ltb_ge in Hr. intros [= <- <- <-]. by constructor.
  - intros [= <- <- <-]. constructor.
  - destruct (round_postprocess sim round results ags) as [ags' [e|]] eqn:Hp;
      intros [= <- <- <-]; by constructor.
  - intros [= <- <- <-]. constructor.
  - destruct (agent_contexts ags) eqn:Hc; intros [= <- <- <-]; by constructor.
  - destruct (lock sh) eqn:Hl; [done|]. intros [= <- <- <-]. by constructor.
  - intros [= <- <- <-]. constructor.
  - pose proof (ts_update_return sh sim ags pending contexts seen) as Hts.
    destruct (update_record seen contexts sim) as [record' raised].
    intros [= <- <- <-]. exact Hts.
  - intros [= <- <- <-]. constructor.
  - done.
Qed.

(** The steps of [run], one by one. *)
Lemma main_step_inv k st st' :
  main_step k st = Some st' →
  (main st = MStart ∧ n_exp args = 0
   ∧ st' = Build_State (MExcept ValueError_max_workers) (threads st)
             (shared st) (log st))
  ∨ (main st = MStart ∧ 0 < n_exp args
     ∧ st' = Build_State (MCollect (seq 0 (n_exp args))) submit_simulations
               (Build_Shared 0 (record (shared st)) (lock (shared st)))
               (log st))
  ∨ (main st = MCollect []
     ∧ st' = Build_State MFinally (threads st) (shared st) (log st ++ [EvClose]))
  ∨ (∃ pending i t outcome,
       main st = MCollect pending ∧ pending !! k = Some i
       ∧ threads st !! i = Some t ∧ at_pc t = PDone outcome
       ∧ st' = Build_State (MCollect (delete k pending)) (threads st) (shared st)
                 (log st ++ match outcome with
                            | Some e => [EvFutureError i e]
                            | None => []
                            end))
  ∨ (∃ e, main st = MExcept e
       ∧ st' = Build_State MFinally (threads st) (shared st)
                 (log st ++ [EvFault e]))
  ∨ (main st = MFinally
     ∧ st' = Build_State (MDone (exp_postprocess (record (shared st))).2)
               (threads st)
               (Build_Shared (progress (shared st))
                  (exp_postprocess (record (shared st))).1
                  (lock (shared st)))
               (log st ++ [EvExpPostprocess (record (shared st))
                             (exp_postprocess (record (shared st))).2])).
Proof.
  unfold main_step. destruct (main st) as [|pending|e| |o] eqn:Hm.
  - destruct (n_exp args =? 0) eqn:HN; intros [= <-].
    + apply Nat.eqb_eq in HN. by left.
    + apply Nat.eqb_neq in HN. right; left. split; [done|]. split; [lia|done].
  - destruct pending as [|p pending].
    + intros [= <-]. by do 2 right; left.
    + destruct ((p :: pending) !! k) as [i|] eqn:Hk; [|done].
      destruct (threads st !! i) as [t|] eqn:Hi; [|done]. simpl.
      destruct (at_pc t) eqn:Hpc; try done. intros [= <-].
      do 3 right; left. by exists (p :: pending), i, t, outcome.
  - intros [= <-]. do 4 right; left. by exists e.
  - destruct (exp_postprocess (record (shared st))) as [record' raised].
    intros [= <-]. by do 5 right.
  - done.
Qed.

(** What [run] does leaves the traces of the simulations as they are. *)
Lemma main_step_log k st st' :
  main_step k st = Some st' →
  ∃ evs, log st' = log st ++ evs ∧ Forall (λ ev, ev_sim ev = None) evs.
Proof.
  intros Hstep.
  apply main_step_inv in Hstep
    as [(_ & _ & ->)|[(_ & _ & ->)|[(_ & ->)|[(pending & i & t & o & _ & _ & _ & _ & ->)
       |[(e & _ & ->)|(_ & ->)]]]]]; simpl.
  - exists []. by rewrite app_nil_r.
  - exists []. by rewrite app_nil_r.
  - eexists. split; [done|]. by repeat constructor.
  - eexists. split; [done|]. destruct o; by repeat constructor.
  - eexists. split; [done|]. by repeat constructor.
  - eexists. split; [done|]. by repeat constructor.
Qed.

Lemma trace_of_app i l1 l2 :
  trace_of i (l1 ++ l2) = trace_of i l1 ++ trace_of i l2.
Proof. apply filter_app. Qed.

Lemma trace_of_own i evs :
  Forall (λ ev, ev_sim ev = Some i) evs → trace_of i evs = evs.
Proof.
  induction 1 as [|ev evs Hev _ IH]; [done|].
  unfold trace_of in *. rewrite filter_cons_True by done. by rewrite IH.
Qed.

Lemma trace_of_other i evs :
  Forall (λ ev, ev_sim ev ≠ Some i) evs → trace_of i evs = [].
Proof.
  induction 1 as [|ev evs Hev _ IH]; [done|].
  unfold trace_of in *. by rewrite filter_cons_False.
Qed.

(** ** A rule for what holds of the trace of every simulation *)

(** A property of a thread and of the trace of its simulation holds in every
    reachable state when it holds of a thread just submitted, with no trace,
    and every step of a thread keeps it. *)
Lemma thread_invariant (P : list Event → Thread → Prop) :
  (∀ i, P [] (Build_Thread i [] PStart)) →
  (∀ picks sh t t' sh' evs h,
     thread_step picks sh t = Some (t', sh', evs) → P h t → P (h ++ evs) t') →
  ∀ st, reachable st →
  ∀ i t, threads st !! i = Some t → P (trace_of i (log st)) t.
Proof.
  intros Hinit Hkeep st Hreach.
  induction Hreach as [|st c st' Hreach IH Hstep]; [done|].
  pose proof (reachable_wf _ Hreach) as [Hmain Hsim].
  apply step_inv in Hstep as [[k Hstep]|(j & picks & tj & tj' & sh' & evs & Htj & Hstep & ->)].
  - destruct (main_step_log _ _ _ Hstep) as (evs & Hlog & Hevs).
    intros i t Hi. rewrite Hlog, trace_of_app.
    rewrite (trace_of_other i evs), app_nil_r
      by (eapply Forall_impl; [exact Hevs|]; simpl; congruence).
    apply main_step_inv in Hstep
      as [(_ & _ & ->)|[(Hm & _ & ->)|[(_ & ->)|[(pending & i' & t' & o & _ & _ & _ & _ & ->)
         |[(e & _ & ->)|(_ & ->)]]]]]; simpl in *; eauto.
    unfold main_inv in Hmain. rewrite Hm in Hmain. subst st. simpl.
    apply submit_simulations_lookup in Hi as [_ ->]. apply Hinit.
  - simpl. intros i t Hi.
    pose proof (thread_step_sim _ _ _ _ _ _ Hstep) as [_ Hevs].
    rewrite (Hsim _ _ Htj) in Hevs.
    rewrite trace_of_app. destruct (decide (i = j)) as [->|Hne].
    + rewrite list_lookup_insert_eq in Hi by (by eapply lookup_lt_Some).
      simplify_eq. rewrite (trace_of_own j evs) by done. eauto.
    + rewrite list_lookup_insert_ne in Hi by done.
      rewrite (trace_of_other i evs), app_nil_r; [eauto|].
      eapply Forall_impl; [exact Hevs|]. simpl. congruence.
Qed.

(** The same rule for a property that mentions the index of the simulation. *)
Lemma thread_invariant_sim (P : nat → list Event → Thread → Prop) :
  (∀ i, P i [] (Build_Thread i [] PStart)) →
  (∀ picks sh t t' sh' evs h,
     thread_step picks sh t = Some (t', sh', evs) →
     P (simulation_ind t) h t → P (simulation_ind t) (h ++ evs) t') →
  ∀ st, reachable st →
  ∀ i t, threads st !! i = Some t → P i (trace_of i (log st)) t.
Proof.
  intros Hinit Hkeep st Hreach i t Ht.
  pose proof (reachable_wf _ Hreach) as [_ Hsim].
  rewrite <- (Hsim i t Ht) at 1.
  clear Hsim. revert st Hreach i t Ht.
  apply (thread_invariant (λ h t, P (simulation_ind t) h t)).
  - intros i. apply Hinit.
  - intros picks sh t t' sh' evs h Hstep HP.
    pose proof (thread_step_sim _ _ _ _ _ _ Hstep) as [-> _]. eauto.
Qed.

(** ** The lock, the record and the counter *)

Lemma lock_count_eq sim ags p :
  lock_count (Build_Thread sim ags p)
  = match p with
    | PUpdateCall _ _ | PUpdateReturn _ _ _ | PRelease _ => 1
    | _ => 0
    end.
Proof. by destruct p. Qed.

Lemma count_app p l1 l2 : count p (l1 ++ l2) = count p l1 + count p l2.
Proof. induction l1 as [|ev l1 IH]; simpl; [done|]. rewrite IH. lia. Qed.

Lemma count_none p l : Forall (λ ev, p ev = false) l → count p l = 0.
Proof. induction 1 as [|ev l Hev _ IH]; simpl; [done|]. by rewrite Hev, IH. Qed.

Lemma replay_app l1 l2 : replay (l1 ++ l2) = foldl replay_event (replay l1) l2.
Proof. unfold replay. by rewrite foldl_app. Qed.

Lemma replay_app_none l1 l2 :
  Forall (λ ev, writes_record ev = false) l2 → replay (l1 ++ l2) = replay l1.
Proof.
  rewrite replay_app. generalize (replay l1). intros r0 Hall. revert r0.
  induction Hall as [|ev l Hev _ IH]; intros r0; simpl; [done|].
  rewrite IH. by destruct ev.
Qed.

Lemma of_round_impl (P : Event → Prop) sim round evs :
  (∀ ev, of_round sim round ev → P ev) →
  Forall (of_round sim round) evs → Forall P evs.
Proof. intros HP Hevs. eapply Forall_impl; eauto. Qed.

Ltac round_events :=
  repeat match goal with
  | H : run_round ?s ?r ?p ?a = (_, ?evs, _) |- _ =>
      lazymatch goal with
      | _ : Forall (of_round s r) evs |- _ => fail
      | _ => let Hev := fresh "Hev" in
             pose proof (run_round_events_of_round s r p a) as Hev;
             rewrite H in Hev; simpl in Hev
      end
  end.

Lemma total_fresh f n k :
  (∀ i, f (Build_Thread i [] PStart) = 0) →
  total f ((λ sim, Build_Thread sim [] PStart) <$> seq k n) = 0.
Proof.
  intros Hf. revert k. induction n as [|n IH]; intros k; simpl; [done|].
  by rewrite Hf, IH.
Qed.

Lemma reachable_shared_inv st : reachable st → shared_inv st.
Proof.
  induction 1 as [|st c st' Hreach IH Hstep].
  { by repeat split. }
  pose proof (reachable_wf _ Hreach) as [Hmain Hsim].
  destruct IH as (Hlock & Hseen & Hrec & Hprog).
  apply step_inv in Hstep as [[k Hstep]|(i & picks & t & t' & sh' & evs & Ht & Hstep & ->)].
  - unfold main_inv in Hmain.
    apply main_step_inv in Hstep
      as [(Hm & _ & ->)|[(Hm & _ & ->)|[(Hm & ->)|[(pending & i' & t' & o & Hm & _ & _ & _ & ->)
         |[(e & Hm & ->)|(Hm & ->)]]]]]; rewrite Hm in Hmain;
      unfold shared_inv; simpl.
    + done.
    + subst st. simpl. repeat split.
      * by apply total_fresh.
      * intros i t p cx seen Hi. by apply submit_simulations_lookup in Hi as [_ ->].
    + rewrite replay_app_none, count_app by (by repeat constructor). simpl.
      repeat split; eauto. lia.
    + rewrite replay_app_none, count_app by (destruct o; by repeat constructor).
      rewrite (count_none _ (match o with Some _ => _ | None => _ end))
        by (destruct o; by repeat constructor).
      repeat split; eauto. lia.
    + rewrite replay_app_none, count_app by (by repeat constructor). simpl.
      repeat split; eauto. lia.
    + destruct Hmain as [_ Hall]. rewrite Forall_lookup in Hall.
      rewrite replay_app, count_app. simpl. rewrite <- Hrec.
      repeat split; [done| |lia].
      intros i t p cx seen Hi Hpc. specialize (Hall i t Hi).
      unfold is_done in Hall. by rewrite Hpc in Hall.
  - apply thread_step_steps in Hstep.
    pose proof (total_insert lock_count _ i t t' Ht) as Htot.
    assert (∀ j tj, j ≠ i → threads st !! j = Some tj →
              lock_count t + lock_count tj ≤ 1) as Hexcl.
    { intros j tj Hne Hj.
      pose proof (total_lookup2_le lock_count _ i j t tj
                    (not_eq_sym Hne) Ht Hj).
      destruct (lock (shared st)); lia. }
    assert (∀ j tj p cx seen, j ≠ i → <[i:=t']> (threads st) !! j = Some tj →
              at_pc tj = PUpdateReturn p cx seen →
              record (shared st) = seen ∧ lock_count t = 0) as Hother.
    { intros j tj p cx seen Hne Hj Hpc.
      rewrite list_lookup_insert_ne in Hj by done.
      split; [by eapply Hseen|]. specialize (Hexcl j tj Hne Hj).
      revert Hexcl. unfold lock_count at 2.
      rewrite decide_True by (unfold holds_lock; by rewrite Hpc). lia. }
    assert (∀ tj, <[i:=t']> (threads st) !! i = Some tj → tj = t') as Hown.
    { intros tj. rewrite list_lookup_insert_eq by (by eapply lookup_lt_Some).
      congruence. }
    unfold shared_inv. simpl. clear Hexcl.
    revert Hlock Hseen Hrec Hprog Htot Hother Hown Hstep.
    generalize (shared st). intros sh.
    intros Hlock Hseen Hrec Hprog Htot Hother Hown Hstep.
    destruct Hstep; round_events; unfold raise_in_try in *;
      try destruct (is_Exception e);
      repeat rewrite lock_count_eq in Htot;
      repeat rewrite lock_count_eq in Hother; simpl in *.
    all: rewrite ?count_app; simpl.
    all: try rewrite (count_none is_progress evs)
        by (eapply of_round_impl; [|eassumption]; by intros []).
    all: try rewrite replay_app_none
        by first [by repeat constructor
                 |eapply of_round_impl; [|eassumption]; by intros []].
    all: repeat split; [destruct (lock sh); simplify_eq/=; lia| |try done..].
    all: try (intros j tj p cx seen' Hj Hpc; destruct (decide (j = i)) as [->|Hne];
              [apply Hown in Hj; subst tj; by simplify_eq/=
              |by destruct (Hother j tj p cx seen' Hne Hj Hpc)]).
    all: try lia.
    rewrite replay_app. simpl. rewrite <- Hrec.
    by rewrite (Hseen i _ pending contexts seen Ht eq_refl).
Qed.

(** ** Every run comes to an end *)

Lemma thread_steps_weight sh t t' sh' evs :
  thread_steps sh t t' sh' evs → thread_weight t' < thread_weight t.
Proof.
  destruct 1; unfold thread_weight, raise_in_try; simpl;
    try destruct (is_Exception e); simpl; lia.
Qed.

Lemma total_submit_weight :
  total thread_weight submit_simulations = n_exp args * (3 * rounds args + 7).
Proof.
  rewrite (total_const _ _ (3 * rounds args + 7)).
  - by rewrite submit_simulations_length.
  - apply Forall_forall. intros t Ht. apply list_elem_of_lookup in Ht as [i Hi].
    by apply submit_simulations_lookup in Hi as [_ ->].
Qed.

Lemma step_weight c st st' :
  reachable st → step c st = Some st' → weight st' < weight st.
Proof.
  intros Hreach Hstep. pose proof (reachable_wf _ Hreach) as [Hmain Hsim].
  unfold weight.
  apply step_inv in Hstep as [[k Hstep]|(i & picks & t & t' & sh' & evs & Ht & Hstep & ->)].
  - unfold main_inv in Hmain.
    apply main_step_inv in Hstep
      as [(Hm & _ & ->)|[(Hm & _ & ->)|[(Hm & ->)|[(pending & i' & t' & o & Hm & Hk & _ & _ & ->)
         |[(e & Hm & ->)|(Hm & ->)]]]]]; rewrite Hm in *; simpl.
    + subst st. simpl. lia.
    + subst st. rewrite total_submit_weight, length_seq. simpl. lia.
    + lia.
    + apply lookup_lt_Some in Hk. rewrite length_delete by eauto using lookup_lt_is_Some_2.
      lia.
    + lia.
    + lia.
  - apply thread_step_steps, thread_steps_weight in Hstep. simpl.
    pose proof (total_insert thread_weight _ i t t' Ht). lia.
Qed.

Lemma thread_step_enabled picks sh t :
  ¬ is_done t → lock sh = false ∨ holds_lock t →
  is_Some (thread_step picks sh t).
Proof.
  unfold is_done, holds_lock, thread_step. intros Hnd Hl.
  destruct (at_pc t); repeat case_match; try done; try by eexists.
  by destruct Hl.
Qed.

(** No deadlock: as long as [run] is not over some thread can move. *)
Lemma can_step st :
  reachable st → ¬ finished st → ∃ c st', step c st = Some st'.
Proof.
  intros Hreach Hnf. pose proof (reachable_wf _ Hreach) as [Hmain Hsim].
  pose proof (reachable_shared_inv _ Hreach) as (Hlock & _).
  unfold finished in Hnf. unfold main_inv in Hmain.
  destruct (main st) as [|pending|e| |o] eqn:Hm.
  - exists (CMain 0). simpl. unfold main_step. rewrite Hm.
    destruct (n_exp args =? 0); eauto.
  - destruct Hmain as (HN & Hlen & Hpend & Hdone).
    destruct (decide (Forall is_done (threads st))) as [Hall|Hex];
      [|apply not_Forall_Exists in Hex; [|apply _]].
    + exists (CMain 0). simpl. unfold main_step. rewrite Hm.
      destruct pending as [|p pending]; [eauto|]. simpl.
      apply Forall_cons in Hpend as [Hp _]. rewrite <- Hlen in Hp.
      destruct (lookup_lt_is_Some_2 _ _ Hp) as [t Ht]. rewrite Ht. simpl.
      rewrite Forall_lookup in Hall. specialize (Hall p t Ht).
      unfold is_done in Hall. destruct (at_pc t); try done. eauto.
    + apply Exists_exists in Hex as (t & Hin & Hnd).
      apply list_elem_of_lookup in Hin as [i Hi].
      destruct (lock (shared st)) eqn:Hl.
      * destruct (total_pos_lookup lock_count (threads st)) as (j & tj & Hj & Hc);
          [lia|].
        assert (holds_lock tj) as Hh.
        { unfold lock_count in Hc. destruct (decide (holds_lock tj)); [done|lia]. }
        destruct (thread_step_enabled [] (shared st) tj) as [[[t' sh'] evs] Hs].
        { unfold is_done, holds_lock in *. by destruct (at_pc tj). }
        { by right. }
        exists (CSim j []). simpl. rewrite Hj, Hs. eauto.
      * destruct (thread_step_enabled [] (shared st) t) as [[[t' sh'] evs] Hs];
          [done|by left|].
        exists (CSim i []). simpl. rewrite Hi, Hs. eauto.
  - exists (CMain 0). simpl. unfold main_step. rewrite Hm. eauto.
  - exists (CMain 0). simpl. unfold main_step. rewrite Hm.
    destruct (exp_postprocess (record (shared st))). eauto.
  - done.
Qed.

Lemma exec_app cs1 cs2 st st' :
  exec cs1 st = Some st' → exec (cs1 ++ cs2) st = exec cs2 st'.
Proof.
  revert st. induction cs1 as [|c cs1 IH]; intros st; simpl.
  - by intros [= ->].
  - destruct (step c st); [apply IH|done].
Qed.

Lemma exec_reachable cs st st' :
  reachable st → exec cs st = Some st' → reachable st'.
Proof.
  revert st. induction cs as [|c cs IH]; intros st Hreach; simpl.
  - by intros [= <-].
  - destruct (step c st) as [st1|] eqn:Hstep; [|done].
    apply IH. by eapply reachable_step.
Qed.

Lemma reachable_exec st : reachable st → ∃ cs, exec cs init = Some st.
Proof.
  induction 1 as [|st c st' _ [cs Hcs] Hstep].
  - by exists [].
  - exists (cs ++ [c]). rewrite (exec_app _ _ _ _ Hcs). simpl. by rewrite Hstep.
Qed.

(** From every reachable state the run can be brought to its end, and no
    schedule takes more steps than the weight of the state. *)
Lemma run_terminates st :
  reachable st → ∃ cs st', exec cs st = Some st' ∧ finished st'.
Proof.
  remember (weight st) as n eqn:Hn. revert st Hn.
  induction n as [n IH] using lt_wf_ind. intros st -> Hreach.
  destruct (main st) as [| | | |o] eqn:Hm.
  5: { exists [], st. split; [done|]. unfold finished. by rewrite Hm. }
  all: destruct (can_step st Hreach) as (c & st1 & Hstep);
    [unfold finished; rewrite Hm; tauto|].
  all: destruct (IH (weight st1) (step_weight _ _ _ Hreach Hstep) st1 eq_refl)
      as (cs & st' & Hcs & Hfin); [by eapply reachable_step|].
  all: exists (c :: cs), st'; simpl; by rewrite Hstep.
Qed.

Lemma exec_bounded cs st st' :
  reachable st → exec cs st = Some st' → length cs + weight st' ≤ weight st.
Proof.
  revert st. induction cs as [|c cs IH]; intros st Hreach; simpl.
  - intros [= <-]. lia.
  - destruct (step c st) as [st1|] eqn:Hstep; [|done]. intros Hcs.
    pose proof (step_weight _ _ _ Hreach Hstep).
    pose proof (IH st1 (reachable_step _ _ _ Hreach Hstep) Hcs). lia.
Qed.

(** So a run that cannot go on is over. *)
Lemma run_ends cs st st' :
  reachable st → exec cs st = Some st' →
  length cs ≤ weight st ∧ ((∀ c, step c st' = None) → finished st').
Proof.
  intros Hreach Hcs. split.
  - pose proof (exec_bounded _ _ _ Hreach Hcs). lia.
  - intros Hstuck.
    assert (finished st' ∨ ¬ finished st') as [|Hnf]; [|done|].
    { unfold finished. destruct (main st'); tauto. }
    destruct (can_step st' (exec_reachable _ _ _ Hreach Hcs) Hnf)
      as (c & st'' & Hstep).
    by rewrite Hstuck in Hstep.
Qed.

Lemma reachable_runs_to_end st : reachable st → runs_to_end st.
Proof.
  intros Hreach. split; [by apply run_terminates|].
  intros cs st' Hcs. by apply run_ends.
Qed.

(** Every event of a simulation comes from one of the threads. *)
Lemma event_thread st ev i :
  reachable st → ev ∈ log st → ev_sim ev = Some i →
  i < n_exp args ∧ is_Some (threads st !! i).
Proof.
  intros Hreach. revert ev i.
  induction Hreach as [|st c st' Hreach IH Hstep]; intros ev i Hin Hev.
  { by apply elem_of_nil in Hin. }
  pose proof (reachable_wf _ Hreach) as [Hmain Hsim].
  apply step_inv in Hstep as [[k Hstep]|(j & picks & tj & tj' & sh' & evs & Htj & Hstep & ->)].
  - destruct (main_step_log _ _ _ Hstep) as (evs & Hlog & Hevs).
    rewrite Hlog in Hin. apply elem_of_app in Hin as [Hin|Hin].
    2: { rewrite Forall_forall in Hevs. specialize (Hevs _ Hin). congruence. }
    unfold main_inv in Hmain.
    apply main_step_inv in Hstep
      as [(Hm & _ & ->)|[(Hm & _ & ->)|[(_ & ->)|[(pending & i' & t' & o & _ & _ & _ & _ & ->)
         |[(e & _ & ->)|(_ & ->)]]]]]; simpl in *; eauto.
    rewrite Hm in Hmain. subst st. by apply elem_of_nil in Hin.
  - simpl in *. apply elem_of_app in Hin as [Hin|Hin].
    + destruct (IH _ _ Hin Hev) as [Hlt Hsome]. split; [done|].
      apply lookup_lt_is_Some. rewrite length_insert.
      by apply lookup_lt_is_Some.
    + pose proof (thread_step_sim _ _ _ _ _ _ Hstep) as [_ Hevs].
      rewrite Forall_forall in Hevs. specialize (Hevs _ Hin).
      rewrite (Hsim _ _ Htj) in Hevs. assert (i = j) as -> by congruence.
      pose proof (lookup_lt_Some _ _ _ Htj) as Hlt.
      split.
      * unfold main_inv in Hmain. destruct (main st).
        -- subst st. simpl in *. lia.
        -- destruct Hmain as (_ & <- & _). done.
        -- destruct Hmain as (_ & Hthr & _). rewrite Hthr in Hlt. simpl in *. lia.
        -- destruct Hmain as (<- & _). done.
        -- destruct Hmain as (<- & _). done.
      * apply lookup_lt_is_Some. by rewrite length_insert.
Qed.

Lemma elem_of_trace_of i ev l :
  ev ∈ trace_of i l ↔ ev ∈ l ∧ ev_sim ev = Some i.
Proof. unfold trace_of. rewrite list_elem_of_filter. tauto. Qed.

(** ** Counting over the simulations *)

Lemma sum_upto_ext n f g :
  (∀ i, i < n → f i = g i) → sum_upto n f = sum_upto n g.
Proof.
  induction n as [|n IH]; intros Hfg; simpl; [done|].
  rewrite IH, Hfg by (intros; try apply Hfg; lia). done.
Qed.

Lemma sum_upto_add n f g :
  sum_upto n (λ i, f i + g i) = sum_upto n f + sum_upto n g.
Proof. induction n as [|n IH]; simpl; [done|]. rewrite IH. lia. Qed.

Lemma sum_upto_const n c : sum_upto n (λ _, c) = n * c.
Proof. induction n as [|n IH]; simpl; [done|]. rewrite IH. lia. Qed.

Lemma sum_upto_indicator n j c :
  sum_upto n (λ i, if decide (i = j) then c else 0)
  = if decide (j < n) then c else 0.
Proof.
  induction n as [|n IH]; simpl; [done|]. rewrite IH.
  repeat case_decide; lia.
Qed.

(** An event of a simulation counts in the trace of that simulation and in no
    other. *)
Lemma count_by_simulation p l n :
  (∀ ev i, ev ∈ l → ev_sim ev = Some i → i < n) →
  (∀ ev, p ev = true → is_Some (ev_sim ev)) →
  count p l = sum_upto n (λ i, count p (trace_of i l)).
Proof.
  intros Hbound Hp. induction l as [|ev l IH]; simpl.
  { by rewrite sum_upto_const. }
  rewrite IH by (intros ev' i Hin; apply Hbound; by right).
  set (b := if p ev then 1 else 0).
  rewrite (sum_upto_ext n (λ i, count p (trace_of i (ev :: l)))
             (λ i, (if decide (ev_sim ev = Some i) then b else 0)
                   + count p (trace_of i l))).
  2: { intros i _. unfold trace_of. case_decide.
       - by rewrite filter_cons_True.
       - by rewrite filter_cons_False. }
  rewrite sum_upto_add. f_equal. subst b.
  destruct (p ev) eqn:Hpev.
  - destruct (Hp ev Hpev) as [j Hj].
    assert (j < n) as Hlt by (apply (Hbound ev); [left|done]).
    rewrite (sum_upto_ext n _ (λ i, if decide (i = j) then 1 else 0)).
    + by rewrite sum_upto_indicator, decide_True.
    + intros i _. rewrite Hj. repeat case_decide; congruence.
  - rewrite (sum_upto_ext n _ (λ _, 0)).
    + by rewrite sum_upto_const, Nat.mul_0_r.
    + intros i _. by case_decide.
Qed.

Lemma reachable_count_by_simulation p st :
  reachable st →
  (∀ ev, p ev = true → is_Some (ev_sim ev)) →
  count p (log st)
  = sum_upto (n_exp args) (λ i, count p (trace_of i (log st))).
Proof.
  intros Hreach Hp. apply count_by_simulation; [|done].
  intros ev i Hin Hev. by destruct (event_thread st ev i Hreach Hin Hev).
Qed.

(** ** The failures [run] reports *)

Lemma reports_app i l1 l2 : reports i (l1 ++ l2) = reports i l1 ++ reports i l2.
Proof. apply omap_app. Qed.

Lemma reports_sim i j evs :
  Forall (λ ev, ev_sim ev = Some j) evs → reports i evs = [].
Proof.
  induction 1 as [|ev evs Hev _ IH]; [done|].
  destruct ev; try done; exact IH.
Qed.

Lemma reachable_report_inv st : reachable st → report_inv st.
Proof.
  induction 1 as [|st c st' Hreach IH Hstep]; [done|].
  pose proof (reachable_wf _ Hreach) as [Hmain Hsim].
  apply step_inv in Hstep as [[k Hstep]|(j & picks & tj & tj' & sh' & evs & Htj & Hstep & ->)].
  - unfold main_inv in Hmain. unfold report_inv in *.
    apply main_step_inv in Hstep
      as [(Hm & _ & ->)|[(Hm & _ & ->)|[(Hm & ->)|[(pending & i' & t' & o & Hm & Hk & Hi' & Hpc & ->)
         |[(e & Hm & ->)|(Hm & ->)]]]]]; rewrite Hm in *; simpl.
    + done.
    + subst st. simpl. split; [apply NoDup_seq|].
      intros i t Hi. apply submit_simulations_lookup in Hi as [Hi ->].
      rewrite decide_True; [done|]. apply elem_of_seq. lia.
    + destruct IH as [_ IH]. intros i t Hi.
      rewrite reports_app, (IH i t Hi). simpl. apply app_nil_r.
    + destruct IH as [Hnd IH].
      pose proof (delete_Permutation _ _ _ Hk) as Hperm.
      rewrite Hperm in Hnd. apply NoDup_cons in Hnd as [Hnin Hnd].
      split; [done|]. intros i t Hi. rewrite reports_app, (IH i t Hi).
      destruct (decide (i = i')) as [->|Hne].
      * simplify_eq. rewrite decide_True by (rewrite Hperm; left).
        rewrite decide_False by done. unfold raised_by. rewrite Hpc.
        destruct o; simpl; [|done]. by rewrite decide_True.
      * assert (reports i (match o with
                           | Some e => [EvFutureError i' e]
                           | None => []
                           end) = []) as ->.
        { destruct o; simpl; [|done]. by rewrite decide_False. }
        rewrite app_nil_r.
        destruct (decide (i ∈ pending)) as [Hin|Hin].
        -- rewrite decide_True; [done|]. rewrite Hperm in Hin.
           by apply elem_of_cons in Hin as [?|?].
        -- rewrite decide_False; [done|]. intros Hin'. apply Hin.
           rewrite Hperm. by right.
    + destruct Hmain as (_ & Hthr & _). rewrite Hthr. by intros i t.
    + intros i t Hi. rewrite reports_app, (IH i t Hi). simpl. by rewrite app_nil_r.
  - pose proof (thread_step_sim _ _ _ _ _ _ Hstep) as [_ Hevs].
    pose proof (thread_step_not_done _ _ _ _ _ _ Hstep) as Hnd.
    unfold main_inv in Hmain. unfold report_inv in *. simpl.
    destruct (main st) as [|pending|e| |o] eqn:Hm; [done| |done|..].
    + destruct Hmain as (_ & _ & _ & Hdone). destruct IH as [Hnodup IH].
      split; [done|]. intros i t Hi.
      rewrite reports_app, (reports_sim _ _ _ Hevs), app_nil_r.
      destruct (decide (i = j)) as [->|Hne].
      * rewrite (IH j tj Htj). destruct (Hdone j tj Htj); [|done].
        by rewrite !decide_True.
      * rewrite list_lookup_insert_ne in Hi by done. eauto.
    + destruct Hmain as [_ Hall]. rewrite Forall_lookup in Hall.
      by specialize (Hall j tj Htj).
    + destruct Hmain as [_ Hall]. rewrite Forall_lookup in Hall.
      by specialize (Hall j tj Htj).
Qed.

(** * The round coordinator *)

(** ** Ordering *)

Lemma run_round_round_result sim round picks ags ags' evs results :
  answer_returns_index →
  run_round sim round picks ags = (ags', evs, inr results) →
  round_result sim round results.
Proof.
  intros Hc Hrr. pose proof Hrr as Hrr'. rewrite (run_round_spec _ _ _ _ Hc) in Hrr.
  destruct (n_thread ags round =? 0) eqn:Hn; [done|].
  destruct (submit_all sim round 0 ags) as [[ags1 fs] [e|]] eqn:Hsub; [done|].
  simplify_eq. split.
  - eapply successes_indices_sorted, submit_all_indices; eauto.
  - exists ags. intros picks'. rewrite (run_round_spec _ _ _ _ Hc), Hn, Hsub. eauto.
Qed.

(** C1.  Provided a task returns the index of the agent it was submitted
    for: in every run, whatever the interleaving, the results every call of
    [round_postprocess] receives are strictly ascending in the agent index,
    and they are what the round comes to under every order in which its
    tasks may complete. *)
Theorem round_results_sorted st sim round results raised :
  answer_returns_index →
  reachable st →
  EvRoundPostprocess sim round results raised ∈ log st →
  StronglySorted Z.lt (fst <$> results)
  ∧ ∃ ags, ∀ picks, ∃ ags' evs,
      run_round sim round picks ags = (ags', evs, inr results).
Proof.
  intros Hc Hreach Hin.
  destruct (event_thread st _ sim Hreach Hin eq_refl) as [_ [t Ht]].
  assert (round_result_inv (trace_of sim (log st)) t) as [Hinv _].
  { clear Hin. revert st Hreach sim t Ht. apply thread_invariant.
    - intros i. split; [|done]. intros ???? H. by apply elem_of_nil in H.
    - intros picks sh t t' sh' evs h Hstep [Hh Hpc].
      apply thread_step_steps in Hstep.
      destruct Hstep; round_events; simpl in *;
        (split; [intros s' r' res' o' [Hin|Hin]%elem_of_app; [by eauto|]|]);
        unfold raise_in_try; try destruct (is_Exception e); simpl;
        try done;
        try (apply list_elem_of_singleton in Hin; by simplify_eq);
        try (by apply elem_of_nil in Hin);
        try (rewrite Forall_forall in Hev; by specialize (Hev _ Hin)).
      all: by eapply run_round_round_result. }
  eapply Hinv. apply elem_of_trace_of. done.
Qed.

(** ** Concurrency width *)

(** The width [run_round] logs is the one it computes. *)
Lemma run_round_width sim round picks (ags : list Agent) s r n :
  EvRound s r n ∈ (run_round sim round picks ags).1.2 →
  r = round ∧ n = n_thread ags round.
Proof.
  unfold run_round. destruct (n_thread ags round =? 0); simpl.
  { intros Hin. apply list_elem_of_singleton in Hin. by simplify_eq. }
  destruct (submit_all sim round 0 ags) as [[ags' fs] [e|]]; simpl.
  { intros Hin. apply list_elem_of_singleton in Hin. by simplify_eq. }
  rewrite collect_spec. simpl. intros [Heq|Hin]%elem_of_cons; [by simplify_eq|].
  apply list_elem_of_fmap in Hin as (e & Heq & _). done.
Qed.

Lemma reachable_width_inv st i t :
  reachable st → threads st !! i = Some t →
  width_inv (trace_of i (log st)) t.
Proof.
  intros Hreach Ht. revert st Hreach i t Ht.
  apply (thread_invariant width_inv).
  { intros i s r n Hin. by apply elem_of_nil in Hin. }
  intros picks sh t t' sh' evs h Hstep Hinv s r n [Hin|Hin]%elem_of_app;
    [by eauto|].
  apply thread_step_steps in Hstep.
  destruct Hstep;
    try (apply list_elem_of_singleton in Hin; by simplify_eq);
    try (by apply elem_of_nil in Hin).
  - pose proof (run_round_width sim round picks0 ags s r n) as Hw.
    rewrite H0 in Hw. destruct (Hw Hin) as [-> ->]. eauto.
  - pose proof (run_round_width sim round picks0 ags s r n) as Hw.
    rewrite H0 in Hw. destruct (Hw Hin) as [-> ->]. eauto.
Qed.

(** What the width means: never more tasks running than workers; with one
    worker the tasks run one at a time in the order of the agents; with a
    worker per task they may all run at once. *)
Lemma pool_width n k p : pool_reachable n k p → length (running p) ≤ n.
Proof.
  induction 1 as [|p p' _ IH Hstep]; simpl; [lia|].
  destruct Hstep; simpl in *; rewrite ?length_app in *; simpl in *; lia.
Qed.

Lemma pool_serial k p :
  pool_reachable 1 k p → completed p ++ running p ++ waiting p = seq 0 k.
Proof.
  induction 1 as [|p p' Hp IH Hstep]; [done|].
  pose proof (pool_width _ _ _ Hp) as Hw.
  destruct Hstep as [i q r c Hr|i q r1 r2 c]; simpl in *.
  - destruct r; simpl in *; [done|lia].
  - rewrite length_app in Hw. simpl in Hw.
    destruct r1, r2; simpl in *; try lia. by rewrite <- app_assoc.
Qed.

Lemma pool_all_at_once n k :
  k ≤ n → pool_reachable n k (Build_Pool [] (seq 0 k) []).
Proof.
  intros Hk.
  assert (∀ j, j ≤ k →
            pool_reachable n k (Build_Pool (seq j (k - j)) (seq 0 j) [])) as Hj.
  { induction j as [|j IH]; intros Hle.
    - rewrite Nat.sub_0_r. constructor.
    - assert (j ≤ k) as Hle' by lia. specialize (IH Hle').
      replace (k - j) with (S (k - S j)) in IH by lia.
      rewrite seq_S. eapply pool_next; [exact IH|].
      simpl. constructor. rewrite length_seq. lia. }
  specialize (Hj k (le_n k)). by rewrite Nat.sub_diag in Hj.
Qed.

Lemma round_pool (ags : list Agent) round :
  (4 ≤ round →
   ∀ p, pool_reachable (n_thread ags round) (length ags) p →
        length (running p) ≤ 1
        ∧ completed p ++ running p ++ waiting p = seq 0 (length ags))
  ∧ (round < 4 →
     pool_reachable (n_thread ags round) (length ags)
       (Build_Pool [] (seq 0 (length ags)) [])).
Proof.
  unfold n_thread. split.
  - intros Hge p. rewrite (proj2 (Nat.ltb_ge _ _) Hge). intros Hp.
    split; [by eapply pool_width|by apply pool_serial].
  - intros Hlt. rewrite (proj2 (Nat.ltb_lt _ _) Hlt). by apply pool_all_at_once.
Qed.

(** C2.  The pool of a round is built with as many workers as there are
    agents when the round index is below 4, and with exactly one worker from
    round 4 on; the number is the one [run_once] passes to the executor of
    the round, it depends on the agents and the round index only, and no
    argument of the experiment enters it.  So in every run every executor of
    a round from round 4 on has one worker. *)
Theorem n_thread_policy (ags : list Agent) (sim round : nat) (picks : list nat) :
  (round < 4 → n_thread ags round = length ags)
  ∧ (4 ≤ round → n_thread ags round = 1)
  ∧ (∃ evs, (run_round sim round picks ags).1.2
            = EvRound sim round (n_thread ags round) :: evs)
  ∧ (∀ st n, reachable st → EvRound sim round n ∈ log st →
       (∃ ags' : list Agent, n = n_thread ags' round)
       ∧ (4 ≤ round → n = 1)).
Proof.
  split; [|split; [|split]].
  - intros Hlt. unfold n_thread. by rewrite (proj2 (Nat.ltb_lt _ _) Hlt).
  - intros Hge. unfold n_thread. by rewrite (proj2 (Nat.ltb_ge _ _) Hge).
  - unfold run_round. destruct (n_thread ags round =? 0); simpl; [eauto|].
    destruct (submit_all sim round 0 ags) as [[ags' fs] [e|]]; simpl; [eauto|].
    rewrite collect_spec. simpl. eauto.
  - intros st n Hreach Hin.
    destruct (event_thread st _ sim Hreach Hin eq_refl) as [_ [t Ht]].
    destruct (reachable_width_inv st sim t Hreach Ht sim round n) as [ags' ->].
    { by apply elem_of_trace_of. }
    split; [eauto|]. intros Hge. unfold n_thread.
    by rewrite (proj2 (Nat.ltb_ge _ _) Hge).
Qed.

(** ** One failing task *)

Lemma failures_lookup (fs : list Future) e :
  e ∈ failures fs ↔ ∃ k, fs !! k = Some (inl e).
Proof.
  unfold failures. rewrite list_elem_of_omap. split.
  - intros ([e'|x] & Hin & Heq); simplify_eq.
    apply list_elem_of_lookup in Hin. done.
  - intros [k Hk]. exists (inl e). split; [|done].
    apply list_elem_of_lookup. eauto.
Qed.

Lemma successes_lookup (fs : list Future) x :
  x ∈ successes fs ↔ ∃ k, fs !! k = Some (inr x).
Proof.
  unfold successes. rewrite list_elem_of_omap. split.
  - intros ([e'|x'] & Hin & Heq); simplify_eq.
    apply list_elem_of_lookup in Hin. done.
  - intros [k Hk]. exists (inr x). split; [|done].
    apply list_elem_of_lookup. eauto.
Qed.

Lemma only_failure_failures fs j e :
  only_failure fs j e → failures fs = [e].
Proof.
  intros [Hj Honly]. revert j Hj Honly.
  induction fs as [|f fs IH]; intros j Hj Honly; [done|].
  destruct j as [|j]; simpl in Hj.
  - injection Hj as ->. simpl. f_equal.
    destruct (failures fs) as [|e' l] eqn:Hf; [done|].
    assert (e' ∈ failures fs) as Hin by (rewrite Hf; left).
    apply failures_lookup in Hin as [k Hk].
    by specialize (Honly (S k) e' Hk).
  - destruct f as [e'|x].
    + by specialize (Honly 0 e' eq_refl).
    + simpl. apply (IH j Hj). intros k e' Hk.
      specialize (Honly (S k) e' Hk). lia.
Qed.

(** C4.  When every task of a round was submitted and exactly one of them,
    that of agent [j], raised: the exception is printed, the round goes on
    to the progress counter and to [round_postprocess] with the results of
    all the other agents and nothing in the place of agent [j], so with one
    result less than there are agents; the step leaves what the simulations
    share as it was. *)
Theorem one_task_error sim round picks ags ags' fs j e sh :
  answer_returns_index →
  round < rounds args →
  submit_all sim round 0 ags = (ags', fs, None) →
  only_failure fs j e →
  ∃ results,
    (thread_step picks sh (Build_Thread sim ags (PRound round))
     = Some (Build_Thread sim ags' (PProgress round results), sh,
             [EvRound sim round (n_thread ags round); EvTaskError sim round e]))
    ∧ (length results = length ags - 1)
    ∧ (Z.of_nat j ∉ fst <$> results)
    ∧ (∀ k x, fs !! k = Some (inr x) → x ∈ results)
    ∧ (∀ k, k < length ags → k ≠ j → Z.of_nat k ∈ fst <$> results).
Proof.
  intros Hc Hr Hsub Hone. exists (successes fs).
  pose proof (submit_all_futures_length _ _ _ _ _ _ Hsub) as Hlen.
  pose proof (only_failure_failures _ _ _ Hone) as Hfail.
  destruct Hone as [Hj Honly].
  pose proof (lookup_lt_Some _ _ _ Hj) as Hjlt.
  split; [|split; [|split; [|split]]].
  - unfold thread_step. simpl. rewrite (proj2 (Nat.ltb_lt _ _) Hr).
    rewrite (run_round_spec _ _ _ _ Hc), Hsub.
    assert ((n_thread ags round =? 0) = false) as ->.
    { apply Nat.eqb_neq. unfold n_thread. destruct (round <? 4); lia. }
    assert (failures (as_completed picks fs) = [e]) as ->; [|done].
    apply Permutation_singleton_r. rewrite <- Hfail.
    apply failures_Permutation, as_completed_Permutation.
  - pose proof (successes_failures_length fs). rewrite Hfail in *. simpl in *. lia.
  - intros Hin. apply list_elem_of_fmap in Hin as ([idx x] & Heq & Hin).
    simpl in Heq. subst idx.
    apply successes_lookup in Hin as [k Hk].
    pose proof (submit_all_indices _ _ _ _ _ _ _ Hc Hsub _ _ _ Hk) as Hidx.
    assert (k = j) as -> by lia. congruence.
  - intros k x Hk. apply successes_lookup. eauto.
  - intros k Hk Hne. rewrite <- Hlen in Hk.
    destruct (lookup_lt_is_Some_2 _ _ Hk) as [[e'|[idx x]] Hf].
    + by specialize (Honly k e' Hf).
    + pose proof (submit_all_indices _ _ _ _ _ _ _ Hc Hsub _ _ _ Hf) as ->.
      simpl. apply list_elem_of_fmap. exists (Z.of_nat k, x). split; [done|].
      apply successes_lookup. eauto.
Qed.

(** * The simulation runner *)

(** ** When the agents cannot be generated *)

Lemma reachable_agents_raise_inv st i t :
  reachable st → threads st !! i = Some t →
  agents_raise_inv i (trace_of i (log st)) t.
Proof.
  intros Hreach Ht. revert st Hreach i t Ht.
  apply (thread_invariant_sim agents_raise_inv).
  - intros i e Hgen. by left.
  - intros picks sh t t' sh' evs h Hstep Hinv e Hgen.
    specialize (Hinv e Hgen). apply thread_step_steps in Hstep.
    destruct Hinv as [[Hpc ->]|[Hpc ->]]; destruct Hstep; simplify_eq/=;
      [right; split; congruence|congruence].
Qed.

(** C9.  When [generate_agents] raises for simulation [i]: the one step of
    its thread ends the task with that exception and leaves the counter, the
    record and the lock as they were; in every reachable state the trace of
    the simulation holds nothing but the failed call (no round, no
    [get_memories], no [update_record]); and once [run] is over, line 50 has
    printed that exception for it, once. *)
Theorem agents_raise st i e :
  generate_agents i = inl e → reachable st →
  (∀ picks sh ags,
     thread_step picks sh (Build_Thread i ags PStart)
     = Some (Build_Thread i [] (PDone (Some e)), sh,
             [EvGenerateAgents i (Some e)]))
  ∧ (∀ ev, ev ∈ log st → ev_sim ev = Some i → ev = EvGenerateAgents i (Some e))
  ∧ (∀ t, threads st !! i = Some t →
       at_pc t = PStart ∨ at_pc t = PDone (Some e))
  ∧ (finished st → i < n_exp args → reports i (log st) = [e]).
Proof.
  intros Hgen Hreach. split; [|split; [|split]].
  - intros picks sh ags. unfold thread_step. simpl. by rewrite Hgen.
  - intros ev Hin Hev.
    destruct (event_thread st ev i Hreach Hin Hev) as [_ [t Ht]].
    assert (ev ∈ trace_of i (log st)) as Hin' by (by apply elem_of_trace_of).
    destruct (reachable_agents_raise_inv st i t Hreach Ht e Hgen)
      as [[_ Hh]|[_ Hh]]; rewrite Hh in Hin'.
    + by apply elem_of_nil in Hin'.
    + by apply list_elem_of_singleton in Hin'.
  - intros t Ht.
    destruct (reachable_agents_raise_inv st i t Hreach Ht e Hgen)
      as [[Hpc _]|[Hpc _]]; eauto.
  - intros Hfin Hi.
    pose proof (reachable_wf _ Hreach) as [Hmain _].
    pose proof (reachable_report_inv _ Hreach) as Hrep.
    unfold finished in Hfin. unfold main_inv in Hmain. unfold report_inv in Hrep.
    destruct (main st); try done. destruct Hmain as [Hlen Hall].
    rewrite <- Hlen in Hi. destruct (lookup_lt_is_Some_2 _ _ Hi) as [t Ht].
    rewrite (Hrep i t Ht). rewrite Forall_lookup in Hall.
    specialize (Hall i t Ht). unfold is_done in Hall. unfold raised_by.
    destruct (reachable_agents_raise_inv st i t Hreach Ht e Hgen)
      as [[Hpc _]|[Hpc _]]; rewrite Hpc in *; done.
Qed.

(** ** The cleanup *)

Lemma agent_contexts_total ags :
  memories_total → ∃ contexts, agent_contexts ags = inr contexts.
Proof.
  intros Hm. induction ags as [|a ags [contexts IH]]; simpl; [eauto|].
  destruct (Hm a) as [m ->]. rewrite IH. eauto.
Qed.

Lemma in_rounds_app h evs : in_rounds h → in_rounds evs → in_rounds (h ++ evs).
Proof. apply Forall_app_2. Qed.

Lemma in_rounds_of_round sim round evs :
  Forall (of_round sim round) evs → in_rounds evs.
Proof. apply of_round_impl. by intros []. Qed.

Lemma reachable_cleanup_inv st i t :
  reachable st → threads st !! i = Some t →
  cleanup_inv i (trace_of i (log st)) t.
Proof.
  intros Hreach Ht. revert st Hreach i t Ht.
  apply (thread_invariant_sim cleanup_inv).
  { by intros i _. }
  intros picks sh t t' sh' evs h Hstep Hinv Hgen.
  specialize (Hinv Hgen). apply thread_step_steps in Hstep.
  destruct Hstep; round_events; unfold raise_in_try; simpl in *;
    try match goal with
        | |- context [is_Exception ?e] => destruct (is_Exception e)
        end; simpl.
  all: try (apply in_rounds_app; [done|]).
  all: try (by repeat constructor).
  all: try (by eapply in_rounds_of_round).
  all: try (left; apply in_rounds_app; [done|]; by repeat constructor).
  all: try (left; apply in_rounds_app; [done|]; by eapply in_rounds_of_round).
  - unfold generate_agents_ok in Hgen. rewrite H in Hgen. by destruct Hgen.
  - subst h. by repeat constructor.
  - right. by exists h, e.
  - exists h. split; [done|]. left. by exists e.
  - split; [done|]. by exists h.
  - destruct Hinv as (Hctx & h0 & Hh0 & ->). split; [done|].
    exists h0. split; [done|]. by rewrite <- app_assoc.
  - destruct Hinv as (Hctx & h0 & Hh0 & ->). split; [done|].
    exists h0. split; [done|]. by rewrite <- app_assoc.
  - destruct Hinv as (Hctx & h0 & Hh0 & ->).
    exists contexts, (update_record seen contexts sim).2, h0.
    split; [done|]. split; [done|]. by rewrite <- app_assoc.
  - destruct Hinv as (contexts & raised & h0 & Hctx & Hh0 & ->).
    exists h0. split; [done|]. right. exists contexts, raised.
    split; [done|]. by rewrite <- app_assoc.
Qed.

(** The trace of a simulation whose agents were generated, once its task
    is done: the rounds, then the [finally] block, broken off when
    [get_memories] raises. *)
Lemma cleanup_finished st i :
  reachable st → finished st → i < n_exp args →
  is_Some (generate_agents_ok i) →
  ∃ t h,
    threads st !! i = Some t
    ∧ rounds_left i h
    ∧ ((∃ e, agent_contexts (thread_agents t) = inl e
             ∧ trace_of i (log st) = h ++ [EvGetMemories i (Some e)])
       ∨ (∃ contexts raised,
            agent_contexts (thread_agents t) = inr contexts
            ∧ trace_of i (log st) = h ++ cleanup i contexts raised)).
Proof.
  intros Hreach Hfin Hi Hgen.
  pose proof (reachable_wf _ Hreach) as [Hmain _].
  unfold finished in Hfin. unfold main_inv in Hmain.
  destruct (main st); try done. destruct Hmain as [Hlen Hall].
  rewrite <- Hlen in Hi. destruct (lookup_lt_is_Some_2 _ _ Hi) as [t Ht].
  rewrite Forall_lookup in Hall. specialize (Hall i t Ht).
  pose proof (reachable_cleanup_inv st i t Hreach Ht Hgen) as Hinv.
  unfold is_done in Hall. destruct (at_pc t); try done.
  destruct Hinv as (h & Hh & Hcases). by exists t, h.
Qed.

(** C5.  For a simulation whose agents were generated, with memories that
    can be read, when [run] is over: the trace of the simulation is the
    trace of its rounds, with nothing of the [finally] block in it, ended or
    not by the print of the exception that broke the loop off, followed by
    the [finally] block, once, whole, and by nothing else.  The block reads
    the memories of the agents as the rounds left them, takes the lock,
    calls [update_record] with these memories, and gives the lock back. *)
Theorem cleanup_once st i :
  reachable st → finished st → i < n_exp args →
  is_Some (generate_agents_ok i) → memories_total →
  ∃ t h contexts raised,
    threads st !! i = Some t
    ∧ rounds_left i h
    ∧ agent_contexts (thread_agents t) = inr contexts
    ∧ trace_of i (log st) = h ++ cleanup i contexts raised.
Proof.
  intros Hreach Hfin Hi Hgen Hmem.
  destruct (cleanup_finished st i Hreach Hfin Hi Hgen)
    as (t & h & Ht & Hh & [(e & He & _)|(contexts & raised & Hc & Htrace)]).
  - destruct (agent_contexts_total (thread_agents t) Hmem) as [contexts Hc].
    congruence.
  - by exists t, h, contexts, raised.
Qed.

(** ** The rounds, one after the other *)

Lemma round_tags_app h1 h2 :
  round_tags (h1 ++ h2) = round_tags h1 ++ round_tags h2.
Proof. apply omap_app. Qed.

Lemma round_tags_task_errors sim round (es : list exn) :
  round_tags (EvTaskError sim round <$> es) = [].
Proof. induction es as [|e es IH]; [done|exact IH]. Qed.

Lemma run_round_tags sim round picks ags :
  round_tags (run_round sim round picks ags).1.2 = [(round, Started)].
Proof.
  unfold run_round. destruct (n_thread ags round =? 0); [done|].
  destruct (submit_all sim round 0 ags) as [[ags' fs] [e|]]; [done|].
  rewrite collect_spec. simpl.
  change (round_tags (EvRound sim round (n_thread ags round)
                      :: (EvTaskError sim round <$> failures (as_completed picks fs))))
    with ((round, Started)
          :: round_tags (EvTaskError sim round <$> failures (as_completed picks fs))).
  by rewrite round_tags_task_errors.
Qed.

Lemma full_rounds_prefix r n : r ≤ n → full_rounds r `prefix_of` full_rounds n.
Proof.
  induction 1 as [|n Hle IH]; [done|].
  simpl. by apply prefix_app_r.
Qed.

Lemma full_rounds_elem n r ph : (r, ph) ∈ full_rounds n → r < n.
Proof.
  induction n as [|n IH]; simpl.
  - by intros ?%elem_of_nil.
  - rewrite elem_of_app. intros [Hin|Hin]; [specialize (IH Hin); lia|].
    repeat (apply elem_of_cons in Hin as [Heq|Hin]; [injection Heq as -> _; lia|]).
    by apply elem_of_nil in Hin.
Qed.

Lemma full_rounds_NoDup n : NoDup (full_rounds n).
Proof.
  induction n as [|n IH]; simpl; [constructor|].
  apply NoDup_app. split; [done|]. split.
  - intros [r ph] Hin Hin'. apply full_rounds_elem in Hin.
    repeat (apply elem_of_cons in Hin' as [Heq|Hin']; [injection Heq as -> _; lia|]).
    by apply elem_of_nil in Hin'.
  - repeat (constructor;
            [intros Hin;
             repeat (apply elem_of_cons in Hin as [?|Hin]; [done|]);
             by apply elem_of_nil in Hin|]).
    constructor.
Qed.

(** Where an element sits in a list without repetitions. *)
Lemma NoDup_split_unique {A} (l1 l2 l1' l2' : list A) x :
  NoDup (l1 ++ x :: l2) → l1 ++ x :: l2 = l1' ++ x :: l2' → l1 = l1'.
Proof.
  revert l1'. induction l1 as [|a l1 IH]; intros [|a' l1'] Hnd Heq;
    simplify_eq/=; [done|..].
  - apply NoDup_cons in Hnd as [Hnin _]. destruct Hnin.
    apply elem_of_app. right. left.
  - apply NoDup_cons in Hnd as [Hnin _]. destruct Hnin.
    apply elem_of_app. right. left.
  - f_equal. apply NoDup_cons in Hnd as [_ Hnd]. by eapply IH.
Qed.

(** Before the phase of a round, exactly the rounds and phases before it. *)
Lemma full_rounds_before n a b r :
  full_rounds n = a ++ (r, Started) :: b → a = full_rounds r.
Proof.
  intros Heq.
  assert (r < n) as Hr.
  { apply (full_rounds_elem n r Started). rewrite Heq.
    apply elem_of_app. right. left. }
  destruct (full_rounds_prefix (S r) n Hr) as [k Hk]. simpl in Hk.
  rewrite <- app_assoc in Hk. simpl in Hk.
  symmetry. eapply NoDup_split_unique; [|by rewrite <- Hk, Heq].
  rewrite <- Hk. apply full_rounds_NoDup.
Qed.

Lemma reachable_sequential_inv st i t :
  reachable st → threads st !! i = Some t →
  sequential_inv (trace_of i (log st)) t.
Proof.
  intros Hreach Ht. revert st Hreach i t Ht.
  apply (thread_invariant sequential_inv); [done|].
  intros picks sh t t' sh' evs h Hstep Hinv.
  assert (∀ r, r < rounds args →
            full_rounds r ++ [(r, Started)] `prefix_of` full_rounds (rounds args))
    as Hstarted.
  { intros r Hr. etrans; [|by apply (full_rounds_prefix (S r))].
    simpl. apply prefix_app, prefix_cons, prefix_nil. }
  assert (∀ r, r < rounds args →
            (full_rounds r ++ [(r, Started); (r, Counted)]) ++ [(r, Postprocessed)]
            `prefix_of` full_rounds (rounds args))
    as Hposted.
  { intros r Hr. etrans; [|by apply (full_rounds_prefix (S r))].
    simpl. by rewrite <- app_assoc. }
  apply thread_step_steps in Hstep. unfold sequential_inv in *.
  destruct Hstep; simpl in Hinv |- *; rewrite round_tags_app;
    try match goal with
        | H : run_round ?s ?r ?p ?a = (_, ?evs, _) |- _ =>
            let Ht := fresh in
            pose proof (run_round_tags s r p a) as Ht; rewrite H in Ht;
            simpl in Ht; rewrite Ht
        end;
    unfold raise_in_try;
    try match goal with
        | |- context [is_Exception ?e] => destruct (is_Exception e)
        end; simpl; rewrite ?app_nil_r.
  - rewrite Hinv. apply prefix_nil.
  - split; [lia|done].
  - destruct Hinv as [_ ->]. done.
  - destruct Hinv as [_ ->]. by apply Hstarted.
  - destruct Hinv as [_ ->]. by apply Hstarted.
  - destruct Hinv as [Hr ->]. by apply full_rounds_prefix.
  - destruct Hinv as [Hr ->]. split; [done|]. by rewrite <- app_assoc.
  - destruct Hinv as [Hr ->]. split; [lia|]. by rewrite <- app_assoc.
  - destruct Hinv as [Hr ->]. by apply Hposted.
  - destruct Hinv as [Hr ->]. by apply Hposted.
  - done.
  - done.
  - done.
  - done.
  - done.
  - done.
  - done.
Qed.

(** C7.  In every reachable state, the starts of rounds, the increments of
    the progress counter and the calls of [round_postprocess] in the trace
    of a simulation are, in this order, those of round 0, then those of
    round 1, and so on, up to some point before round [rounds]: when the
    executor of a round is built, every earlier round has been started,
    counted and postprocessed, in index order, and nothing else of a round has
    happened. *)
Theorem rounds_sequential st i :
  reachable st →
  round_tags (trace_of i (log st)) `prefix_of` full_rounds (rounds args)
  ∧ ∀ round n l1 l2,
      trace_of i (log st) = l1 ++ EvRound i round n :: l2 →
      round_tags l1 = full_rounds round.
Proof.
  intros Hreach.
  assert (round_tags (trace_of i (log st)) `prefix_of` full_rounds (rounds args))
    as Hprefix.
  { destruct (threads st !! i) as [t|] eqn:Ht.
    - pose proof (reachable_sequential_inv st i t Hreach Ht) as Hinv.
      unfold sequential_inv in Hinv.
      destruct (at_pc t); try done.
      + rewrite Hinv. apply prefix_nil.
      + destruct Hinv as [Hr ->]. by apply full_rounds_prefix.
      + destruct Hinv as [Hr ->].
        etrans; [|by apply (full_rounds_prefix (S round))].
        simpl. apply prefix_app, prefix_cons, prefix_nil.
      + destruct Hinv as [Hr ->].
        etrans; [|by apply (full_rounds_prefix (S round))].
        simpl. apply prefix_app, prefix_cons, prefix_cons, prefix_nil.
    - rewrite (trace_of_other i (log st)); [apply prefix_nil|].
      apply Forall_forall. intros ev Hin Hev.
      destruct (event_thread st ev i Hreach Hin Hev) as [_ [t Ht']]. congruence. }
  split; [done|]. intros round n l1 l2 Heq.
  rewrite Heq, round_tags_app in Hprefix. destruct Hprefix as [k Hk].
  rewrite <- app_assoc in Hk.
  change (round_tags (EvRound i round n :: l2))
    with ((round, Started) :: round_tags l2) in Hk.
  by eapply full_rounds_before.
Qed.

(** ** A round whose postprocessing raises *)

Lemma no_raise_app h evs : no_raise h → no_raise evs → no_raise (h ++ evs).
Proof. apply Forall_app_2. Qed.

Lemma no_raise_of_round sim round evs :
  Forall (of_round sim round) evs → no_raise evs.
Proof. apply of_round_impl. by intros []. Qed.

Lemma count_progress_of_round sim round evs :
  Forall (of_round sim round) evs → count is_progress evs = 0.
Proof.
  intros Hevs. apply count_none. revert Hevs. apply of_round_impl. by intros [].
Qed.

Lemma round_tags_nil_progress h : round_tags h = [] → count is_progress h = 0.
Proof.
  induction h as [|ev h IH]; [done|]. destruct ev; try done; exact IH.
Qed.

Lemma round_tags_nil_elem h ev :
  round_tags h = [] → ev ∈ h → round_tag ev = None.
Proof.
  induction h as [|ev' h IH]; intros Hh Hin; [by apply elem_of_nil in Hin|].
  apply elem_of_cons in Hin as [->|Hin].
  - by destruct ev'.
  - apply IH; [|done]. by destruct ev'.
Qed.

Lemma reachable_counted_inv st i t :
  reachable st → threads st !! i = Some t →
  counted_inv i (trace_of i (log st)) t.
Proof.
  intros Hreach Ht. revert st Hreach i t Ht.
  apply (thread_invariant_sim counted_inv); [done|].
  intros picks sh t t' sh' evs h Hstep Hinv.
  assert (∀ evs', round_tags evs' = [] → no_raise evs' →
            (no_raise h ∨ ∃ round results e h0 h2,
               abandoned_at (simulation_ind t) round results e h0 h2 h) →
            no_raise (h ++ evs') ∨ ∃ round results e h0 h2,
               abandoned_at (simulation_ind t) round results e h0 h2 (h ++ evs'))
    as Hafter.
  { intros evs' Htags Hnr [Hh|(round & results & e & h0 & h2 & -> & Hh0 & Hc & Hh2)].
    - left. by apply no_raise_app.
    - right. exists round, results, e, h0, (h2 ++ evs').
      split; [|split; [done|split; [done|]]].
      + by rewrite <- !app_assoc.
      + by rewrite round_tags_app, Hh2, Htags. }
  apply thread_step_steps in Hstep. unfold counted_inv in *.
  destruct Hstep; round_events; simpl in Hinv |- *; unfold raise_in_try;
    try match goal with
        | |- context [is_Exception ?e] => destruct (is_Exception e)
        end; simpl.
  all: try (apply Hafter; [done|by repeat constructor|done]).
  - subst h. left. by repeat constructor.
  - subst h. split; [by repeat constructor|done].
  - destruct Hinv as [Hnr Hc]. split.
    + apply no_raise_app; [done|]. by eapply no_raise_of_round.
    + rewrite count_app, (count_progress_of_round _ _ _ Hev). lia.
  - destruct Hinv as [Hnr Hc]. left.
    apply no_raise_app; [done|]. by eapply no_raise_of_round.
  - destruct Hinv as [Hnr Hc]. left.
    apply no_raise_app; [done|]. by eapply no_raise_of_round.
  - destruct Hinv as [Hnr Hc]. left. by rewrite app_nil_r.
  - destruct Hinv as [Hnr Hc]. by exists h.
  - destruct Hinv as (h0 & -> & Hnr & Hc). split.
    + repeat (apply no_raise_app; [|by repeat constructor]). done.
    + rewrite !count_app. simpl. lia.
  - destruct Hinv as (h0 & -> & Hnr & Hc). right.
    exists round, results, e, h0, []. split; [|done].
    by rewrite <- app_assoc.
  - destruct Hinv as (h0 & -> & Hnr & Hc). right.
    exists round, results, e, h0, []. split; [|done].
    by rewrite <- app_assoc.
Qed.

(** C10.  When a call of [round_postprocess] raised, in round [round] of
    simulation [i]: in the trace of the simulation the call comes right after
    the increment of the progress counter for that round, which is the
    [round]+1-th increment of the simulation and the last one, and nothing
    of a round (no executor, no increment, no postprocessing) comes after
    it; the counter holds the increments of all the simulations, this one
    included. *)
Theorem counted_before_postprocess st i round results e :
  reachable st →
  EvRoundPostprocess i round results (Some e) ∈ log st →
  (∃ h0 h2,
     trace_of i (log st)
     = h0 ++ [EvProgress i round; EvRoundPostprocess i round results (Some e)]
          ++ h2
     ∧ count is_progress h0 = round
     ∧ round_tags h2 = [])
  ∧ count is_progress (trace_of i (log st)) = S round
  ∧ progress (shared st)
    = sum_upto (n_exp args) (λ j, count is_progress (trace_of j (log st))).
Proof.
  intros Hreach Hin.
  destruct (event_thread st _ i Hreach Hin eq_refl) as [_ [t Ht]].
  assert (EvRoundPostprocess i round results (Some e) ∈ trace_of i (log st))
    as Hin' by (by apply elem_of_trace_of).
  pose proof (reachable_counted_inv st i t Hreach Ht) as Hinv.
  assert (∀ h, no_raise h → EvRoundPostprocess i round results (Some e) ∉ h)
    as Hnr.
  { intros h Hh Hin''. unfold no_raise in Hh. rewrite Forall_forall in Hh.
    by specialize (Hh _ Hin''). }
  assert (∃ h0 h2, abandoned_at i round results e h0 h2 (trace_of i (log st)))
    as (h0 & h2 & Heq & Hh0 & Hc & Hh2).
  { unfold counted_inv in Hinv.
    destruct (at_pc t);
      try (destruct Hinv as [Hh|(round' & results' & e' & h0 & h2 & Heq & Hh0 & Hc & Hh2)];
           [by apply Hnr in Hh|];
           rewrite Heq in Hin';
           apply elem_of_app in Hin' as [Hin'|Hin']; [by apply Hnr in Hin'|];
           apply elem_of_cons in Hin' as [?|Hin']; [done|];
           apply elem_of_cons in Hin' as [?|Hin'];
           [simplify_eq; by exists h0, h2|];
           by apply (round_tags_nil_elem _ _ Hh2) in Hin').
    - rewrite Hinv in Hin'. by apply elem_of_nil in Hin'.
    - destruct Hinv as [Hh _]. by apply Hnr in Hh.
    - destruct Hinv as [Hh _]. by apply Hnr in Hh.
    - destruct Hinv as (h0 & Heq & Hh0 & _). rewrite Heq in Hin'.
      apply elem_of_app in Hin' as [Hin'|Hin']; [by apply Hnr in Hin'|].
      by apply list_elem_of_singleton in Hin'. }
  split; [by exists h0, h2|]. split.
  - rewrite Heq, !count_app, Hc, (round_tags_nil_progress _ Hh2). simpl. lia.
  - destruct (reachable_shared_inv st Hreach) as (_ & _ & _ & ->).
    apply reachable_count_by_simulation; [done|]. by intros [].
Qed.

(** * The orchestrator *)

Lemma count_sim p j evs :
  (∀ ev, p ev = true → ev_sim ev = None) →
  Forall (λ ev, ev_sim ev = Some j) evs → count p evs = 0.
Proof.
  intros Hp Hevs. apply count_none. eapply Forall_impl; [exact Hevs|].
  intros ev Hev. simpl in Hev. destruct (p ev) eqn:Hpev; [|done].
  apply Hp in Hpev. congruence.
Qed.

Lemma reachable_final_inv st : reachable st → final_inv st.
Proof.
  induction 1 as [|st c st' Hreach IH Hstep]; [done|].
  pose proof (reachable_wf _ Hreach) as [Hmain Hsim].
  pose proof (reachable_shared_inv _ Hreach) as (_ & _ & Hrec & _).
  apply step_inv in Hstep as [[k Hstep]|(j & picks & tj & tj' & sh' & evs & Htj & Hstep & ->)].
  - unfold main_inv in Hmain. unfold final_inv in *.
    apply main_step_inv in Hstep
      as [(Hm & _ & ->)|[(Hm & HN & ->)|[(Hm & ->)|[(pending & i' & t' & o & Hm & Hk & Hi' & Hpc & ->)
         |[(e & Hm & ->)|(Hm & ->)]]]]]; rewrite Hm in *; simpl.
    + done.
    + done.
    + destruct Hmain as (HN & _). rewrite count_app, IH. simpl.
      split; [done|]. lia.
    + rewrite count_app, IH. by destruct o.
    + destruct Hmain as (HN & _ & -> & _ & Hlog). rewrite Hlog. done.
    + destruct IH as [IH HN]. exists (log st). by rewrite Hrec.
  - pose proof (thread_step_sim _ _ _ _ _ _ Hstep) as [_ Hevs].
    pose proof (thread_step_not_done _ _ _ _ _ _ Hstep) as Hnd.
    assert (count is_exp_postprocess evs = 0) as Hc.
    { eapply count_sim; [|exact Hevs]. by intros []. }
    unfold main_inv in Hmain. unfold final_inv in *. simpl.
    destruct (main st) as [|pending|e| |o] eqn:Hm;
      try (rewrite count_app, Hc; lia).
    + destruct Hmain as [_ Hall]. rewrite Forall_lookup in Hall.
      by specialize (Hall j tj Htj).
    + destruct Hmain as [_ Hall]. rewrite Forall_lookup in Hall.
      by specialize (Hall j tj Htj).
Qed.

(** C6.  Every run of [run] comes to its end, whatever the schedule, and
    at its end:
    there is one task per simulation index, [n_exp] of them, each one in its
    own final state, with or without an exception; line 50 has printed the
    exception of every task that holds one, once, and nothing for the
    others; and the last thing [run] did, and did once, is to call
    [exp_postprocess], with the record as the calls of [update_record] made
    so far have left it.  When the executor cannot be built (no simulation
    to run) the fault is printed and [exp_postprocess] is called all the
    same. *)
Theorem run_finalizes st :
  reachable st →
  runs_to_end st
  ∧ (finished st →
     length (threads st) = n_exp args
     ∧ (∀ i t, threads st !! i = Some t →
          simulation_ind t = i ∧ is_done t ∧ reports i (log st) = raised_by t)
     ∧ ∃ l outcome,
         main st = MDone outcome
         ∧ log st = l ++ [EvExpPostprocess (replay l) outcome]
         ∧ count is_exp_postprocess l = 0
         ∧ (n_exp args = 0 → l = [EvFault ValueError_max_workers])).
Proof.
  intros Hreach. split; [by apply reachable_runs_to_end|]. intros Hfin.
  pose proof (reachable_wf _ Hreach) as [Hmain Hsim].
  pose proof (reachable_report_inv _ Hreach) as Hrep.
  pose proof (reachable_final_inv _ Hreach) as Hfinal.
  unfold finished in Hfin. unfold main_inv in Hmain.
  unfold report_inv in Hrep. unfold final_inv in Hfinal.
  destruct (main st) as [| | | |o]; try done.
  destruct Hmain as [Hlen Hall]. rewrite Forall_lookup in Hall.
  split; [done|]. split.
  { intros i t Ht. split; [by apply Hsim|]. split; [by eapply Hall|by apply Hrep]. }
  destruct Hfinal as (l & Hlog & Hc & HN). by exists l, o.
Qed.

(** * The shared record *)

Lemma reachable_update_count_inv st i t :
  reachable st → threads st !! i = Some t →
  update_count_inv i (trace_of i (log st)) t.
Proof.
  intros Hreach Ht. revert st Hreach i t Ht.
  apply (thread_invariant_sim update_count_inv); [done|].
  intros picks sh t t' sh' evs h Hstep Hinv.
  apply thread_step_steps in Hstep. unfold update_count_inv in *.
  destruct Hstep; round_events; simpl in Hinv |- *; unfold raise_in_try;
    try match goal with
        | |- context [is_Exception ?e] => destruct (is_Exception e)
        end; simpl; rewrite count_app; simpl;
    try match goal with
        | H : Forall (of_round _ _) ?evs |- _ =>
            rewrite (count_none is_update evs)
              by (eapply of_round_impl; [|exact H]; by intros [])
        end; try lia.
  - split; [lia|]. unfold generate_agents_ok. rewrite H. by intros [? ?].
  - split; [lia|]. intros _ Hm.
    destruct (agent_contexts_total ags Hm) as [contexts Hc]. congruence.
Qed.

Lemma update_count_le st i :
  reachable st → count is_update (trace_of i (log st)) ≤ 1.
Proof.
  intros Hreach. destruct (threads st !! i) as [t|] eqn:Ht.
  - pose proof (reachable_update_count_inv st i t Hreach Ht) as Hinv.
    unfold update_count_inv in Hinv. destruct (at_pc t); lia.
  - rewrite (trace_of_other i (log st)); [simpl; lia|].
    apply Forall_forall. intros ev Hin Hev.
    destruct (event_thread st ev i Hreach Hin Hev) as [_ [t Ht']]. congruence.
Qed.

Lemma update_count_finished st :
  reachable st → finished st →
  (∀ i, i < n_exp args → is_Some (generate_agents_ok i)) → memories_total →
  (∀ i, i < n_exp args → count is_update (trace_of i (log st)) = 1)
  ∧ count is_update (log st) = n_exp args.
Proof.
  intros Hreach Hfin Hgen Hmem.
  assert (∀ i, i < n_exp args → count is_update (trace_of i (log st)) = 1)
    as Hone.
  { intros i Hi. pose proof (reachable_wf _ Hreach) as [Hmain _].
    unfold finished in Hfin. unfold main_inv in Hmain.
    destruct (main st); try done. destruct Hmain as [Hlen Hall].
    rewrite <- Hlen in Hi. destruct (lookup_lt_is_Some_2 _ _ Hi) as [t Ht].
    rewrite Forall_lookup in Hall. specialize (Hall i t Ht).
    pose proof (reachable_update_count_inv st i t Hreach Ht) as Hinv.
    unfold update_count_inv, is_done in *. destruct (at_pc t); try done.
    apply Hinv; [|done]. apply Hgen. by rewrite Hlen in Hi. }
  split; [done|].
  rewrite (reachable_count_by_simulation is_update st Hreach) by (by intros []).
  rewrite (sum_upto_ext _ _ (λ _, 1)) by done.
  rewrite sum_upto_const. lia.
Qed.

(** C8.  In every reachable state: at most one thread is between taking
    the lock and giving it back, and the lock is taken when one is; while
    a thread is inside [update_record] the record is the one the call
    received, no other thread having written to it; the record is what the
    calls of [update_record] that have returned make of the empty record,
    one after the other in the order they returned; and no simulation has
    folded in more than once.  When [run] is over and every simulation got
    its agents and their memories, every simulation has folded in exactly
    once: [n_exp] calls in all. *)
Theorem fold_in_exclusive st :
  reachable st →
  (∀ i j ti tj,
     threads st !! i = Some ti → threads st !! j = Some tj →
     holds_lock ti → holds_lock tj → i = j)
  ∧ (∀ i t, threads st !! i = Some t → holds_lock t →
       lock (shared st) = true)
  ∧ (∀ i t pending contexts seen,
       threads st !! i = Some t →
       at_pc t = PUpdateReturn pending contexts seen →
       record (shared st) = seen)
  ∧ record (shared st) = replay (log st)
  ∧ (∀ i, count is_update (trace_of i (log st)) ≤ 1)
  ∧ (finished st →
     (∀ i, i < n_exp args → is_Some (generate_agents_ok i)) →
     memories_total →
     (∀ i, i < n_exp args → count is_update (trace_of i (log st)) = 1)
     ∧ count is_update (log st) = n_exp args).
Proof.
  intros Hreach.
  destruct (reachable_shared_inv st Hreach) as (Hlock & Hseen & Hrec & _).
  assert (∀ t, holds_lock t → lock_count t = 1) as Hcount.
  { intros t Ht. unfold lock_count. by rewrite decide_True. }
  split; [|split; [|split; [|split; [|split]]]].
  - intros i j ti tj Hi Hj Hti Htj.
    destruct (decide (i = j)) as [|Hne]; [done|].
    pose proof (total_lookup2_le lock_count _ i j ti tj Hne Hi Hj) as Hle.
    rewrite (Hcount ti Hti), (Hcount tj Htj) in Hle.
    destruct (lock (shared st)); lia.
  - intros i t Hi Ht.
    pose proof (total_lookup_le lock_count _ i t Hi) as Hle.
    rewrite (Hcount t Ht) in Hle. destruct (lock (shared st)); [done|lia].
  - done.
  - done.
  - intros i. by apply update_count_le.
  - by apply update_count_finished.
Qed.

(** * A run in which nothing fails *)

Lemma submit_all_no_failures sim round i ags ags' fs err :
  (∀ a q i r s, ∃ a' x, answer a q i r s = (a', inr x)) →
  submit_all sim round i ags = (ags', fs, err) → failures fs = [].
Proof.
  intros Hans. revert i ags' fs err.
  induction ags as [|a rest IH]; intros i ags' fs err; simpl.
  - by intros [= <- <- <-].
  - destruct (generate_question a round) as [a1 [e|q]].
    + by intros [= <- <- <-].
    + destruct (Hans a1 q i round sim) as (a2 & x & ->).
      destruct (submit_all sim round (S i) rest) as [[rest' fs'] err'] eqn:Hrest.
      intros [= <- <- <-]. simpl. by eapply IH.
Qed.

(** Then a round returns one result per agent. *)
Lemma run_round_complete A sim round picks ags :
  no_failures A → n_thread ags round ≠ 0 →
  ∃ ags' evs results,
    run_round sim round picks ags = (ags', evs, inr results)
    ∧ length results = length ags ∧ length ags' = length ags.
Proof.
  intros Hnf Hags. unfold run_round.
  rewrite (proj2 (Nat.eqb_neq _ _) Hags).
  destruct (submit_all_no_error sim round 0 ags (nf_question A Hnf))
    as (ags' & fs & Hsub).
  rewrite Hsub, collect_spec. simpl. eexists _, _, _. split; [done|].
  pose proof (submit_all_no_failures _ _ _ _ _ _ _ (nf_answer A Hnf) Hsub) as Hf.
  pose proof (successes_failures_length fs) as Hlen.
  rewrite Hf in Hlen. simpl in Hlen.
  split.
  - rewrite sorted_length, (successes_Permutation _ _ (as_completed_Permutation picks fs)).
    rewrite <- (submit_all_futures_length _ _ _ _ _ _ Hsub). lia.
  - by eapply submit_all_agents_length.
Qed.

Lemma results_full_app A h evs :
  results_full A h → results_full A evs → results_full A (h ++ evs).
Proof. intros Hh Hevs s r results o [?|?]%elem_of_app; eauto. Qed.

Lemma results_full_of_round A sim round evs :
  Forall (of_round sim round) evs → results_full A evs.
Proof.
  intros Hevs s r results o Hin. rewrite Forall_forall in Hevs.
  by specialize (Hevs _ Hin).
Qed.

Lemma reachable_complete_inv A st i t :
  no_failures A → reachable st → threads st !! i = Some t →
  complete_inv A i (trace_of i (log st)) t.
Proof.
  intros Hnf Hreach Ht. revert st Hreach i t Ht.
  apply (thread_invariant_sim (complete_inv A)).
  { intros i _. split; [|done]. intros s r results o Hin.
    by apply elem_of_nil in Hin. }
  intros picks sh t t' sh' evs h Hstep Hinv Hi.
  destruct (Hinv Hi) as [Hfull Hpc]. clear Hinv.
  apply thread_step_steps in Hstep. clear picks.
  destruct Hstep as [| |? ? ? ? picks0 ? ? ? ? H0|? ? ? ? picks0 ? ? ? ? H0
                    | | | | | | | | | | |]; simpl in Hi, Hpc |- *.
  - destruct (nf_agents A Hnf sim Hi) as (ags0 & Hgen & _). congruence.
  - destruct (nf_agents A Hnf sim Hi) as (ags0' & Hgen & Hlen).
    subst h. split; [|split; [lia|split; [congruence|done]]].
    intros s r results o Hin. by apply list_elem_of_singleton in Hin.
  - destruct Hpc as (Hr & Hags & Hc).
    destruct (run_round_complete A sim round picks0 ags Hnf)
      as (ags1 & evs1 & results1 & Hrr & Hres & Hags').
    { by apply (nf_executor A Hnf). }
    round_events. rewrite Hrr in H0. injection H0 as <- <- <-. split.
    + apply results_full_app; [done|]. by eapply results_full_of_round.
    + rewrite count_app, (count_progress_of_round _ _ _ Hev). lia.
  - destruct Hpc as (Hr & Hags & Hc).
    destruct (run_round_complete A sim round picks0 ags Hnf)
      as (ags1 & evs1 & results1 & Hrr & Hres & Hags').
    { by apply (nf_executor A Hnf). }
    congruence.
  - destruct Hpc as (Hr & Hags & Hc). rewrite app_nil_r.
    split; [done|]. split; [done|]. lia.
  - destruct Hpc as (Hr & Hags & Hres & Hc). split.
    + apply results_full_app; [done|]. intros s r res o Hin.
      by apply list_elem_of_singleton in Hin.
    + rewrite count_app. simpl. repeat split; try done. lia.
  - destruct Hpc as (Hr & Hags & Hres & Hc).
    destruct (nf_postprocess A Hnf sim round results ags) as (ags1 & Hpp & Hlen).
    rewrite Hpp in H. injection H as <-. split.
    + apply results_full_app; [done|]. intros s r res o Hin.
      apply list_elem_of_singleton in Hin. congruence.
    + rewrite count_app. simpl. repeat split; try lia.
  - destruct (nf_postprocess A Hnf sim round results ags) as (ags1 & Hpp & Hlen).
    congruence.
  - done.
  - destruct (agent_contexts_total ags (nf_memories A Hnf)) as [contexts Hc].
    congruence.
  - destruct Hpc as [-> Hc]. split.
    + apply results_full_app; [done|]. intros s r res o Hin.
      by apply list_elem_of_singleton in Hin.
    + rewrite count_app. simpl. split; [done|lia].
  - destruct Hpc as [-> Hc]. split.
    + apply results_full_app; [done|]. intros s r res o Hin.
      by apply list_elem_of_singleton in Hin.
    + rewrite count_app. simpl. split; [done|lia].
  - destruct Hpc as [-> Hc]. split.
    + apply results_full_app; [done|]. intros s r res o Hin.
      by apply list_elem_of_singleton in Hin.
    + rewrite count_app. simpl. split; [done|lia].
  - destruct Hpc as [-> Hc]. split.
    + apply results_full_app; [done|]. intros s r res o Hin.
      by apply list_elem_of_singleton in Hin.
    + rewrite count_app. simpl. rewrite (nf_update A Hnf). split; [done|lia].
  - destruct Hpc as [-> Hc]. split.
    + apply results_full_app; [done|]. intros s r res o Hin.
      by apply list_elem_of_singleton in Hin.
    + rewrite count_app. simpl. split; [done|lia].
Qed.

(** C3.  When nothing fails, with [A] agents per simulation: the run comes
    to its end, whatever the schedule; every call of [round_postprocess]
    receives exactly [A] results; and at the end the progress counter is
    [n_exp * rounds], [update_record] has been called once for each
    simulation index, [n_exp] times in all, and the record is what these
    calls, one after the other, and [exp_postprocess] made of the empty
    record. *)
Theorem complete_without_failures A st :
  no_failures A → reachable st →
  runs_to_end st
  ∧ (∀ s r results o,
       EvRoundPostprocess s r results o ∈ log st → length results = A)
  ∧ (finished st →
     progress (shared st) = n_exp args * rounds args
     ∧ (∀ i, i < n_exp args → count is_update (trace_of i (log st)) = 1)
     ∧ count is_update (log st) = n_exp args
     ∧ record (shared st) = replay (log st)).
Proof.
  intros Hnf Hreach. split; [by apply reachable_runs_to_end|]. split.
  - intros s r results o Hin.
    destruct (event_thread st _ s Hreach Hin eq_refl) as [Hs [t Ht]].
    destruct (reachable_complete_inv A st s t Hnf Hreach Ht Hs) as [Hfull _].
    eapply Hfull. apply elem_of_trace_of. done.
  - intros Hfin. split.
    + destruct (reachable_shared_inv st Hreach) as (_ & _ & _ & ->).
      rewrite (reachable_count_by_simulation is_progress st Hreach)
        by (by intros []).
      rewrite (sum_upto_ext _ _ (λ _, rounds args)); [apply sum_upto_const|].
      intros i Hi. pose proof (reachable_wf _ Hreach) as [Hmain _].
      unfold finished in Hfin. unfold main_inv in Hmain.
      destruct (main st); try done. destruct Hmain as [Hlen Hall].
      pose proof Hi as Hi'. rewrite <- Hlen in Hi'.
      destruct (lookup_lt_is_Some_2 _ _ Hi') as [t Ht].
      rewrite Forall_lookup in Hall. specialize (Hall i t Ht).
      destruct (reachable_complete_inv A st i t Hnf Hreach Ht Hi) as [_ Hpc].
      unfold is_done in Hall. destruct (at_pc t); try done. by destruct Hpc.
    + destruct (update_count_finished st Hreach Hfin) as [Hone Hall].
      * intros i Hi. destruct (nf_agents A Hnf i Hi) as (ags & Hgen & _).
        unfold generate_agents_ok. rewrite Hgen. eauto.
      * apply (nf_memories A Hnf).
      * split; [done|]. split; [done|].
        by destruct (reachable_shared_inv st Hreach) as (_ & _ & ? & _).
Qed.

(** * The progress counter and its total *)







(** * The lock at the end of a run *)

(** X2.  The lock is held only while a simulation is between taking it and
    giving it back, and it is free when [run] is over: no exception of
    [update_record] leaves it taken. *)
Theorem lock_released st :
  reachable st →
  (lock (shared st) = true →
   ∃ i t, threads st !! i = Some t ∧ holds_lock t)
  ∧ (finished st → lock (shared st) = false).
Proof.
  intros Hreach.
  destruct (reachable_shared_inv st Hreach) as (Hlock & _).
  split.
  - intros Hl. rewrite Hl in Hlock.
    destruct (total_pos_lookup lock_count (threads st)) as (i & t & Hi & Hc);
      [lia|].
    exists i, t. split; [done|].
    unfold lock_count in Hc. destruct (decide (holds_lock t)); [done|lia].
  - intros Hfin. destruct (reachable_wf st Hreach) as [Hmain _].
    unfold finished in Hfin. unfold main_inv in Hmain.
    destruct (main st); try done. destruct Hmain as [_ Hdone].
    rewrite (total_const lock_count (threads st) 0) in Hlock.
    + destruct (lock (shared st)); [lia|done].
    + eapply Forall_impl; [exact Hdone|]. intros t Ht.
      unfold lock_count. destruct (decide (holds_lock t)) as [Hh|]; [|done].
      unfold is_done, holds_lock in *. by destruct (at_pc t).
Qed.

(** * The calls of [update_record], one after the other *)

Lemma lock_run_app holder l1 l2 :
  lock_run holder (l1 ++ l2)
  = match lock_run holder l1 with
    | Some holder' => lock_run holder' l2
    | None => None
    end.
Proof.
  revert holder. induction l1 as [|ev l1 IH]; intros holder; simpl; [done|].
  destruct (lock_step holder ev); [apply IH|done].
Qed.

(** What does not concern the lock leaves its holder. *)
Lemma lock_run_neutral holder l :
  Forall (λ ev, ∀ h, lock_step h ev = Some h) l →
  lock_run holder l = Some holder.
Proof.
  induction 1 as [|ev l Hev _ IH]; simpl; [done|]. by rewrite Hev.
Qed.

Lemma holds_lock_insert (l : list Thread) j tj tj' i :
  l !! j = Some tj →
  (∃ t, <[j:=tj']> l !! i = Some t ∧ holds_lock t)
  ↔ if decide (i = j) then holds_lock tj'
    else ∃ t, l !! i = Some t ∧ holds_lock t.
Proof.
  intros Hj. case_decide as Hij.
  - subst i. rewrite list_lookup_insert_eq by (by eapply lookup_lt_Some).
    split; [by intros (t & [= <-] & ?)|eauto].
  - by rewrite list_lookup_insert_ne.
Qed.

(** The trace of a reachable state keeps the discipline of the lock, and
    the holder the trace tells is the simulation whose thread holds it. *)
Lemma reachable_lock_run st :
  reachable st →
  ∃ holder,
    lock_run None (log st) = Some holder
    ∧ ∀ i, holder = Some i ↔ ∃ t, threads st !! i = Some t ∧ holds_lock t.
Proof.
  induction 1 as [|st c st' Hreach IH Hstep].
  { exists None. split; [done|]. intros i. split; [done|].
    by intros (t & Ht & _). }
  pose proof (reachable_wf _ Hreach) as [Hmain Hsim].
  pose proof (reachable_shared_inv _ Hreach) as (Hlock & _).
  destruct IH as (holder & Hrun & Hholder).
  apply step_inv in Hstep as [[k Hstep]|(j & picks & tj & tj' & sh' & evs & Htj & Hstep & ->)].
  - unfold main_inv in Hmain.
    apply main_step_inv in Hstep
      as [(Hm & _ & ->)|[(Hm & _ & ->)|[(Hm & ->)|[(pending & i' & t' & o & Hm & _ & _ & _ & ->)
         |[(e & Hm & ->)|(Hm & ->)]]]]]; simpl;
      rewrite ?lock_run_app, ?Hrun; simpl; eauto.
    + rewrite Hm in Hmain. subst st. exists None. split; [done|].
      intros i. split; [done|]. intros (t & Ht & Hh).
      apply submit_simulations_lookup in Ht as [_ ->]. done.
    + destruct o; simpl; eauto.
  - pose proof (Hsim _ _ Htj) as Hj.
    apply thread_step_steps in Hstep. simpl.
    rewrite lock_run_app, Hrun.
    assert (¬ holds_lock tj → ¬ holds_lock tj' →
            Forall (λ ev, ∀ h, lock_step h ev = Some h) evs →
            ∃ holder0, lock_run holder evs = Some holder0
              ∧ ∀ i, holder0 = Some i
                     ↔ ∃ t, <[j:=tj']> (threads st) !! i = Some t ∧ holds_lock t)
      as Hneutral.
    { intros Hn Hn' Hevs. exists holder. split; [by apply lock_run_neutral|].
      intros i. rewrite (holds_lock_insert _ _ _ _ _ Htj), Hholder.
      case_decide; [|done]. subst i. split; [|done].
      intros (t & Ht & Hh). by simplify_eq. }
    destruct Hstep; round_events; simpl in Hj; subst sim;
      try (apply Hneutral;
           [unfold holds_lock; simpl; tauto
           |unfold holds_lock, raise_in_try; simpl;
            try match goal with
                | |- context [is_Exception ?e] => destruct (is_Exception e)
                end; simpl; tauto
           |first [by repeat constructor
                  |eapply of_round_impl; [|eassumption]; by intros []]]).
    + (* the lock is taken *)
      assert (holder = None) as ->.
      { destruct holder as [k|]; [|done].
        destruct (proj1 (Hholder k) eq_refl) as (t & Ht & Hh).
        pose proof (total_lookup_le lock_count _ _ _ Ht) as Hle.
        unfold lock_count in Hle at 1. rewrite decide_True in Hle by done.
        rewrite Hlock in Hle.
        match goal with Hfree : lock _ = false |- _ => rewrite Hfree in Hle end.
        lia. }
      exists (Some j). split; [done|]. intros i.
      rewrite (holds_lock_insert _ _ _ _ _ Htj).
      case_decide as Hij; [subst i; by split|].
      split; [congruence|]. intros Hh. apply Hholder in Hh. done.
    + (* [update_record] is called *)
      assert (holder = Some j) as ->.
      { apply Hholder. eexists. by split. }
      exists (Some j). split; [simpl; by rewrite decide_True|]. intros i.
      rewrite (holds_lock_insert _ _ _ _ _ Htj).
      case_decide as Hij; [subst i; by split|]. apply Hholder.
    + (* [update_record] returns *)
      assert (holder = Some j) as ->.
      { apply Hholder. eexists. by split. }
      exists (Some j). split; [simpl; by rewrite decide_True|]. intros i.
      rewrite (holds_lock_insert _ _ _ _ _ Htj).
      case_decide as Hij; [subst i; by split|]. apply Hholder.
    + (* the lock is given back *)
      assert (holder = Some j) as ->.
      { apply Hholder. eexists. by split. }
      exists None. split; [simpl; by rewrite decide_True|]. intros i.
      rewrite (holds_lock_insert _ _ _ _ _ Htj).
      case_decide as Hij; [subst i; by split|].
      split; [done|]. intros Hh. apply Hholder in Hh. congruence.
Qed.

(** X3.  The calls of [update_record] never overlap, whatever the
    interleaving: along the trace of a run the lock is taken only when it is
    free, and between the moment a simulation takes it and the moment it
    gives it back every call and return of [update_record] is its own.  The
    holder the trace tells is the simulation whose thread is inside the
    [with] block. *)
Theorem update_calls_serialized st :
  reachable st →
  ∃ holder,
    lock_run None (log st) = Some holder
    ∧ (∀ i, holder = Some i ↔ ∃ t, threads st !! i = Some t ∧ holds_lock t)
    ∧ (finished st → holder = None).
Proof.
  intros Hreach.
  destruct (reachable_lock_run st Hreach) as (holder & Hrun & Hholder).
  exists holder. split; [done|]. split; [done|].
  intros Hfin. destruct holder as [i|]; [|done].
  destruct (proj1 (Hholder i) eq_refl) as (t & Ht & Hh).
  destruct (reachable_wf st Hreach) as [Hmain _].
  unfold finished in Hfin. unfold main_inv in Hmain.
  destruct (main st); try done. destruct Hmain as [_ Hdone].
  rewrite Forall_forall in Hdone.
  specialize (Hdone t (list_elem_of_lookup_2 _ _ _ Ht)).
  unfold is_done, holds_lock in *. by destruct (at_pc t).
Qed.

(** * Where the exception of a future comes from *)

Lemma raised_outside_try_app i e h evs :
  raised_outside_try i e h → raised_outside_try i e (h ++ evs).
Proof.
  unfold raised_outside_try. intros [Hin|[Hin|[contexts Hin]]].
  - left. apply elem_of_app. by left.
  - right; left. apply elem_of_app. by left.
  - right; right. exists contexts. apply elem_of_app. by left.
Qed.

Lemma reachable_origin_inv st i t :
  reachable st → threads st !! i = Some t →
  origin_inv i (trace_of i (log st)) t.
Proof.
  intros Hreach Ht. revert st Hreach i t Ht.
  apply (thread_invariant_sim origin_inv); [done|].
  intros picks sh t t' sh' evs h Hstep Hinv.
  apply thread_step_steps in Hstep. unfold origin_inv in *.
  destruct Hstep; simpl in Hinv |- *; unfold raise_in_try;
    try match goal with
        | |- context [is_Exception ?e] => destruct (is_Exception e) eqn:?
        end; simpl; try done; try (intros ? [= <-]; done).
  - intros ? [= <-]. left. left. apply elem_of_app. right. by left.
  - intros ? [= <-]. left. right; left. apply elem_of_app. right. by left.
  - intros e' Heq.
    destruct (update_record seen contexts sim).2 as [e0|] eqn:Hup.
    + injection Heq as <-. left. right; right. exists contexts.
      apply elem_of_app. right. left.
    + right. by apply Hinv.
  - intros e' Heq. destruct (Hinv e' Heq) as [Hout|Hno]; [|by right].
    left. by apply raised_outside_try_app.
Qed.

(** The exception [run] prints for a simulation is the one the task of the
    simulation ended with. *)
Lemma future_error_done st i e :
  reachable st → EvFutureError i e ∈ log st →
  ∃ t, threads st !! i = Some t ∧ at_pc t = PDone (Some e).
Proof.
  intros Hreach. revert i e.
  induction Hreach as [|st c st' Hreach IH Hstep]; intros i e Hin.
  { by apply elem_of_nil in Hin. }
  pose proof (reachable_wf _ Hreach) as [Hmain Hsim].
  apply step_inv in Hstep as [[k Hstep]|(j & picks & tj & tj' & sh' & evs & Htj & Hstep & ->)].
  - unfold main_inv in Hmain.
    apply main_step_inv in Hstep
      as [(Hm & _ & ->)|[(Hm & _ & ->)|[(Hm & ->)|[(pending & i' & t' & o & Hm & _ & Hi' & Hpc & ->)
         |[(e' & Hm & ->)|(Hm & ->)]]]]]; simpl in *; eauto.
    + rewrite Hm in Hmain. subst st. by apply elem_of_nil in Hin.
    + apply elem_of_app in Hin as [Hin|Hin]; [eauto|].
      apply list_elem_of_singleton in Hin. done.
    + apply elem_of_app in Hin as [Hin|Hin]; [eauto|].
      destruct o as [e'|]; [|by apply elem_of_nil in Hin].
      apply list_elem_of_singleton in Hin. injection Hin as -> ->. eauto.
    + apply elem_of_app in Hin as [Hin|Hin]; [eauto|].
      apply list_elem_of_singleton in Hin. done.
    + apply elem_of_app in Hin as [Hin|Hin]; [eauto|].
      apply list_elem_of_singleton in Hin. done.
  - simpl in *. apply elem_of_app in Hin as [Hin|Hin].
    + destruct (IH _ _ Hin) as (t & Ht & Hpc).
      destruct (decide (i = j)) as [->|Hne].
      * simplify_eq. pose proof (thread_step_not_done _ _ _ _ _ _ Hstep) as Hnd.
        unfold is_done in Hnd. by rewrite Hpc in Hnd.
      * exists t. by rewrite list_lookup_insert_ne.
    + pose proof (thread_step_sim _ _ _ _ _ _ Hstep) as [_ Hevs].
      rewrite Forall_forall in Hevs. by specialize (Hevs _ Hin).
Qed.

(** X4.  An [Exception] that [run] reports for a simulation was raised by
    one of the three calls of [run_once] that are not inside its [try]:
    [generate_agents], [get_memories] or [update_record].  What a round
    raises as an [Exception] never reaches the future of the simulation. *)
Theorem reported_exception_origin st i e :
  reachable st → EvFutureError i e ∈ log st →
  raised_outside_try i e (log st) ∨ is_Exception e = false.
Proof.
  intros Hreach Hin.
  destruct (future_error_done st i e Hreach Hin) as (t & Ht & Hpc).
  pose proof (reachable_origin_inv st i t Hreach Ht) as Hinv.
  unfold origin_inv in Hinv. rewrite Hpc in Hinv.
  destruct (Hinv e eq_refl) as [Hout|Hno]; [left|by right].
  unfold raised_outside_try in *.
  destruct Hout as [Hout|[Hout|[contexts Hout]]];
    apply elem_of_trace_of in Hout as [Hout _]; eauto.
Qed.

(** * The first call of a simulation *)

Lemma generated_app i h evs :
  generated i h → count is_generate_agents evs = 0 → generated i (h ++ evs).
Proof.
  intros (h' & -> & Hc) Hevs. exists (h' ++ evs). split; [done|].
  rewrite count_app. lia.
Qed.

Lemma reachable_generated_inv st i t :
  reachable st → threads st !! i = Some t →
  generated_inv i (trace_of i (log st)) t.
Proof.
  intros Hreach Ht. revert st Hreach i t Ht.
  apply (thread_invariant_sim generated_inv); [done|].
  intros picks sh t t' sh' evs h Hstep Hinv.
  apply thread_step_steps in Hstep. unfold generated_inv in *.
  destruct Hstep; round_events; simpl in Hinv |- *; unfold raise_in_try;
    try match goal with
        | |- context [is_Exception ?e] => destruct (is_Exception e)
        end; simpl;
    try (apply generated_app; [done|]);
    try done;
    try (apply count_none; eapply of_round_impl; [|eassumption]; by intros []).
  - subst h. exists []. by rewrite H.
  - subst h. exists []. by rewrite H.
Qed.

(** X5.  A simulation calls [generate_agents] once, and before anything
    else: the trace of a simulation is empty or begins with that call and
    holds no other; when [run] is over every simulation has made it. *)
Theorem agents_generated_first st i :
  reachable st →
  (trace_of i (log st) = [] ∨ generated i (trace_of i (log st)))
  ∧ (finished st → i < n_exp args → generated i (trace_of i (log st))).
Proof.
  intros Hreach. split.
  - destruct (threads st !! i) as [t|] eqn:Ht.
    + pose proof (reachable_generated_inv st i t Hreach Ht) as Hinv.
      unfold generated_inv in Hinv. destruct (at_pc t); eauto.
    + left. apply trace_of_other, Forall_forall. intros ev Hin Hev.
      destruct (event_thread st ev i Hreach Hin Hev) as [_ [t Ht']]. congruence.
  - intros Hfin Hi. destruct (reachable_wf st Hreach) as [Hmain _].
    unfold finished in Hfin. unfold main_inv in Hmain.
    destruct (main st); try done. destruct Hmain as [Hlen Hdone].
    destruct (lookup_lt_is_Some_2 (threads st) i) as [t Ht]; [lia|].
    rewrite Forall_forall in Hdone.
    specialize (Hdone t (list_elem_of_lookup_2 _ _ _ Ht)).
    pose proof (reachable_generated_inv st i t Hreach Ht) as Hinv.
    unfold generated_inv, is_done in *. by destruct (at_pc t).
Qed.

(** * A simulation with no agent, a run with no round *)

(** The thread of a simulation [run] has finished with. *)
Lemma finished_thread st i :
  reachable st → finished st → i < n_exp args →
  ∃ t outcome, threads st !! i = Some t ∧ at_pc t = PDone outcome.
Proof.
  intros Hreach Hfin Hi. destruct (reachable_wf st Hreach) as [Hmain _].
  unfold finished in Hfin. unfold main_inv in Hmain.
  destruct (main st); try done. destruct Hmain as [Hlen Hdone].
  destruct (lookup_lt_is_Some_2 (threads st) i) as [t Ht]; [lia|].
  rewrite Forall_forall in Hdone.
  specialize (Hdone t (list_elem_of_lookup_2 _ _ _ Ht)).
  unfold is_done in Hdone. destruct (at_pc t) eqn:Hpc; try done. eauto.
Qed.

Lemma reachable_no_agents_inv st i t :
  reachable st → threads st !! i = Some t →
  no_agents_inv i (trace_of i (log st)) t.
Proof.
  intros Hreach Ht. revert st Hreach i t Ht.
  apply (thread_invariant_sim no_agents_inv).
  { by intros i _ _. }
  intros picks sh t t' sh' evs h Hstep Hinv Hgen Hr.
  specialize (Hinv Hgen Hr). apply thread_step_steps in Hstep.
  destruct Hstep; simpl in *.
  - congruence.
  - subst h. rewrite Hgen in H. by injection H as <-.
  - destruct Hinv as (-> & -> & ->). done.
  - destruct Hinv as (-> & -> & ->). injection H0 as <- <- <-. done.
  - destruct Hinv as (-> & _). lia.
  - done.
  - done.
  - done.
  - destruct Hinv as (-> & -> & ->). done.
  - destruct Hinv as (-> & _). done.
  - destruct Hinv as (-> & ->). by injection H as <-.
  - destruct Hinv as (-> & ->). done.
  - destruct Hinv as (-> & ->). done.
  - destruct Hinv as (-> & ->). eexists. done.
  - destruct Hinv as (raised & ->). by exists raised.
Qed.

(** X6.  A simulation for which [generate_agents] returns no agent, in a
    run that has a round to run, fails in round 0: the executor of the round
    is built with [max_workers = 0], its [ValueError] is printed by line 82,
    no round is counted or postprocessed, and [update_record] is called with
    an empty list of memories. *)
Theorem simulation_without_agents st i :
  generate_agents i = inr [] → 0 < rounds args →
  reachable st → finished st → i < n_exp args →
  ∃ raised,
    trace_of i (log st)
    = [EvGenerateAgents i None; EvRound i 0 0;
       EvError i ValueError_max_workers] ++ cleanup i [] raised.
Proof.
  intros Hgen Hr Hreach Hfin Hi.
  destruct (finished_thread st i Hreach Hfin Hi) as (t & outcome & Ht & Hpc).
  pose proof (reachable_no_agents_inv st i t Hreach Ht Hgen Hr) as Hinv.
  by rewrite Hpc in Hinv.
Qed.

Lemma reachable_no_rounds_inv st i t :
  reachable st → threads st !! i = Some t →
  no_rounds_inv i (trace_of i (log st)) t.
Proof.
  intros Hreach Ht. revert st Hreach i t Ht.
  apply (thread_invariant_sim no_rounds_inv).
  { by intros i _ ags _. }
  intros picks sh t t' sh' evs h Hstep Hinv Hr ags0 Hgen.
  specialize (Hinv Hr ags0 Hgen). apply thread_step_steps in Hstep.
  destruct Hstep; simpl in *; try lia; try done.
  - congruence.
  - subst h. rewrite Hgen in H. by injection H as <-.
  - destruct Hinv as (-> & ->). done.
  - destruct Hinv as (-> & ->). left. by exists e.
  - destruct Hinv as (-> & ->). done.
  - destruct Hinv as (Hc & ->). done.
  - destruct Hinv as (Hc & ->). done.
  - destruct Hinv as (Hc & ->). by eexists _, _.
  - destruct Hinv as (contexts & raised & Hc & ->). right.
    by exists contexts, raised.
Qed.

(** X7.  In a run of no round a simulation whose agents are generated does
    nothing but its cleanup: [generate_agents], then the memories of the
    agents as they were returned, the lock, and [update_record] with those
    memories; no question is asked and nothing is counted. *)
Theorem simulation_without_rounds st i ags :
  rounds args = 0 → generate_agents i = inr ags →
  reachable st → finished st → i < n_exp args →
  no_rounds_trace i ags (trace_of i (log st)).
Proof.
  intros Hr Hgen Hreach Hfin Hi.
  destruct (finished_thread st i Hreach Hfin Hi) as (t & outcome & Ht & Hpc).
  pose proof (reachable_no_rounds_inv st i t Hreach Ht Hr ags Hgen) as Hinv.
  by rewrite Hpc in Hinv.
Qed.

(** * The results of a round, whatever the tasks return *)

(** [sorted] is stable: the elements of one key keep their order. *)
Lemma insert_by_filter {A} (key : A → Z) (k : Z) x (l : list A) :
  filter (λ y, key y = k) (insert_by key x l)
  = filter (λ y, key y = k) (x :: l).
Proof.
  induction l as [|y l IH]; simpl; [done|].
  destruct (Z.leb_spec (key x) (key y)) as [Hle|Hlt]; [done|].
  rewrite (filter_cons _ y (insert_by key x l)), IH.
  rewrite !filter_cons. repeat case_decide; try done; lia.
Qed.

Lemma sorted_filter {A} (key : A → Z) (k : Z) (l : list A) :
  filter (λ y, key y = k) (sorted key l) = filter (λ y, key y = k) l.
Proof.
  induction l as [|x l IH]; simpl; [done|].
  rewrite insert_by_filter, !filter_cons, IH. done.
Qed.

(** X8.  A round loses no result and invents none, whatever the tasks
    return as their index and in whatever order they complete: when the
    executor can be built and every question is generated, the results
    handed on are the pairs of the tasks that returned, each once, in
    ascending order of their first component, and every task that raised is
    printed once; together they are as many as the agents. *)
Theorem round_keeps_every_result sim round picks ags ags' fs :
  n_thread ags round ≠ 0 →
  submit_all sim round 0 ags = (ags', fs, None) →
  ∃ results,
    run_round sim round picks ags
    = (ags',
       EvRound sim round (n_thread ags round)
       :: (EvTaskError sim round <$> failures (as_completed picks fs)),
       inr results)
    ∧ results ≡ₚ successes fs
    ∧ failures (as_completed picks fs) ≡ₚ failures fs
    ∧ StronglySorted (key_le fst) results
    ∧ length results + length (failures fs) = length ags.
Proof.
  intros Hn Hsub. unfold run_round.
  apply Nat.eqb_neq in Hn. rewrite Hn, Hsub, collect_spec. simpl.
  eexists. split; [done|].
  assert (sorted fst (successes (as_completed picks fs)) ≡ₚ successes fs) as Hp.
  { rewrite sorted_Permutation.
    apply successes_Permutation, as_completed_Permutation. }
  split; [done|].
  split; [apply failures_Permutation, as_completed_Permutation|].
  split; [apply sorted_StronglySorted|].
  rewrite Hp, successes_failures_length.
  by eapply submit_all_futures_length.
Qed.

(** X9.  The sort of line 77 compares the indices only and is stable: the
    results of a round that carry the same index are handed on in the order
    in which their tasks completed. *)
Theorem equal_indices_in_completion_order sim round picks ags ags' evs results :
  run_round sim round picks ags = (ags', evs, inr results) →
  ∃ fs,
    submit_all sim round 0 ags = (ags', fs, None)
    ∧ ∀ idx : Z,
        filter (λ x, x.1 = idx) results
        = filter (λ x, x.1 = idx) (successes (as_completed picks fs)).
Proof.
  unfold run_round. destruct (n_thread ags round =? 0); [done|].
  destruct (submit_all sim round 0 ags) as [[ags1 fs] [e|]] eqn:Hsub; [done|].
  rewrite collect_spec. simpl. intros [= <- <- <-].
  exists fs. split; [done|]. intros idx. apply sorted_filter.
Qed.

(** * A question that cannot be generated *)

Lemma submit_all_error sim round i ags ags' fs e :
  submit_all sim round i ags = (ags', fs, Some e) →
  length fs < length ags
  ∧ drop (S (length fs)) ags' = drop (S (length fs)) ags
  ∧ ∃ a, ags !! length fs = Some a
         ∧ generate_question a round = (default a (ags' !! length fs), inl e).
Proof.
  revert i ags' fs. induction ags as [|a rest IH]; intros i ags' fs; simpl.
  - done.
  - destruct (generate_question a round) as [a1 [e'|q]] eqn:Hq.
    + intros [= <- <- <-]. simpl. split; [lia|]. split; [done|].
      exists a. by rewrite Hq.
    + destruct (answer a1 q i round sim) as [a2 out].
      destruct (submit_all sim round (S i) rest) as [[rest' fs'] err'] eqn:Hrest.
      intros [= <- <- ->]. simpl.
      destruct (IH _ _ _ Hrest) as (Hlt & Hdrop & a' & Ha' & Hq').
      split; [lia|]. split; [done|]. by exists a'.
Qed.

(** X10.  When [generate_question] raises for an agent the round is given
    up at once: the tasks submitted before it have run, but what they
    returned or raised is neither collected nor printed, the agents after it
    are not asked and are left as they were, nothing is counted, and the
    exception goes to the handlers of [run_once]. *)
Theorem question_failure_abandons_round sim round picks ags ags' fs e sh :
  round < rounds args →
  submit_all sim round 0 ags = (ags', fs, Some e) →
  thread_step picks sh (Build_Thread sim ags (PRound round))
  = Some (Build_Thread sim ags' (raise_in_try e), sh,
          [EvRound sim round (n_thread ags round)])
  ∧ length fs < length ags
  ∧ length ags' = length ags
  ∧ drop (S (length fs)) ags' = drop (S (length fs)) ags
  ∧ ∃ a, ags !! length fs = Some a
         ∧ generate_question a round = (default a (ags' !! length fs), inl e).
Proof.
  intros Hr Hsub.
  destruct (submit_all_error _ _ _ _ _ _ _ Hsub) as (Hlt & Hdrop & Ha).
  split; [|split; [done|split; [by eapply submit_all_agents_length|done]]].
  unfold thread_step. simpl. apply Nat.ltb_lt in Hr. rewrite Hr.
  unfold run_round.
  assert ((n_thread ags round =? 0) = false) as ->.
  { apply Nat.eqb_neq. unfold n_thread. destruct (round <? 4); lia. }
  by rewrite Hsub.
Qed.

(** * The progress bar is closed *)

Lemma reachable_close_inv st : reachable st → close_inv st.
Proof.
  induction 1 as [|st c st' Hreach IH Hstep]; [done|].
  pose proof (reachable_wf _ Hreach) as [Hmain Hsim].
  apply step_inv in Hstep as [[k Hstep]|(j & picks & tj & tj' & sh' & evs & Htj & Hstep & ->)].
  - unfold main_inv in Hmain. unfold close_inv in *.
    apply main_step_inv in Hstep
      as [(Hm & _ & ->)|[(Hm & _ & ->)|[(Hm & ->)|[(pending & i' & t' & o & Hm & _ & _ & _ & ->)
         |[(e & Hm & ->)|(Hm & ->)]]]]]; rewrite Hm in *; simpl.
    + done.
    + done.
    + destruct Hmain as (Hpos & _).
      destruct (Nat.eqb_spec (n_exp args) 0); [lia|]. by exists (log st).
    + rewrite count_app, IH. by destruct o.
    + destruct Hmain as (-> & _). simpl. rewrite count_app, IH. done.
    + destruct (n_exp args =? 0).
      * rewrite count_app, IH. done.
      * destruct IH as (l & -> & Hl). exists l, (record (shared st)).
        by rewrite <- app_assoc.
  - unfold close_inv in *. simpl.
    pose proof (thread_step_sim _ _ _ _ _ _ Hstep) as [_ Hevs].
    assert (count is_close evs = 0) as Hc.
    { apply count_none. eapply Forall_impl; [exact Hevs|]. by intros []. }
    assert (¬ Forall is_done (threads st)) as Hnd.
    { intros Hd. rewrite Forall_forall in Hd.
      apply (thread_step_not_done _ _ _ _ _ _ Hstep), Hd.
      by eapply list_elem_of_lookup_2. }
    unfold main_inv in Hmain.
    destruct (main st); try (rewrite count_app, IH, Hc; done).
    + by destruct Hmain as [_ Hd].
    + by destruct Hmain as [_ Hd].
Qed.

(** X11.  The progress bar is closed once every simulation is over, once,
    and right before [exp_postprocess]: when it has been closed every task
    is done, so that the counter is not touched any more; at the end of a
    run of at least one simulation the trace ends with the closing of the
    bar and the call of [exp_postprocess]; a run of no simulation, whose
    executor cannot be built, never closes it. *)
Theorem progress_closed_last st :
  reachable st →
  (EvClose ∈ log st → 0 < n_exp args ∧ Forall is_done (threads st))
  ∧ (finished st → 0 < n_exp args →
     ∃ l r outcome,
       log st = l ++ [EvClose; EvExpPostprocess r outcome]
       ∧ count is_close l = 0)
  ∧ (n_exp args = 0 → count is_close (log st) = 0).
Proof.
  intros Hreach.
  pose proof (reachable_close_inv st Hreach) as Hinv.
  destruct (reachable_wf st Hreach) as [Hmain _].
  unfold close_inv in Hinv. unfold main_inv in Hmain.
  assert (∀ l, EvClose ∈ l → count is_close l ≠ 0) as Hcount.
  { intros l. induction l as [|x l IH]; intros Hin.
    - by apply elem_of_nil in Hin.
    - apply elem_of_cons in Hin as [<-|Hin]; simpl; [lia|].
      specialize (IH Hin). destruct (is_close x); lia. }
  split; [|split].
  - intros Hin. specialize (Hcount _ Hin).
    destruct (main st); try done;
      destruct (Nat.eqb_spec (n_exp args) 0); try done;
      destruct Hmain as [_ Hd]; split; done || lia.
  - intros Hfin Hpos. unfold finished in Hfin.
    destruct (main st); try done.
    destruct (Nat.eqb_spec (n_exp args) 0); [lia|].
    destruct Hinv as (l & r & -> & Hl). by exists l, r, outcome.
  - intros H0. destruct (main st); try done; by rewrite H0 in Hinv.
Qed.

(** * Saving the record *)

Lemma bind_inv {A B} (m : IO A) (k : A → IO B) fs fs' evs out :
  (m ≫= k) fs = (fs', evs, out) →
  (∃ e, m fs = (fs', evs, inl e) ∧ out = inl e)
  ∨ (∃ fs1 evs1 a evs2,
       m fs = (fs1, evs1, inr a) ∧ k a fs1 = (fs', evs2, out)
       ∧ evs = evs1 ++ evs2).
Proof.
  unfold mbind, io_bind. destruct (m fs) as [[fs1 evs1] [e|a]].
  - intros [= <- <- <-]. left. by exists e.
  - destruct (k a fs1) as [[fs2 evs2] out2] eqn:Hk. intros [= <- <- <-].
    right. by exists fs1, evs1, a, evs2.
Qed.

Lemma call_inv op ev fs fs' evs out :
  call op ev fs = (fs', evs, out) →
  (∃ e, evs = [ev (Some e)] ∧ out = inl e)
  ∨ (evs = [ev None] ∧ out = inr ()).
Proof.
  unfold call. destruct (op fs) as [fs1 [e|]]; intros [= <- <- <-]; eauto.
Qed.

Lemma dump_to_runs r path fs fs' evs out :
  dump_to r path fs = (fs', evs, out) → dump_to_run r path evs out.
Proof.
  unfold dump_to. intros H.
  apply bind_inv in H as [(e & H & ->)|(fs1 & evs1 & [] & evs2 & H1 & H2 & ->)].
  - apply call_inv in H as [(e' & -> & [= <-])|(_ & [=])]. constructor.
  - apply call_inv in H1 as [(e' & _ & [=])|(-> & _)].
    apply call_inv in H2 as [(e' & -> & ->)|(-> & ->)]; constructor.
Qed.

Lemma save_to_runs r output_dir fs fs' evs out :
  save_to r output_dir fs = (fs', evs, out) →
  save_to_run r output_dir (path_exists fs output_dir) evs out.
Proof.
  unfold save_to. intros H.
  apply bind_inv in H as [(e & H & ->)|(fs1 & evs1 & found & evs2 & H1 & H & ->)];
    [done|].
  unfold os_path_exists in H1. injection H1 as <- <- <-.
  set (found := path_exists fs output_dir) in *.
  apply bind_inv in H as [(e & H & ->)|(fs2 & evs3 & [] & evs4 & Hmk & H & ->)].
  { destruct found eqn:Hfound; [done|]. unfold os_makedirs in H.
    apply call_inv in H as [(e' & -> & [= <-])|(_ & [=])]. by constructor. }
  assert (IoExists output_dir found :: evs3 = dir_ready output_dir found)
    as Hready.
  { unfold dir_ready. destruct found.
    - by injection Hmk as <- <-.
    - unfold os_makedirs in Hmk.
      by apply call_inv in Hmk as [(e' & _ & [=])|(-> & _)]. }
  clear Hmk.
  change ([IoExists output_dir found] ++ evs3 ++ evs4)
    with ((IoExists output_dir found :: evs3) ++ evs4).
  rewrite Hready. clear Hready evs3.
  apply bind_inv in H as [(e & H & ->)|(fs3 & evs5 & [] & evs6 & Hd & H & ->)].
  { apply dump_to_runs in H. inversion H; subst; constructor. }
  apply dump_to_runs in Hd. inversion Hd; subst. clear Hd.
  apply bind_inv in H as [(e & H & ->)|(fs4 & evs7 & [] & evs8 & Hp & H & ->)].
  { apply call_inv in H as [(e' & -> & [= <-])|(_ & [=])]. constructor. }
  apply call_inv in Hp as [(e' & _ & [=])|(-> & _)].
  apply call_inv in H as [(e' & -> & ->)|(-> & ->)].
  - apply str_html.
  - apply str_ok.
Qed.

Lemma save_record_runs r output_dir fs fs' evs out :
  save_record r output_dir fs = (fs', evs, out) →
  save_record_run r output_dir (path_exists fs output_dir) evs out.
Proof.
  unfold save_record, try_except.
  destruct (save_to r output_dir fs) as [[fs1 evs1] [e|[]]] eqn:Hbody;
    apply save_to_runs in Hbody.
  - destruct (is_Exception e) eqn:He.
    + match goal with
      | |- context [(?m ≫= ?k) fs1] =>
          destruct ((m ≫= k) fs1) as [[fs2 evs2] out2] eqn:Hh
      end.
      intros [= <- <- <-].
      apply bind_inv in Hh as [(e' & Hh & ->)|(fs3 & evs3 & [] & evs4 & H1 & Hh & ->)];
        [done|].
      injection H1 as <- <-.
      apply bind_inv in Hh as [(e' & Hh & ->)|(fs4 & evs5 & [] & evs6 & H2 & Hh & ->)];
        [done|].
      injection H2 as <- <-.
      apply dump_to_runs in Hh.
      by apply (srr_backup r output_dir _ evs1 e evs6 out2).
    + intros [= <- <- <-]. by apply srr_through.
  - intros [= <- <- <-]. by apply srr_ok.
Qed.

(** The ways [save_record] goes, one by one, with the traces written
    out. *)
Ltac run_cases H :=
  apply save_record_runs in H;
  match type of H with
  | save_record_run _ _ ?found _ _ => destruct found eqn:?
  end;
  inversion H as [? Hb|? ? Hb ?|? ? ? ? Hb ? Hd]; subst;
  inversion Hb; subst; try (inversion Hd; subst); simplify_eq;
  unfold dir_ready, saved_and_rendered, saved_to, fallback_notice in *;
  simpl in *.

(** The last element of a list that is written out, apart. *)
Ltac split_last l k :=
  let rec go pre l :=
    lazymatch l with
    | [?x] => k pre x
    | ?x :: ?l' => go (pre ++ [x]) l'
    end in
  go (@nil IOEvent) l.

(** A list that is written out, around the notice of the handler. *)
Ltac split_notice l k :=
  let rec go pre l :=
    lazymatch l with
    | IoPrint (String.append _ (message ?e0)) :: IoPrint _ :: ?rest =>
        k e0 pre rest
    | ?x :: ?l' => go (pre ++ [x]) l'
    end in
  go (@nil IOEvent) l.

(** Membership in a list that is written out, case by case. *)
Ltac elem_cases :=
  repeat match goal with
  | H : _ ∈ [] |- _ => by apply elem_of_nil in H
  | H : _ ∈ _ :: _ |- _ => apply elem_of_cons in H as [H|H]; simplify_eq
  | H : _ ∨ _ |- _ => destruct H as [H|H]
  end.

(** X12.  [save_record] lets no [Exception] of its [try] block through: the
    exception it raises is the one of the last operation it made, and when
    it is an [Exception] that operation is the opening or the writing of the
    backup file, after the notice of the handler was printed. *)
Theorem save_record_raises r output_dir fs fs' evs e :
  save_record r output_dir fs = (fs', evs, inl e) →
  ∃ evs0 ev,
    evs = evs0 ++ [ev] ∧ io_raised ev = Some e
    ∧ (is_Exception e = true →
       (ev = IoOpen backup_file (Some e) ∨ ev = IoDump backup_file r (Some e))
       ∧ ∃ e0 evs1 evs2,
           is_Exception e0 = true
           ∧ evs0 = evs1 ++ fallback_notice e0 ++ evs2).
Proof.
  intros Hsave. run_cases Hsave.
  all: match goal with
       | |- ∃ evs0 ev, ?l = _ ∧ _ =>
           split_last l ltac:(fun pre x => exists pre, x)
       end.
  all: split; [done|]; split; [done|]; intros He; try congruence.
  all: split; [by (left + right)|].
  all: match goal with
       | |- ∃ e0 evs1 evs2, _ ∧ ?l = _ =>
           let l' := eval simpl in l in
           split_notice l' ltac:(fun e0 pre rest => exists e0, pre, rest)
       end.
  all: by split.
Qed.

(** X13.  When [save_record] returns, the record has been pickled without
    an exception: either into [data.p] of the output directory, which was
    there or was created, with the plot and the page made after it and
    nothing printed; or, after an [Exception] of one of those operations and
    the notice of the handler, into the backup file. *)
Theorem save_record_returns r output_dir fs fs' evs :
  save_record r output_dir fs = (fs', evs, inr ()) →
  evs = saved_and_rendered r output_dir (path_exists fs output_dir)
  ∨ ∃ evs0 ev e,
      evs = evs0 ++ [ev] ++ fallback_notice e ++ saved_to r backup_file
      ∧ io_raised ev = Some e ∧ is_Exception e = true.
Proof.
  intros Hsave. run_cases Hsave.
  all: try (by left).
  all: right.
  all: match goal with
       | |- ∃ evs0 ev e, ?l = _ ∧ _ =>
           split_notice l ltac:(fun e0 pre rest =>
             let pre' := eval simpl in pre in
             split_last pre' ltac:(fun pre0 x => exists pre0, x, e0))
       end.
  all: by repeat split.
Qed.

(** X14.  When [plot_result] or [gen_html] raises an [Exception] the record
    is pickled a second time: [data.p] had been written without an
    exception, and still the notice is printed and the backup file is
    opened. *)
Theorem rendering_failure_saves_twice r output_dir fs fs' evs out e :
  save_record r output_dir fs = (fs', evs, out) →
  is_Exception e = true →
  IoPlot (data_file output_dir) output_dir (Some e) ∈ evs
  ∨ IoHtml (data_file output_dir) output_dir (Some e) ∈ evs →
  ∃ evs0 evs1 raised,
    evs = evs0 ++ fallback_notice e ++ IoOpen backup_file raised :: evs1
    ∧ IoDump (data_file output_dir) r None ∈ evs0.
Proof.
  intros Hsave He Hin. run_cases Hsave; elem_cases; try congruence.
  all: match goal with
       | |- ∃ evs0 evs1 raised, ?l = _ ∧ _ =>
           split_notice l ltac:(fun e0 pre rest =>
             lazymatch rest with
             | IoOpen _ ?raised :: ?rest' => exists pre, rest', raised
             end)
       end.
  all: split; [done|]; simpl; by repeat constructor.
Qed.

(** What [save_record] pickles is the record it was given, into one of its
    two files. *)
Lemma save_record_dumps r output_dir fs fs' evs out path r' raised :
  save_record r output_dir fs = (fs', evs, out) →
  IoDump path r' raised ∈ evs →
  r' = r ∧ (path = data_file output_dir ∨ path = backup_file).
Proof.
  intros Hsave Hin. run_cases Hsave; elem_cases; eauto.
Qed.

(** X15.  [save_record] does nothing out of turn: it creates the output
    directory only when [os.path.exists] did not find it; it pickles only
    the record, and only into a file it has just opened without an
    exception; it plots only after [data.p] was written without an
    exception, and makes the page only after the plot was made without
    one. *)
Theorem save_record_in_order r output_dir fs fs' evs out :
  save_record r output_dir fs = (fs', evs, out) →
  (∀ path raised,
     IoMakedirs path raised ∈ evs →
     path = output_dir ∧ path_exists fs output_dir = false)
  ∧ (∀ path r' raised,
       IoDump path r' raised ∈ evs → r' = r ∧ IoOpen path None ∈ evs)
  ∧ (∀ d o raised,
       IoPlot d o raised ∈ evs →
       d = data_file output_dir ∧ o = output_dir ∧ IoDump d r None ∈ evs)
  ∧ (∀ d o raised, IoHtml d o raised ∈ evs → IoPlot d o None ∈ evs).
Proof.
  intros Hsave. run_cases Hsave.
  all: repeat split; intros; elem_cases; try done; by repeat constructor.
Qed.

(** X16.  What [save_record] writes at any moment of a run is the record
    as the calls of [update_record], in the order in which they held the
    lock, and the call of [exp_postprocess] have left it, starting from the
    empty record of [__init__]; once [run] is over that is the record
    [exp_postprocess] returned. *)
Theorem saved_record_is_replay st output_dir fs fs' evs out path r' raised :
  reachable st →
  save_record (record (shared st)) output_dir fs = (fs', evs, out) →
  IoDump path r' raised ∈ evs →
  r' = replay (log st)
  ∧ (path = data_file output_dir ∨ path = backup_file)
  ∧ (finished st →
     ∃ l outcome,
       log st = l ++ [EvExpPostprocess (replay l) outcome]
       ∧ r' = (exp_postprocess (replay l)).1).
Proof.
  intros Hreach Hsave Hin.
  destruct (save_record_dumps _ _ _ _ _ _ _ _ _ Hsave Hin) as [-> Hpath].
  destruct (reachable_shared_inv st Hreach) as (_ & _ & Hrec & _).
  split; [done|]. split; [done|].
  intros Hfin. pose proof (reachable_final_inv st Hreach) as Hfinal.
  unfold finished in Hfin. unfold final_inv in Hfinal.
  destruct (main st); try done.
  destruct Hfinal as (l & Hlog & _). exists l, outcome. split; [done|].
  rewrite Hrec, Hlog, replay_app. done.
Qed.

(** * A simulation in which nothing fails, among others *)





End Engine.

(** * A small experiment, to run the definitions on *)

(** Agents that count the questions they answered; the question of a round
    is its index; the record is the list of what was folded in.  How many
    agents a simulation has and what is to go wrong are parameters. *)
Record Faults := {
  n_agents : nat;
  bad_task : option (nat * nat * nat);      (* simulation, round, agent *)
  bad_agents : option nat;                  (* simulation *)
  bad_postprocess : option (nat * nat)      (* simulation, round *)
}.

Definition no_faults : Faults := Build_Faults 3 None None None.

Definition demo_agent (f : Faults) : AgentOps nat nat nat nat := {|
  answer a q i r s :=
    if decide (bad_task f = Some (s, r, i))
    then (a, inl (Exn true "no answer"))
    else (S a, inr (Z.of_nat i, q + a));
  get_memories a := inr a
|}.

Definition demo_template (f : Faults)
  : TemplateOps nat nat nat nat (list (nat * list nat)) := {|
  empty_record := [];
  generate_question a r := (a, inr r);
  generate_agents s :=
    if decide (bad_agents f = Some s) then inl (Exn true "no agents")
    else inr (replicate (n_agents f) 0);
  update_record r contexts s := (r ++ [(s, contexts)], None);
  round_postprocess s r results ags :=
    (ags, if decide (bad_postprocess f = Some (s, r))
          then Some (Exn true "postprocess") else None);
  exp_postprocess r := (r, None)
|}.

Lemma demo_answer_returns_index f :
  @answer_returns_index nat nat nat nat (demo_agent f).
Proof.
  intros a q i r s a' idx res. simpl. case_decide; congruence.
Qed.

Local Abbreviation DemoState :=
  (@State nat nat nat (list (nat * list nat))).
Local Abbreviation demo_exec f args :=
  (@exec nat nat nat nat (list (nat * list nat)) (demo_agent f)
     (demo_template f) args).
Local Abbreviation demo_init f :=
  (@init nat nat nat nat (list (nat * list nat)) (demo_template f)).
Local Abbreviation demo_reachable f args :=
  (@reachable nat nat nat nat (list (nat * list nat)) (demo_agent f)
     (demo_template f) args).

(** Three agents, six rounds, two simulations. *)
Definition demo_args : Args := Build_Args 3 6 2.

(** The state a schedule leads to. *)
Definition demo_state (f : Faults) (cs : list Choice) : DemoState :=
  default (demo_init f) (demo_exec f demo_args cs (demo_init f)).

(** The candidates of the round-robin scheduler: [run] and the two
    simulations, whose tasks complete last first. *)
Definition demo_candidates : list Choice :=
  [CMain 0; CSim 1 [2; 1]; CSim 0 [2; 1]].

Definition demo_schedule (f : Faults) : list Choice :=
  @round_robin nat nat nat nat (list (nat * list nat)) (demo_agent f)
    (demo_template f) demo_args 200 0 demo_candidates (demo_init f).

(** Simulation 0 up to its first call of [round_postprocess]. *)
Definition first_round : list Choice :=
  [CMain 0; CSim 0 []; CSim 0 [2; 0; 1]; CSim 0 []; CSim 0 []].

Example first_round_log :
  log (demo_state no_faults first_round)
  = [EvGenerateAgents 0 None; EvRound 0 0 3; EvProgress 0 0;
     EvRoundPostprocess 0 0 [(0%Z, 0); (1%Z, 0); (2%Z, 0)] None].
Proof. reflexivity. Qed.

Example demo_run_finishes :
  main (demo_state no_faults (demo_schedule no_faults)) = MDone None
  ∧ progress (shared (demo_state no_faults (demo_schedule no_faults))) = 12
  ∧ record (shared (demo_state no_faults (demo_schedule no_faults)))
    = [(1, [6; 6; 6]); (0, [6; 6; 6])].
Proof. vm_compute. done. Qed.

(** The indices of the results every call of [round_postprocess] of a trace
    received. *)
Definition postprocessed_indices (l : list (@Event nat nat (list (nat * list nat))))
  : list (list Z) :=
  omap (λ ev, match ev with
              | EvRoundPostprocess _ _ results _ => Some (fst <$> results)
              | _ => None
              end) l.

Example demo_run_results :
  postprocessed_indices (log (demo_state no_faults (demo_schedule no_faults)))
  = replicate 12 [0; 1; 2]%Z.
Proof. vm_compute. done. Qed.

Lemma demo_state_reachable f cs :
  is_Some (demo_exec f demo_args cs (demo_init f)) →
  demo_reachable f demo_args (demo_state f cs).
Proof.
  intros [st Hst]. unfold demo_state. rewrite Hst. simpl.
  eapply exec_reachable; [apply reachable_init|exact Hst].
Qed.

Lemma round_results_sorted_witness :
  StronglySorted Z.lt (fst <$> [(0%Z, 0); (1%Z, 0); (2%Z, 0)])
  ∧ ∃ ags, ∀ picks, ∃ ags' evs,
      @run_round nat nat nat nat (list (nat * list nat)) (demo_agent no_faults)
        (demo_template no_faults) 0 0 picks ags
      = (ags', evs, inr [(0%Z, 0); (1%Z, 0); (2%Z, 0)]).
Proof.
  apply (round_results_sorted demo_args (demo_state no_faults first_round)
           0 0 [(0%Z, 0); (1%Z, 0); (2%Z, 0)] None).
  - apply demo_answer_returns_index.
  - apply demo_state_reachable. vm_compute. eauto.
  - apply list_elem_of_lookup. exists 3. reflexivity.
Defined.

(** In round 1 of simulation 0 the task of agent 1 raises. *)
Definition task_fault : Faults := Build_Faults 3 (Some (0, 1, 1)) None None.

Lemma one_task_error_witness :
  ∃ results,
    (@thread_step nat nat nat nat (list (nat * list nat)) (demo_agent task_fault)
       (demo_template task_fault) demo_args [2; 0] (Build_Shared 1 [] false)
       (Build_Thread 0 [1; 1; 1] (PRound 1))
     = Some (Build_Thread 0 [2; 1; 2] (PProgress 1 results),
             Build_Shared 1 [] false,
             [EvRound 0 1 3; EvTaskError 0 1 (Exn true "no answer")]))
    ∧ (length results = 2)
    ∧ (1%Z ∉ fst <$> results)
    ∧ (∀ k x, [inr (0%Z, 2); inl (Exn true "no answer"); inr (2%Z, 2)] !! k
              = Some (inr x) → x ∈ results)
    ∧ (∀ k, k < 3 → k ≠ 1 → Z.of_nat k ∈ fst <$> results).
Proof.
  apply (one_task_error demo_args 0 1 [2; 0] [1; 1; 1] [2; 1; 2]
           [inr (0%Z, 2); inl (Exn true "no answer"); inr (2%Z, 2)]
           1 (Exn true "no answer") (Build_Shared 1 [] false)).
  - apply demo_answer_returns_index.
  - simpl. lia.
  - reflexivity.
  - split; [reflexivity|].
    intros [|[|[|k]]] e'; simpl; intros; simplify_eq; reflexivity.
Defined.

(** In round 2 of simulation 0 [round_postprocess] raises. *)
Definition postprocess_fault : Faults := Build_Faults 3 None None (Some (0, 2)).

(** [generate_agents] raises for simulation 1. *)
Definition agents_fault : Faults := Build_Faults 3 None (Some 1) None.

(** The state at the end of the round-robin run. *)
Definition demo_final (f : Faults) : DemoState := demo_state f (demo_schedule f).

Lemma demo_final_reachable f :
  is_Some (demo_exec f demo_args (demo_schedule f) (demo_init f)) →
  demo_reachable f demo_args (demo_final f).
Proof. apply demo_state_reachable. Qed.

Example postprocess_fault_run :
  progress (shared (demo_final postprocess_fault)) = 9
  ∧ record (shared (demo_final postprocess_fault))
    = [(1, [6; 6; 6]); (0, [3; 3; 3])].
Proof. vm_compute. done. Qed.

(** No agent at all: the executor of round 0 cannot be built, the
    [ValueError] ends the rounds of each simulation and no round is counted. *)
Definition no_agents : Faults := Build_Faults 0 None None None.

Example no_agents_run :
  progress (shared (demo_final no_agents)) = 0
  ∧ trace_of 0 (log (demo_final no_agents))
    = [EvGenerateAgents 0 None; EvRound 0 0 0; EvError 0 ValueError_max_workers]
      ++ cleanup 0 [] None
  ∧ record (shared (demo_final no_agents)) = [(1, []); (0, [])].
Proof. vm_compute. done. Qed.

Example agents_fault_run :
  progress (shared (demo_final agents_fault)) = 6
  ∧ record (shared (demo_final agents_fault)) = [(0, [6; 6; 6])]
  ∧ reports 1 (log (demo_final agents_fault)) = [Exn true "no agents"].
Proof. vm_compute. done. Qed.

Lemma demo_no_failures :
  @no_failures nat nat nat nat (list (nat * list nat)) (demo_agent no_faults)
    (demo_template no_faults) demo_args 3.
Proof.
  constructor; simpl; intros; eauto.
  - unfold memories_total. simpl. eauto.
  - unfold n_thread. destruct (round <? 4); lia.
Qed.

Lemma complete_without_failures_witness :
  runs_to_end (AgentOps0:=demo_agent no_faults)
    (TemplateOps0:=demo_template no_faults) demo_args (demo_final no_faults)
  ∧ (∀ s r results o,
       EvRoundPostprocess s r results o ∈ log (demo_final no_faults) →
       length results = 3)
  ∧ (finished (demo_final no_faults) →
     progress (shared (demo_final no_faults)) = 2 * 6
     ∧ (∀ i, i < 2 →
          count is_update (trace_of i (log (demo_final no_faults))) = 1)
     ∧ count is_update (log (demo_final no_faults)) = 2
     ∧ record (shared (demo_final no_faults))
       = replay (TemplateOps0:=demo_template no_faults)
           (log (demo_final no_faults))).
Proof.
  apply (complete_without_failures demo_args 3 (demo_final no_faults)).
  - apply demo_no_failures.
  - apply demo_final_reachable. vm_compute. eauto.
Defined.

Lemma demo_memories_total f : memories_total (AgentOps0:=demo_agent f).
Proof. intros a. simpl. eauto. Qed.

Lemma cleanup_once_witness :
  ∃ t h contexts raised,
    threads (demo_final postprocess_fault) !! 0 = Some t
    ∧ rounds_left 0 h
    ∧ agent_contexts (AgentOps0:=demo_agent postprocess_fault)
        (thread_agents t) = inr contexts
    ∧ trace_of 0 (log (demo_final postprocess_fault))
      = h ++ cleanup 0 contexts raised.
Proof.
  apply (@cleanup_once nat nat nat nat (list (nat * list nat))
           (demo_agent postprocess_fault) (demo_template postprocess_fault)
           demo_args (demo_final postprocess_fault) 0).
  - apply demo_final_reachable. vm_compute. eauto.
  - by vm_compute.
  - simpl. lia.
  - vm_compute. eauto.
  - apply demo_memories_total.
Defined.

Lemma run_finalizes_witness :
  runs_to_end (AgentOps0:=demo_agent agents_fault)
    (TemplateOps0:=demo_template agents_fault) demo_args
    (demo_final agents_fault)
  ∧ (finished (demo_final agents_fault) →
     length (threads (demo_final agents_fault)) = 2
     ∧ (∀ i t, threads (demo_final agents_fault) !! i = Some t →
          simulation_ind t = i ∧ is_done t
          ∧ reports i (log (demo_final agents_fault)) = raised_by t)
     ∧ ∃ l outcome,
         main (demo_final agents_fault) = MDone outcome
         ∧ log (demo_final agents_fault)
           = l ++ [EvExpPostprocess
                     (replay (TemplateOps0:=demo_template agents_fault) l)
                     outcome]
         ∧ count is_exp_postprocess l = 0
         ∧ (2 = 0 → l = [EvFault ValueError_max_workers])).
Proof.
  apply (@run_finalizes nat nat nat nat (list (nat * list nat))
           (demo_agent agents_fault) (demo_template agents_fault)
           demo_args (demo_final agents_fault)).
  apply demo_final_reachable. vm_compute. eauto.
Defined.

Lemma rounds_sequential_witness :
  round_tags (trace_of 0 (log (demo_final no_faults))) `prefix_of` full_rounds 6
  ∧ ∀ round n l1 l2,
      trace_of 0 (log (demo_final no_faults)) = l1 ++ EvRound 0 round n :: l2 →
      round_tags l1 = full_rounds round.
Proof.
  apply (@rounds_sequential nat nat nat nat (list (nat * list nat))
           (demo_agent no_faults) (demo_template no_faults)
           demo_args (demo_final no_faults) 0).
  apply demo_final_reachable. vm_compute. eauto.
Defined.

(** Both simulations have read their memories; simulation 1 is inside
    [update_record] and simulation 0 waits for the lock. *)
Definition during_fold_in : list Choice :=
  [CMain 0] ++ replicate 21 (CSim 0 []) ++ replicate 23 (CSim 1 []).

Example during_fold_in_state :
  at_pc <$> threads (demo_state no_faults during_fold_in)
  = [PAcquire None [6; 6; 6]; PUpdateReturn None [6; 6; 6] []]
  ∧ lock (shared (demo_state no_faults during_fold_in)) = true
  ∧ step (AgentOps0:=demo_agent no_faults)
      (TemplateOps0:=demo_template no_faults) demo_args (CSim 0 [])
      (demo_state no_faults during_fold_in)
    = None.
Proof. vm_compute. done. Qed.

Lemma fold_in_exclusive_witness :
  (∀ i j ti tj,
     threads (demo_state no_faults during_fold_in) !! i = Some ti →
     threads (demo_state no_faults during_fold_in) !! j = Some tj →
     holds_lock ti → holds_lock tj → i = j)
  ∧ (∀ i t, threads (demo_state no_faults during_fold_in) !! i = Some t →
       holds_lock t →
       lock (shared (demo_state no_faults during_fold_in)) = true)
  ∧ (∀ i t pending contexts seen,
       threads (demo_state no_faults during_fold_in) !! i = Some t →
       at_pc t = PUpdateReturn pending contexts seen →
       record (shared (demo_state no_faults during_fold_in)) = seen)
  ∧ record (shared (demo_state no_faults during_fold_in))
    = replay (TemplateOps0:=demo_template no_faults)
        (log (demo_state no_faults during_fold_in))
  ∧ (∀ i, count is_update
            (trace_of i (log (demo_state no_faults during_fold_in))) ≤ 1)
  ∧ (finished (demo_state no_faults during_fold_in) →
     (∀ i, i < 2 →
        is_Some (generate_agents_ok
                   (TemplateOps0:=demo_template no_faults) i)) →
     memories_total (AgentOps0:=demo_agent no_faults) →
     (∀ i, i < 2 →
        count is_update
          (trace_of i (log (demo_state no_faults during_fold_in))) = 1)
     ∧ count is_update (log (demo_state no_faults during_fold_in)) = 2).
Proof.
  apply (@fold_in_exclusive nat nat nat nat (list (nat * list nat))
           (demo_agent no_faults) (demo_template no_faults)
           demo_args (demo_state no_faults during_fold_in)).
  apply demo_state_reachable. vm_compute. eauto.
Defined.

Lemma agents_raise_witness :
  (∀ picks sh ags,
     thread_step (AgentOps0:=demo_agent agents_fault)
       (TemplateOps0:=demo_template agents_fault) demo_args picks sh
       (Build_Thread 1 ags PStart)
     = Some (Build_Thread 1 [] (PDone (Some (Exn true "no agents"))), sh,
             [EvGenerateAgents 1 (Some (Exn true "no agents"))]))
  ∧ (∀ ev, ev ∈ log (demo_final agents_fault) → ev_sim ev = Some 1 →
       ev = EvGenerateAgents 1 (Some (Exn true "no agents")))
  ∧ (∀ t, threads (demo_final agents_fault) !! 1 = Some t →
       at_pc t = PStart ∨ at_pc t = PDone (Some (Exn true "no agents")))
  ∧ (finished (demo_final agents_fault) → 1 < 2 →
     reports 1 (log (demo_final agents_fault)) = [Exn true "no agents"]).
Proof.
  apply (@agents_raise nat nat nat nat (list (nat * list nat))
           (demo_agent agents_fault) (demo_template agents_fault)
           demo_args (demo_final agents_fault) 1 (Exn true "no agents")).
  - reflexivity.
  - apply demo_final_reachable. vm_compute. eauto.
Defined.

Lemma counted_before_postprocess_witness :
  (∃ h0 h2,
     trace_of 0 (log (demo_final postprocess_fault))
     = h0 ++ [EvProgress 0 2;
              EvRoundPostprocess 0 2 [(0%Z, 4); (1%Z, 4); (2%Z, 4)]
                (Some (Exn true "postprocess"))] ++ h2
     ∧ count is_progress h0 = 2
     ∧ round_tags h2 = [])
  ∧ count is_progress (trace_of 0 (log (demo_final postprocess_fault))) = 3
  ∧ progress (shared (demo_final postprocess_fault))
    = sum_upto 2
        (λ j, count is_progress (trace_of j (log (demo_final postprocess_fault)))).
Proof.
  apply (@counted_before_postprocess nat nat nat nat (list (nat * list nat))
           (demo_agent postprocess_fault) (demo_template postprocess_fault)
           demo_args (demo_final postprocess_fault) 0 2
           [(0%Z, 4); (1%Z, 4); (2%Z, 4)] (Exn true "postprocess")).
  - apply demo_final_reachable. vm_compute. eauto.
  - apply list_elem_of_In. vm_compute.
    repeat first [left; reflexivity|right].
Defined.

(** * Saving the record of the small experiment *)

(** A file system that is a list of the paths that exist; it may be
    read-only, and [plot_result] may fail. *)
Record FileFaults := { read_only : bool; bad_plot : bool }.

Definition demo_files (ff : FileFaults)
  : FileOps (list (nat * list nat)) (list string) := {|
  path_exists fs path := bool_decide (path ∈ fs);
  makedirs fs path :=
    if read_only ff then (fs, Some (Exn true "Permission denied"))
    else (path :: fs, None);
  open_wb fs path :=
    if read_only ff then (fs, Some (Exn true "Permission denied"))
    else (path :: fs, None);
  pickle_dump fs r path := (fs, None);
  plot_result fs data_file output_dir :=
    if bad_plot ff then (fs, Some (Exn true "no display"))
    else (String.append output_dir "/plot.png" :: fs, None);
  gen_html fs data_file output_dir :=
    (String.append output_dir "/index.html" :: fs, None)
|}.

Definition writable : FileFaults := Build_FileFaults false false.
Definition locked : FileFaults := Build_FileFaults true false.
Definition headless : FileFaults := Build_FileFaults false true.

(** The record of the experiment is saved into [out]. *)
Definition demo_save (ff : FileFaults) (r : list (nat * list nat)) :=
  save_record (FileOps0:=demo_files ff) r "out" [].

(** An agent that returns 0 as its index, whatever it was given. *)
Definition anonymous_agent : AgentOps nat nat nat nat := {|
  answer a q i r s := (S a, inr (0%Z, i));
  get_memories a := inr a
|}.

(** A template that has no question for the agent whose state is 7. *)
Definition mute_template : TemplateOps nat nat nat nat (list (nat * list nat)) := {|
  empty_record := [];
  generate_question a r :=
    if decide (a = 7) then (a, inl (Exn true "no question")) else (a, inr r);
  generate_agents s := inr [0; 7; 0];
  update_record r contexts s := (r ++ [(s, contexts)], None);
  round_postprocess s r results ags := (ags, None);
  exp_postprocess r := (r, None)
|}.

(** Three agents, no round, two simulations. *)
Definition no_rounds_args : Args := Build_Args 3 0 2.

Definition no_rounds_schedule : list Choice :=
  @round_robin nat nat nat nat (list (nat * list nat)) (demo_agent no_faults)
    (demo_template no_faults) no_rounds_args 200 0 demo_candidates
    (demo_init no_faults).

Definition no_rounds_final : DemoState :=
  default (demo_init no_faults)
    (demo_exec no_faults no_rounds_args no_rounds_schedule (demo_init no_faults)).

Lemma demo_run_reachable f a cs :
  is_Some (demo_exec f a cs (demo_init f)) →
  demo_reachable f a (default (demo_init f) (demo_exec f a cs (demo_init f))).
Proof.
  intros [st Hst]. rewrite Hst. simpl.
  eapply exec_reachable; [apply reachable_init|exact Hst].
Qed.

Example no_rounds_run :
  progress (shared no_rounds_final) = 0
  ∧ record (shared no_rounds_final) = [(1, [0; 0; 0]); (0, [0; 0; 0])].
Proof. vm_compute. done. Qed.

Example demo_save_writable :
  demo_save writable [(1, [6])]
  = (["out/index.html"; "out/plot.png"; "out/data.p"; "out"],
     saved_and_rendered [(1, [6])] "out" false, inr ()).
Proof. reflexivity. Qed.

(** * The properties, on the small experiment *)


Lemma lock_released_witness :
  (lock (shared (demo_state no_faults during_fold_in)) = true →
   ∃ i t, threads (demo_state no_faults during_fold_in) !! i = Some t
          ∧ holds_lock t)
  ∧ (finished (demo_state no_faults during_fold_in) →
     lock (shared (demo_state no_faults during_fold_in)) = false).
Proof.
  apply (lock_released (AgentOps0:=demo_agent no_faults)
           (TemplateOps0:=demo_template no_faults) demo_args
           (demo_state no_faults during_fold_in)).
  apply demo_state_reachable. vm_compute. eauto.
Defined.

Lemma update_calls_serialized_witness :
  ∃ holder,
    lock_run None (log (demo_state no_faults during_fold_in)) = Some holder
    ∧ (∀ i, holder = Some i
            ↔ ∃ t, threads (demo_state no_faults during_fold_in) !! i = Some t
                   ∧ holds_lock t)
    ∧ (finished (demo_state no_faults during_fold_in) → holder = None).
Proof.
  apply (update_calls_serialized (AgentOps0:=demo_agent no_faults)
           (TemplateOps0:=demo_template no_faults) demo_args
           (demo_state no_faults during_fold_in)).
  apply demo_state_reachable. vm_compute. eauto.
Defined.

Lemma reported_exception_origin_witness :
  raised_outside_try 1 (Exn true "no agents") (log (demo_final agents_fault))
  ∨ is_Exception (Exn true "no agents") = false.
Proof.
  apply (reported_exception_origin (AgentOps0:=demo_agent agents_fault)
           (TemplateOps0:=demo_template agents_fault) demo_args
           (demo_final agents_fault) 1 (Exn true "no agents")).
  - apply demo_final_reachable. vm_compute. eauto.
  - apply list_elem_of_In. vm_compute.
    repeat first [left; reflexivity|right].
Defined.

Lemma agents_generated_first_witness :
  (trace_of 0 (log (demo_final no_faults)) = []
   ∨ generated (TemplateOps0:=demo_template no_faults) 0
       (trace_of 0 (log (demo_final no_faults))))
  ∧ (finished (demo_final no_faults) → 0 < 2 →
     generated (TemplateOps0:=demo_template no_faults) 0
       (trace_of 0 (log (demo_final no_faults)))).
Proof.
  apply (agents_generated_first (AgentOps0:=demo_agent no_faults)
           (TemplateOps0:=demo_template no_faults) demo_args
           (demo_final no_faults) 0).
  apply demo_final_reachable. vm_compute. eauto.
Defined.

Lemma simulation_without_agents_witness :
  ∃ raised,
    trace_of 0 (log (demo_final no_agents))
    = [EvGenerateAgents 0 None; EvRound 0 0 0;
       EvError 0 ValueError_max_workers] ++ cleanup 0 [] raised.
Proof.
  apply (simulation_without_agents (AgentOps0:=demo_agent no_agents)
           (TemplateOps0:=demo_template no_agents) demo_args
           (demo_final no_agents) 0).
  - reflexivity.
  - simpl. lia.
  - apply demo_final_reachable. vm_compute. eauto.
  - by vm_compute.
  - simpl. lia.
Defined.

Lemma simulation_without_rounds_witness :
  no_rounds_trace (AgentOps0:=demo_agent no_faults) 0 [0; 0; 0]
    (trace_of 0 (log no_rounds_final)).
Proof.
  apply (simulation_without_rounds (AgentOps0:=demo_agent no_faults)
           (TemplateOps0:=demo_template no_faults) no_rounds_args
           no_rounds_final 0 [0; 0; 0]).
  - reflexivity.
  - reflexivity.
  - apply demo_run_reachable. vm_compute. eauto.
  - by vm_compute.
  - simpl. lia.
Defined.

Lemma round_keeps_every_result_witness :
  ∃ results,
    @run_round nat nat nat nat (list (nat * list nat)) (demo_agent task_fault)
      (demo_template task_fault) 0 1 [2; 0] [1; 1; 1]
    = ([2; 1; 2],
       EvRound 0 1 (n_thread [1; 1; 1] 1)
       :: (EvTaskError 0 1
             <$> failures
                   (as_completed [2; 0]
                      [inr (0%Z, 2); inl (Exn true "no answer"); inr (2%Z, 2)])),
       inr results)
    ∧ results ≡ₚ successes
                   [inr (0%Z, 2); inl (Exn true "no answer"); inr (2%Z, 2)]
    ∧ failures
        (as_completed [2; 0]
           [inr (0%Z, 2); inl (Exn true "no answer"); inr (2%Z, 2)])
      ≡ₚ failures [inr (0%Z, 2); inl (Exn true "no answer"); inr (2%Z, 2)]
    ∧ StronglySorted (key_le fst) results
    ∧ length results
      + length (failures
                  [inr (0%Z, 2); inl (Exn true "no answer"); inr (2%Z, 2)])
      = length [1; 1; 1].
Proof.
  apply (round_keeps_every_result (AgentOps0:=demo_agent task_fault)
           (TemplateOps0:=demo_template task_fault) 0 1 [2; 0] [1; 1; 1]
           [2; 1; 2]
           [inr (0%Z, 2); inl (Exn true "no answer"); inr (2%Z, 2)]).
  - unfold n_thread. simpl. lia.
  - reflexivity.
Defined.

Lemma equal_indices_in_completion_order_witness :
  ∃ fs,
    submit_all (AgentOps0:=anonymous_agent)
      (TemplateOps0:=demo_template no_faults) 0 0 0 [0; 0; 0]
    = ([1; 1; 1], fs, None)
    ∧ ∀ idx : Z,
        filter (λ x, x.1 = idx) [(0%Z, 2); (0%Z, 0); (0%Z, 1)]
        = filter (λ x, x.1 = idx) (successes (as_completed [2; 0] fs)).
Proof.
  apply (equal_indices_in_completion_order (AgentOps0:=anonymous_agent)
           (TemplateOps0:=demo_template no_faults) 0 0 [2; 0] [0; 0; 0]
           [1; 1; 1] [EvRound 0 0 3] [(0%Z, 2); (0%Z, 0); (0%Z, 1)]).
  reflexivity.
Defined.

Lemma question_failure_abandons_round_witness :
  thread_step (AgentOps0:=demo_agent no_faults) (TemplateOps0:=mute_template)
    demo_args [] (Build_Shared 0 [] false) (Build_Thread 0 [0; 7; 0] (PRound 0))
  = Some (Build_Thread 0 [1; 7; 0] (raise_in_try (Exn true "no question")),
          Build_Shared 0 [] false, [EvRound 0 0 (n_thread [0; 7; 0] 0)])
  ∧ length [inr (0%Z, 0) : exn + Z * nat] < length [0; 7; 0]
  ∧ length [1; 7; 0] = length [0; 7; 0]
  ∧ drop (S (length [inr (0%Z, 0) : exn + Z * nat])) [1; 7; 0]
    = drop (S (length [inr (0%Z, 0) : exn + Z * nat])) [0; 7; 0]
  ∧ ∃ a, [0; 7; 0] !! length [inr (0%Z, 0) : exn + Z * nat] = Some a
         ∧ generate_question (TemplateOps := mute_template) a 0
           = (default a ([1; 7; 0] !! length [inr (0%Z, 0) : exn + Z * nat]),
              inl (Exn true "no question")).
Proof.
  apply (question_failure_abandons_round (AgentOps0:=demo_agent no_faults)
           (TemplateOps0:=mute_template) demo_args 0 0 [] [0; 7; 0] [1; 7; 0]
           [inr (0%Z, 0)] (Exn true "no question") (Build_Shared 0 [] false)).
  - simpl. lia.
  - reflexivity.
Defined.

Lemma progress_closed_last_witness :
  (EvClose ∈ log (demo_final no_faults) →
   0 < 2 ∧ Forall is_done (threads (demo_final no_faults)))
  ∧ (finished (demo_final no_faults) → 0 < 2 →
     ∃ l r outcome,
       log (demo_final no_faults) = l ++ [EvClose; EvExpPostprocess r outcome]
       ∧ count is_close l = 0)
  ∧ (2 = 0 → count is_close (log (demo_final no_faults)) = 0).
Proof.
  apply (progress_closed_last (AgentOps0:=demo_agent no_faults)
           (TemplateOps0:=demo_template no_faults) demo_args
           (demo_final no_faults)).
  apply demo_final_reachable. vm_compute. eauto.
Defined.

Lemma save_record_raises_witness :
  ∃ evs0 ev,
    [IoExists "out" false;
     IoMakedirs "out" (Some (Exn true "Permission denied"));
     IoPrint "An exception occurred while saving the file: Permission denied";
     IoPrint "Saving to the current directory instead.";
     IoOpen "backup_output_file.p" (Some (Exn true "Permission denied"))]
    = evs0 ++ [ev]
    ∧ io_raised ev = Some (Exn true "Permission denied")
    ∧ (is_Exception (Exn true "Permission denied") = true →
       (ev = IoOpen backup_file (Some (Exn true "Permission denied"))
        ∨ ev = IoDump backup_file [(1, [6])]
                 (Some (Exn true "Permission denied")))
       ∧ ∃ e0 evs1 evs2,
           is_Exception e0 = true
           ∧ evs0 = evs1 ++ fallback_notice e0 ++ evs2).
Proof.
  apply (save_record_raises (FileOps0:=demo_files locked) [(1, [6])] "out"
           [] []).
  reflexivity.
Defined.

Lemma save_record_returns_witness :
  [IoExists "out" false; IoMakedirs "out" None;
   IoOpen "out/data.p" None; IoDump "out/data.p" [(1, [6])] None;
   IoPlot "out/data.p" "out" (Some (Exn true "no display"));
   IoPrint "An exception occurred while saving the file: no display";
   IoPrint "Saving to the current directory instead.";
   IoOpen "backup_output_file.p" None;
   IoDump "backup_output_file.p" [(1, [6])] None]
  = saved_and_rendered [(1, [6])] "out"
      (path_exists (FileOps := demo_files headless) [] "out")
  ∨ ∃ evs0 ev e,
      [IoExists "out" false; IoMakedirs "out" None;
       IoOpen "out/data.p" None; IoDump "out/data.p" [(1, [6])] None;
       IoPlot "out/data.p" "out" (Some (Exn true "no display"));
       IoPrint "An exception occurred while saving the file: no display";
       IoPrint "Saving to the current directory instead.";
       IoOpen "backup_output_file.p" None;
       IoDump "backup_output_file.p" [(1, [6])] None]
      = evs0 ++ [ev] ++ fallback_notice e ++ saved_to [(1, [6])] backup_file
      ∧ io_raised ev = Some e ∧ is_Exception e = true.
Proof.
  apply (save_record_returns (FileOps0:=demo_files headless) [(1, [6])] "out"
           [] ["backup_output_file.p"; "out/data.p"; "out"]).
  reflexivity.
Defined.

Lemma rendering_failure_saves_twice_witness :
  ∃ evs0 evs1 raised,
    [IoExists "out" false; IoMakedirs "out" None;
     IoOpen "out/data.p" None; IoDump "out/data.p" [(1, [6])] None;
     IoPlot "out/data.p" "out" (Some (Exn true "no display"));
     IoPrint "An exception occurred while saving the file: no display";
     IoPrint "Saving to the current directory instead.";
     IoOpen "backup_output_file.p" None;
     IoDump "backup_output_file.p" [(1, [6])] None]
    = evs0 ++ fallback_notice (Exn true "no display")
      ++ IoOpen backup_file raised :: evs1
    ∧ IoDump (data_file "out") [(1, [6])] None ∈ evs0.
Proof.
  apply (rendering_failure_saves_twice (FileOps0:=demo_files headless)
           [(1, [6])] "out" [] ["backup_output_file.p"; "out/data.p"; "out"]
           _ (inr ()) (Exn true "no display")).
  - reflexivity.
  - reflexivity.
  - left. apply list_elem_of_In. vm_compute.
    repeat first [left; reflexivity|right].
Defined.

Lemma save_record_in_order_witness :
  (∀ path raised,
     IoMakedirs path raised ∈ (demo_save writable [(1, [6])]).1.2 →
     path = "out" ∧ path_exists (FileOps := demo_files writable) [] "out" = false)
  ∧ (∀ path r' raised,
       IoDump path r' raised ∈ (demo_save writable [(1, [6])]).1.2 →
       r' = [(1, [6])]
       ∧ IoOpen path None ∈ (demo_save writable [(1, [6])]).1.2)
  ∧ (∀ d o raised,
       IoPlot d o raised ∈ (demo_save writable [(1, [6])]).1.2 →
       d = data_file "out" ∧ o = "out"
       ∧ IoDump d [(1, [6])] None ∈ (demo_save writable [(1, [6])]).1.2)
  ∧ (∀ d o raised,
       IoHtml d o raised ∈ (demo_save writable [(1, [6])]).1.2 →
       IoPlot d o None ∈ (demo_save writable [(1, [6])]).1.2).
Proof.
  apply (save_record_in_order (FileOps0:=demo_files writable) [(1, [6])] "out"
           [] ["out/index.html"; "out/plot.png"; "out/data.p"; "out"]
           _ (inr ())).
  reflexivity.
Defined.

Lemma saved_record_is_replay_witness :
  [(1, [6; 6; 6]); (0, [6; 6; 6])]
  = replay (TemplateOps0:=demo_template no_faults) (log (demo_final no_faults))
  ∧ ("out/data.p" = data_file "out" ∨ "out/data.p" = backup_file)
  ∧ (finished (demo_final no_faults) →
     ∃ l outcome,
       log (demo_final no_faults)
       = l ++ [EvExpPostprocess
                 (replay (TemplateOps0:=demo_template no_faults) l) outcome]
       ∧ [(1, [6; 6; 6]); (0, [6; 6; 6])]
         = (exp_postprocess (TemplateOps := demo_template no_faults)
              (replay (TemplateOps0:=demo_template no_faults) l)).1).
Proof.
  apply (saved_record_is_replay (AgentOps0:=demo_agent no_faults)
           (TemplateOps0:=demo_template no_faults) (FileOps0:=demo_files writable)
           demo_args (demo_final no_faults) "out" []
           ["out/index.html"; "out/plot.png"; "out/data.p"; "out"]
           (saved_and_rendered [(1, [6; 6; 6]); (0, [6; 6; 6])] "out" false)
           (inr ()) "out/data.p" [(1, [6; 6; 6]); (0, [6; 6; 6])] None).
  - apply demo_final_reachable. vm_compute. eauto.
  - vm_compute. reflexivity.
  - apply list_elem_of_In. vm_compute.
    repeat first [left; reflexivity|right].
Defined.


